(** * fancontrol: PID fan control for the IT8613E / IT8772E

    A shallow embedding of [src/fancontrol.cpp] and the properties of its
    control loop: the PID step [calculate_new_pwm], the rolling average of
    the CPU temperature, the aggregation of drive and CPU temperatures, and
    the port writes that carry the PWM byte to the embedded controller;
    and of its command line: the options read by [main] and the drive list
    split by [split_drive_names].

    Conventions of the embedding.
    - [int], [uint8_t], [uint16_t] and [long long] values are integers of
      [Z]; every arithmetic operation of the program is followed by the
      reduction to the width of its type ([wrap_int], [wrap_u8], ...), which
      is what the compiled program computes, also where a signed operation
      overflows.
    - [double] is the binary64 format of the processor, Rocq's primitive
      [float]: same rounding to nearest, same infinities, same NaN.
    - What the program reads from outside (the pipes of [popen], the clock,
      the two bytes of the EC base address, the bytes found in a buffer
      declared without an initialiser) is an argument of the function that
      reads it; what it writes to the I/O ports, and its calls to [sleep],
      are returned as a list of events in program order.
    - [printf] and the Graphite messages write no variable of the program;
      they are not part of the event list.
    - Reading or writing outside an array, an integer division by zero and
      the conversion to [int] of a double that no [int] holds end the run
      with a [fault]: the program has undefined behaviour there, and what
      a compiled program does after it is not described.  A statement
      about all the events of a run is about a run that stands.
    - [Sleep s] records the [int] the program passes to [sleep], which
      takes an [unsigned int]: the seconds slept, when [s] is not negative.
    - A C string is the list of its characters; [atoi] and [atof], where
      they read the command line, are parameters. *)

From Stdlib Require Import ZArith Lia Bool Floats Uint63 Ascii.
From stdpp Require Import base list strings.

Local Open Scope Z_scope.

(** ** Machine integers *)

Module CInt.

Definition int_min : Z := -2147483648.
Definition int_max : Z := 2147483647.

(** Two's complement reduction to [w] bits, signed. *)
Definition wrap_signed (w : Z) (z : Z) : Z :=
  (z + 2 ^ (w - 1)) mod 2 ^ w - 2 ^ (w - 1).

Definition wrap_int (z : Z) : Z := wrap_signed 32 z.
Definition wrap_ll (z : Z) : Z := wrap_signed 64 z.
Definition wrap_u8 (z : Z) : Z := z mod 256.
Definition wrap_u16 (z : Z) : Z := z mod 65536.

Definition is_int (z : Z) : Prop := int_min <= z <= int_max.

End CInt.

Import CInt.

(** ** Faults and results *)

Inductive fault : Set :=
  | OutOfBounds     (* an array is read or written outside its allocation *)
  | RemByZero       (* [%] with a zero divisor *)
  | DivByZero       (* integer [/] with a zero divisor *)
  | CastUndefined.  (* [static_cast<int>] of a double that no int holds *)

Inductive result (A : Type) : Type :=
  | Ok (a : A)
  | Fault (f : fault).
Arguments Ok {A} a.
Arguments Fault {A} f.

#[global] Instance result_ret : MRet result := fun A a => Ok a.
#[global] Instance result_bind : MBind result := fun A B k r =>
  match r with
  | Ok a => k a
  | Fault f => Fault f
  end.

(** ** Doubles *)

Module Double.

Abbreviation double := float (only parsing).

(** [int] to [double]: exact, every int has fewer than 53 bits. *)
Definition of_int (z : Z) : double :=
  if z <? 0 then (- of_uint63 (Uint63.of_Z (- z)))%float
  else of_uint63 (Uint63.of_Z z).

(** [long long] to [double]: rounded to nearest.  [- 2^63] has no
    opposite in 63 bits and is written out. *)
Definition of_ll (z : Z) : double :=
  if z =? - 9223372036854775808 then (-0x1p63)%float
  else if z <? 0 then (- of_uint63 (Uint63.of_Z (- z)))%float
  else of_uint63 (Uint63.of_Z z).

(** The integer part of a number, rounded toward zero. *)
Definition trunc_SF (x : spec_float) : option Z :=
  match x with
  | S754_zero _ => Some 0
  | S754_finite s m e =>
      Some (if s then - Z.shiftl (Z.pos m) e else Z.shiftl (Z.pos m) e)
  | S754_infinity _ | S754_nan => None
  end.

(** [static_cast<int>(x)]: truncation toward zero; undefined when [x] is
    NaN, infinite, or truncates to a value outside [int]. *)
Definition to_int (x : double) : result Z :=
  match trunc_SF (Prim2SF x) with
  | Some z => if (int_min <=? z) && (z <=? int_max) then Ok z else Fault CastUndefined
  | None => Fault CastUndefined
  end.

(** Zeros and finite numbers, as opposed to infinities and NaN. *)
Definition SFfinite (x : spec_float) : bool :=
  match x with
  | S754_zero _ | S754_finite _ _ _ => true
  | _ => false
  end.

(** The value of a finite number, scaled by [2^1074] so that it is an
    integer: [-1074] is the least exponent of the format. *)
Definition SFscaled (x : spec_float) : Z :=
  match x with
  | S754_finite s m e =>
      if s then - (Z.pos m * 2 ^ (e + 1074)) else Z.pos m * 2 ^ (e + 1074)
  | _ => 0
  end.

(** [isfinite] and [isnan] of <cmath>. *)
Definition isfinite (x : double) : bool := SFfinite (Prim2SF x).

Definition isnan (x : double) : bool :=
  match Prim2SF x with
  | S754_nan => true
  | _ => false
  end.

End Double.

Import Double.

(** ** Configuration: the globals set from the command line *)

Record config : Set := {
  debug : bool;
  setpoint : Z;
  pwminit : Z;
  interval : Z;
  overheat : Z;
  pwmmin : Z;
  kp : double;
  ki : double;
  imax : double;
  kd : double;
  cputemp_max_values : Z
}.

Definition pwmmax : Z := 255.
Definition port : Z := 0x2e.

Definition default_config : config := {|
  debug := false;
  setpoint := 37;
  pwminit := 128;
  interval := 10;
  overheat := 45;
  pwmmin := 80;
  kp := 50%float;
  ki := 0.5%float;
  imax := 255%float;
  kd := 0%float;
  cputemp_max_values := 10
|}.

(** ** The PID step *)

(** The two doubles [calculate_new_pwm] receives by reference. *)
Record pid_state : Set := {
  integral : double;
  prev_error : double
}.

Section Pid.
Variable c : config.

(** Lines 135-138. *)
Definition new_integral (error timediff : double) (s : pid_state) : double :=
  let integral := (integral s + error * timediff)%float in
  if (imax c <? integral)%float then imax c
  else if (integral <? - imax c)%float then (- imax c)%float
  else integral.

(** Lines 140 and 144: the sum before it is clamped. *)
Definition newPWM_double (error timediff : double) (s : pid_state) : double :=
  let integral := new_integral error timediff s in
  let derivative := ((error - prev_error s) / timediff)%float in
  (of_int (pwminit c) + kp c * error + ki c * integral + kd c * derivative)%float.

(** Lines 146-147. *)
Definition clamp_pwm (x : double) : double :=
  if (of_int pwmmax <? x)%float then of_int pwmmax
  else if (x <? of_int (pwmmin c))%float then of_int (pwmmin c)
  else x.

Definition calculate_new_pwm (error timediff : double) (s : pid_state)
  : pid_state * result Z :=
  let integral := new_integral error timediff s in
  let s' := {| integral := integral; prev_error := error |} in
  let newPWM_double := clamp_pwm (newPWM_double error timediff s) in
  (s', to_int newPWM_double).

(** A sequence of calls, each with its error and its time difference: the
    state and the value returned after every call. *)
Fixpoint pid_run (s : pid_state) (steps : list (double * double))
  : list (pid_state * result Z) :=
  match steps with
  | [] => []
  | (error, timediff) :: steps' =>
      let r := calculate_new_pwm error timediff s in
      r :: pid_run (fst r) steps'
  end.

End Pid.

(** Lines 272 and 275. *)
Definition pid_init : pid_state := {| integral := 0%float; prev_error := 0%float |}.

(** ** The rolling average of the CPU temperature (lines 281-285, 360-375) *)

Record rolling : Set := {
  cputemp_values : list Z;
  cputemp_index : Z;
  cputemp_count : Z;
  cputemp_sum : Z
}.

(** [calloc(cputemp_max_values, sizeof(int))]: that many zeros.  A count
    that is zero or negative leaves no element one may read or write. *)
Definition rolling_init (c : config) : rolling := {|
  cputemp_values := replicate (Z.to_nat (cputemp_max_values c)) 0;
  cputemp_index := 0;
  cputemp_count := 0;
  cputemp_sum := 0
|}.

Definition array_get (a : list Z) (i : Z) : result Z :=
  if i <? 0 then Fault OutOfBounds
  else match a !! Z.to_nat i with
       | Some v => Ok v
       | None => Fault OutOfBounds
       end.

Definition array_set (a : list Z) (i v : Z) : result (list Z) :=
  if (0 <=? i) && (i <? Z.of_nat (length a)) then Ok (<[Z.to_nat i := v]> a)
  else Fault OutOfBounds.

Definition int_rem (a b : Z) : result Z :=
  if b =? 0 then Fault RemByZero else Ok (wrap_int (Z.rem a b)).

Definition int_div (a b : Z) : result Z :=
  if b =? 0 then Fault DivByZero else Ok (wrap_int (Z.quot a b)).

(** Lines 360-375: store one reading, advance the circular index, and
    return the new average. *)
Definition rolling_insert (c : config) (r : rolling) (cputemp : Z)
  : result (rolling * Z) :=
  r1 ← (if cputemp_count r <? cputemp_max_values c then
          let sum := wrap_int (cputemp_sum r + cputemp) in
          values ← array_set (cputemp_values r) (cputemp_count r) cputemp;
          mret {| cputemp_values := values;
                  cputemp_index := cputemp_index r;
                  cputemp_count := wrap_int (cputemp_count r + 1);
                  cputemp_sum := sum |}
        else
          old ← array_get (cputemp_values r) (cputemp_index r);
          let sum := wrap_int (wrap_int (cputemp_sum r - old) + cputemp) in
          values ← array_set (cputemp_values r) (cputemp_index r) cputemp;
          mret {| cputemp_values := values;
                  cputemp_index := cputemp_index r;
                  cputemp_count := cputemp_count r;
                  cputemp_sum := sum |});
  index ← int_rem (wrap_int (cputemp_index r1 + 1)) (cputemp_max_values c);
  cpu_avg_temp ← int_div (cputemp_sum r1) (cputemp_count r1);
  mret ({| cputemp_values := cputemp_values r1;
           cputemp_index := index;
           cputemp_count := cputemp_count r1;
           cputemp_sum := cputemp_sum r1 |}, cpu_avg_temp).

(** The buffer after a sequence of readings, and the last average. *)
Fixpoint rolling_inserts (c : config) (r : rolling) (avg : Z) (samples : list Z)
  : result (rolling * Z) :=
  match samples with
  | [] => Ok (r, avg)
  | x :: samples' =>
      '(r', avg') ← rolling_insert c r x;
      rolling_inserts c r' avg' samples'
  end.

(** ** The temperature probes *)

(** What one [popen] / [fgets] / [pclose] / [atoi] sequence meets.  [fgets]
    either stores a line in the buffer or, when the command printed nothing,
    returns NULL and leaves the buffer as it was; the program does not look
    at what [fgets] returns and calls [atoi] on the buffer in both cases.  A
    buffer is represented by the integer [atoi] reads from it. *)
Inductive pipe : Set :=
  | PopenFailed        (* [popen] returned NULL *)
  | NoLine             (* the command printed nothing *)
  | Line (n : Z).      (* the command printed a line, which [atoi] reads as [n] *)

Definition fgets (buffer : Z) (p : pipe) : Z :=
  match p with
  | Line n => n
  | _ => buffer
  end.

(** Lines 326-337, the body of the loop over the drives, on the pair of
    [tempstring] and [maxtemp]. *)
Definition poll_drive (s : Z * Z) (p : pipe) : Z * Z :=
  let '(tempstring, maxtemp) := s in
  match p with
  | PopenFailed => (tempstring, maxtemp)
  | _ =>
      let tempstring := fgets tempstring p in
      let temp := tempstring in
      (tempstring, if temp >? maxtemp then temp else maxtemp)
  end.

(** Lines 319-348.  [tempstring] is declared without an initialiser:
    what it holds when the loop starts is an argument. *)
Definition poll_drives (tempstring : Z) (pipes : list pipe) : Z :=
  snd (fold_left poll_drive pipes (tempstring, 0)).

(** Lines 351-380, on the rolling buffer, [cpu_avg_temp] and [maxtemp]. *)
Definition poll_cpu (c : config) (r : rolling) (cpu_avg_temp maxtemp : Z)
    (cputempstring : Z) (p : pipe) : result (rolling * Z * Z) :=
  match p with
  | PopenFailed => Ok (r, cpu_avg_temp, maxtemp)
  | _ =>
      let cputemp := fgets cputempstring p in
      '(r', cpu_avg_temp) ← rolling_insert c r cputemp;
      let maxtemp :=
        if wrap_int (cpu_avg_temp - 20) >? maxtemp
        then wrap_int (cpu_avg_temp - 20) else maxtemp in
      mret (r', cpu_avg_temp, maxtemp)
  end.

(** ** Ports *)

Inductive event : Set :=
  | Outb (value port : Z)
  | Inb (port value : Z)
  | Sleep (seconds : Z).

Definition outb (value port : Z) : list event :=
  [Outb (wrap_u8 value) (wrap_u16 port)].

Definition iowrite (reg val : Z) : list event :=
  outb reg port ++ outb val (port + 1).

(** [input] is the byte the data port answers with. *)
Definition ioread (reg : Z) (input : Z) : list event * Z :=
  (outb reg port ++ [Inb (wrap_u16 (port + 1)) (wrap_u8 input)], wrap_u8 input).

Definition ecwrite (ecbar : Z) (reg val : Z) : list event :=
  outb reg (ecbar + 5) ++ outb val (ecbar + 6).

(** ** The control loop *)

Record timespec : Set := { tv_sec : Z; tv_nsec : Z }.

(** Lines 393-394. *)
Definition time_diff (curtime lasttime : timespec) : double :=
  (of_ll (wrap_ll (wrap_ll (1000000000 * wrap_ll (tv_sec curtime - tv_sec lasttime))
                   + wrap_ll (tv_nsec curtime - tv_nsec lasttime)))
   / 1000000000)%float.

(** The variables of [main] that live from one iteration to the next. *)
Record state : Set := {
  ecbar : Z;
  pwm : Z;
  pid : pid_state;
  maxtemp : Z;
  lasttime : timespec;
  roll : rolling;
  cpu_avg_temp : Z
}.

(** Lines 240-285 and 315. [bar_hi] and [bar_lo] are the bytes read from
    registers 0x60 and 0x61, [now] the first reading of the clock.  The
    call of [iopl], whose result the program does not look at, writes no
    variable and is left out. *)
Definition startup (c : config) (bar_hi bar_lo : Z) (now : timespec)
  : state * list event :=
  let unlock := outb 0x87 port ++ outb 0x01 port ++ outb 0x55 port ++ outb 0x55 port in
  let '(read_hi, hi) := ioread 0x60 bar_hi in
  let '(read_lo, lo) := ioread 0x61 bar_lo in
  let ecbar := wrap_u16 (wrap_int (Z.shiftl hi 8 + lo)) in
  let pwm := wrap_u8 (pwminit c) in
  ({| ecbar := ecbar;
      pwm := pwm;
      pid := pid_init;
      maxtemp := 0;
      lasttime := now;
      roll := rolling_init c;
      cpu_avg_temp := 0 |},
   unlock ++ iowrite 0x07 0x04 ++ iowrite 0x30 0x01 ++ read_hi ++ read_lo
   ++ ecwrite ecbar 0x6b pwm ++ ecwrite ecbar 0x73 pwm
   ++ ecwrite ecbar 0x16 0x00 ++ ecwrite ecbar 0x17 0x00).

(** What one iteration reads from outside. *)
Record inputs : Set := {
  tempstring0 : Z;
  drive_pipes : list pipe;
  cputempstring0 : Z;
  cpu_pipe : pipe;
  curtime : timespec
}.

(** Lines 319-380: the temperatures. *)
Definition poll (c : config) (st : state) (inp : inputs) : result state :=
  let maxtemp := poll_drives (tempstring0 inp) (drive_pipes inp) in
  '(r, avg, maxtemp) ← poll_cpu c (roll st) (cpu_avg_temp st) maxtemp
                          (cputempstring0 inp) (cpu_pipe inp);
  mret {| ecbar := ecbar st;
          pwm := pwm st;
          pid := pid st;
          maxtemp := maxtemp;
          lasttime := lasttime st;
          roll := r;
          cpu_avg_temp := avg |}.

(** Lines 392-437: the time difference, the PID step and the two writes.
    [error], [timediff] and [curtime] are set before they are read in every
    iteration, and [derivative] stays 0 and is only printed: they are not
    part of the state. *)
Definition control (c : config) (st : state) (curtime : timespec)
  : result (state * list event) :=
  let timediff := time_diff curtime (lasttime st) in
  if (timediff =? 0)%float then
    mret (st, [Sleep (interval c)])
  else
    let error := of_int (wrap_int (maxtemp st - setpoint c)) in
    let '(pid', r) := calculate_new_pwm c error timediff (pid st) in
    newPWM ← r;
    let pwm := wrap_u8 newPWM in
    mret ({| ecbar := ecbar st;
             pwm := pwm;
             pid := pid';
             maxtemp := maxtemp st;
             lasttime := curtime;
             roll := roll st;
             cpu_avg_temp := cpu_avg_temp st |},
          ecwrite (ecbar st) 0x6b pwm ++ ecwrite (ecbar st) 0x73 pwm
          ++ [Sleep (interval c)]).

Definition iteration (c : config) (st : state) (inp : inputs)
  : result (state * list event) :=
  st1 ← poll c st inp;
  control c st1 (curtime inp).

(** The loop of line 317 over the inputs of its first iterations: the
    events so far, and the state reached or the fault that ended the run.
    An iteration that faults does so while it reads the temperatures or
    converts the PWM value, before it writes to a port or sleeps. *)
Fixpoint loop (c : config) (st : state) (inps : list inputs)
  : list event * result state :=
  match inps with
  | [] => ([], Ok st)
  | inp :: inps' =>
      match iteration c st inp with
      | Fault f => ([], Fault f)
      | Ok (st', tr) =>
          let '(tr', r) := loop c st' inps' in (tr ++ tr', r)
      end
  end.

Definition main (c : config) (bar_hi bar_lo : Z) (now : timespec)
    (inps : list inputs) : list event * result state :=
  let '(st0, tr0) := startup c bar_hi bar_lo now in
  let '(tr, r) := loop c st0 inps in
  (tr0 ++ tr, r).

(** ** Definitions used in the statements *)

(** *** PID *)

(** A step the loop can ask for: a finite error, a finite and positive time
    difference. *)
Definition valid_step (step : double * double) : bool :=
  isfinite (fst step) && isfinite (snd step) && (0 <? snd step)%float.

(** The integral term is within [[-imax, imax]]. *)
Definition within_imax (c : config) (s : pid_state) : bool :=
  (- imax c <=? integral s)%float && (integral s <=? imax c)%float.

(** The sums of line 144, one for each call of [pid_run]. *)
Fixpoint pid_sums (c : config) (s : pid_state) (steps : list (double * double))
  : list double :=
  match steps with
  | [] => []
  | (error, timediff) :: steps' =>
      newPWM_double c error timediff s
      :: pid_sums c (fst (calculate_new_pwm c error timediff s)) steps'
  end.

(** The call returned a PWM value, and it is within [[pwmmin, pwmmax]]. *)
Definition pwm_in_range (c : config) (r : result Z) : Prop :=
  exists p, r = Ok p /\ pwmmin c <= p <= pwmmax.

(** Gains given as [--kp=1e308 --ki=-1e308]: finite, and so large that the
    proportional and integral terms overflow. *)
Definition overflowing_gains : config := {|
  debug := false;
  setpoint := 37;
  pwminit := 128;
  interval := 10;
  overheat := 45;
  pwmmin := 80;
  kp := 0x1.1ccf385ebc8ap+1023%float;
  ki := (-0x1.1ccf385ebc8ap+1023)%float;
  imax := 255%float;
  kd := 0%float;
  cputemp_max_values := 10
|}.

(** *** The rolling buffer *)

Definition sumZ (l : list Z) : Z := foldr Z.add 0 l.

(** The buffer after the readings [samples], when no sum leaves [int]:
    read from the circular index on, the array holds the last readings,
    after the zeros of [calloc] that are not overwritten yet. *)
Definition rolling_inv (c : config) (B : Z) (samples : list Z) (r : rolling) : Prop :=
  length (cputemp_values r) = Z.to_nat (cputemp_max_values c) /\
  cputemp_count r = Z.min (Z.of_nat (length samples)) (cputemp_max_values c) /\
  cputemp_index r = Z.of_nat (length samples) mod cputemp_max_values c /\
  rotate (Z.to_nat (cputemp_index r)) (cputemp_values r)
    = drop (length samples) (replicate (Z.to_nat (cputemp_max_values c)) 0 ++ samples) /\
  cputemp_sum r = sumZ (cputemp_values r) /\
  Forall (fun v => - B <= v <= B) (cputemp_values r).

(** A buffer the program can use: allocated, with its index and count in
    the allocation. *)
Definition rolling_ok (c : config) (r : rolling) : Prop :=
  length (cputemp_values r) = Z.to_nat (cputemp_max_values c) /\
  0 <= cputemp_index r < cputemp_max_values c /\
  0 <= cputemp_count r <= cputemp_max_values c.

(** What holds of the buffer whatever [cputemp_max_values] is. *)
Definition rolling_sane (c : config) (r : rolling) : Prop :=
  length (cputemp_values r) = Z.to_nat (cputemp_max_values c) /\
  0 <= cputemp_count r.

Definition is_div_by_zero {A} (r : result A) : bool :=
  match r with
  | Fault DivByZero => true
  | _ => false
  end.

(** *** The probes *)

(** The temperatures the loop over the drives compares with [maxtemp], in
    order: one for every drive whose pipe opened. *)
Fixpoint drive_temps (tempstring : Z) (pipes : list pipe) : list Z :=
  match pipes with
  | [] => []
  | PopenFailed :: pipes' => drive_temps tempstring pipes'
  | p :: pipes' => fgets tempstring p :: drive_temps (fgets tempstring p) pipes'
  end.

(** The readings the drives did report. *)
Fixpoint reported (pipes : list pipe) : list Z :=
  match pipes with
  | [] => []
  | Line n :: pipes' => n :: reported pipes'
  | _ :: pipes' => reported pipes'
  end.

(** The greatest of 0 and the elements of a list. *)
Definition max_of (l : list Z) : Z := foldr Z.max 0 l.

(** *** The loop *)

(** The two writes of one PWM byte. *)
Definition pwm_writes (ecbar v : Z) : list event :=
  ecwrite ecbar 0x6b v ++ ecwrite ecbar 0x73 v.

(** The events of a sequence of iterations: each one sleeps, and writes
    before that or not. *)
Inductive iterations_trace (ecbar seconds : Z) : list event -> Prop :=
  | trace_end : iterations_trace ecbar seconds []
  | trace_skip tr :
      iterations_trace ecbar seconds tr ->
      iterations_trace ecbar seconds (Sleep seconds :: tr)
  | trace_write v tr :
      0 <= v < 256 ->
      iterations_trace ecbar seconds tr ->
      iterations_trace ecbar seconds (pwm_writes ecbar v ++ Sleep seconds :: tr).

(** The same configuration with another [--overheat]. *)
Definition with_overheat (v : Z) (c : config) : config := {|
  debug := debug c;
  setpoint := setpoint c;
  pwminit := pwminit c;
  interval := interval c;
  overheat := v;
  pwmmin := pwmmin c;
  kp := kp c;
  ki := ki c;
  imax := imax c;
  kd := kd c;
  cputemp_max_values := cputemp_max_values c
|}.

(** The same configuration with another [--cpu_avg]. *)
Definition with_cputemp_max_values (n : Z) (c : config) : config := {|
  debug := debug c;
  setpoint := setpoint c;
  pwminit := pwminit c;
  interval := interval c;
  overheat := overheat c;
  pwmmin := pwmmin c;
  kp := kp c;
  ki := ki c;
  imax := imax c;
  kd := kd c;
  cputemp_max_values := n
|}.

(** Scenario 1: the default configuration, one drive at 40 degrees, a CPU
    at 50 degrees, ten seconds after the start. *)
Definition scenario_1_inputs : inputs := {|
  tempstring0 := 0;
  drive_pipes := [Line 40];
  cputempstring0 := 0;
  cpu_pipe := Line 50;
  curtime := {| tv_sec := 10; tv_nsec := 0 |}
|}.

Definition scenario_1_start : state :=
  fst (startup default_config 0x0a 0x30 {| tv_sec := 0; tv_nsec := 0 |}).

(** An iteration whose clock reading is the one of the start. *)
Definition same_instant_inputs : inputs := {|
  tempstring0 := 0;
  drive_pipes := [Line 40];
  cputempstring0 := 0;
  cpu_pipe := Line 50;
  curtime := {| tv_sec := 0; tv_nsec := 0 |}
|}.

(** An iteration with a CPU at 80 degrees, and the next one, in which the
    pipe to [sensors] does not open. *)
Definition hot_cpu_inputs : inputs := {|
  tempstring0 := 0;
  drive_pipes := [Line 40];
  cputempstring0 := 0;
  cpu_pipe := Line 80;
  curtime := {| tv_sec := 10; tv_nsec := 0 |}
|}.

Definition no_cpu_pipe_inputs : inputs := {|
  tempstring0 := 0;
  drive_pipes := [Line 40];
  cputempstring0 := 0;
  cpu_pipe := PopenFailed;
  curtime := {| tv_sec := 20; tv_nsec := 0 |}
|}.

(** ** The command line *)

(** *** C strings *)

(** A C string is the list of its characters before the terminating NUL. *)
Abbreviation cstring := (list ascii) (only parsing).

Definition cstr (s : string) : cstring := String.list_ascii_of_string s.

Definition comma : ascii := ","%char.
Definition colon : ascii := ":"%char.

(** [strncmp (s1, s2, n) == 0]: the first [n] characters agree, or the two
    strings end together before that. *)
Fixpoint strncmp_eq (s1 s2 : cstring) (n : nat) : bool :=
  match n with
  | O => true
  | S n' =>
      match s1, s2 with
      | [], [] => true
      | c1 :: s1', c2 :: s2' => Ascii.eqb c1 c2 && strncmp_eq s1' s2' n'
      | _, _ => false
      end
  end.

(** [strchr (s, ch)] for a [ch] other than NUL, followed by the write of
    NUL at the place found (line 207): the characters before the first
    [ch], and the string that starts after it. *)
Fixpoint strchr (s : cstring) (ch : ascii) : option (cstring * cstring) :=
  match s with
  | [] => None
  | a :: s' =>
      if Ascii.eqb a ch then Some ([], s')
      else match strchr s' ch with
           | Some (before, after) => Some (a :: before, after)
           | None => None
           end
  end.

(** The tokens which the calls [strtok (s, ",")], [strtok (NULL, ",")], ...
    return before NULL: [strtok] skips the delimiters it finds at the place
    it resumes from, so that a token is a longest run of characters other
    than the delimiter and is never empty.  [token] holds the characters
    of the run being read. *)
Fixpoint strtok (s : cstring) (token : cstring) : list cstring :=
  match s with
  | [] => match token with [] => [] | _ => [token] end
  | ch :: s' =>
      if Ascii.eqb ch comma then
        match token with
        | [] => strtok s' []
        | _ => token :: strtok s' []
        end
      else strtok s' (token ++ [ch])
  end.

(** *** [split_drive_names] (lines 81-106) *)

(** Lines 83-90. *)
Definition count_fields (drive_list : cstring) : Z :=
  fold_left (fun count p => if Ascii.eqb p comma then wrap_int (count + 1) else count)
            drive_list 1.

(** A write to an array of pointers: [None] is an element of the array
    returned by [malloc] that was not written yet. *)
Definition store {A} (a : list A) (i : Z) (v : A) : result (list A) :=
  if (0 <=? i) && (i <? Z.of_nat (length a)) then Ok (<[Z.to_nat i := v]> a)
  else Fault OutOfBounds.

(** Lines 97-102, over the tokens [strtok] returns. *)
Fixpoint store_tokens (drives : list (option cstring)) (i : Z) (tokens : list cstring)
  : result (list (option cstring)) :=
  match tokens with
  | [] => Ok drives
  | token :: tokens' =>
      drives' ← store drives i (Some token);
      store_tokens drives' (wrap_int (i + 1)) tokens'
  end.

(** The value returned and the array left in [*drives].  ([malloc] and
    [strdup] are taken to succeed.) *)
Definition split_drive_names (drive_list : cstring)
  : result (Z * list (option cstring)) :=
  let count := count_fields drive_list in
  let drives := replicate (Z.to_nat count) None in
  drives' ← store_tokens drives 0 (strtok drive_list []);
  mret (count, drives').

(** *** The options (lines 170-226) *)

(** What the loop over [argv] sets: the globals of lines 39-55 and the
    local [drive_list], NULL until the option is met. *)
Record options : Set := {
  cfg : config;
  drive_list : option cstring;
  graphite_server : option cstring;
  graphite_port : Z
}.

Definition initial_options : options := {|
  cfg := default_config;
  drive_list := None;
  graphite_server := None;
  graphite_port := 0
|}.

Definition with_debug (v : bool) (c : config) : config := {|
  debug := v;
  setpoint := setpoint c;
  pwminit := pwminit c;
  interval := interval c;
  overheat := overheat c;
  pwmmin := pwmmin c;
  kp := kp c;
  ki := ki c;
  imax := imax c;
  kd := kd c;
  cputemp_max_values := cputemp_max_values c
|}.

Definition with_setpoint (v : Z) (c : config) : config := {|
  debug := debug c;
  setpoint := v;
  pwminit := pwminit c;
  interval := interval c;
  overheat := overheat c;
  pwmmin := pwmmin c;
  kp := kp c;
  ki := ki c;
  imax := imax c;
  kd := kd c;
  cputemp_max_values := cputemp_max_values c
|}.

Definition with_pwminit (v : Z) (c : config) : config := {|
  debug := debug c;
  setpoint := setpoint c;
  pwminit := v;
  interval := interval c;
  overheat := overheat c;
  pwmmin := pwmmin c;
  kp := kp c;
  ki := ki c;
  imax := imax c;
  kd := kd c;
  cputemp_max_values := cputemp_max_values c
|}.

Definition with_interval (v : Z) (c : config) : config := {|
  debug := debug c;
  setpoint := setpoint c;
  pwminit := pwminit c;
  interval := v;
  overheat := overheat c;
  pwmmin := pwmmin c;
  kp := kp c;
  ki := ki c;
  imax := imax c;
  kd := kd c;
  cputemp_max_values := cputemp_max_values c
|}.

Definition with_pwmmin (v : Z) (c : config) : config := {|
  debug := debug c;
  setpoint := setpoint c;
  pwminit := pwminit c;
  interval := interval c;
  overheat := overheat c;
  pwmmin := v;
  kp := kp c;
  ki := ki c;
  imax := imax c;
  kd := kd c;
  cputemp_max_values := cputemp_max_values c
|}.

Definition with_kp (v : double) (c : config) : config := {|
  debug := debug c;
  setpoint := setpoint c;
  pwminit := pwminit c;
  interval := interval c;
  overheat := overheat c;
  pwmmin := pwmmin c;
  kp := v;
  ki := ki c;
  imax := imax c;
  kd := kd c;
  cputemp_max_values := cputemp_max_values c
|}.

Definition with_ki (v : double) (c : config) : config := {|
  debug := debug c;
  setpoint := setpoint c;
  pwminit := pwminit c;
  interval := interval c;
  overheat := overheat c;
  pwmmin := pwmmin c;
  kp := kp c;
  ki := v;
  imax := imax c;
  kd := kd c;
  cputemp_max_values := cputemp_max_values c
|}.

Definition with_imax (v : double) (c : config) : config := {|
  debug := debug c;
  setpoint := setpoint c;
  pwminit := pwminit c;
  interval := interval c;
  overheat := overheat c;
  pwmmin := pwmmin c;
  kp := kp c;
  ki := ki c;
  imax := v;
  kd := kd c;
  cputemp_max_values := cputemp_max_values c
|}.

Definition with_kd (v : double) (c : config) : config := {|
  debug := debug c;
  setpoint := setpoint c;
  pwminit := pwminit c;
  interval := interval c;
  overheat := overheat c;
  pwmmin := pwmmin c;
  kp := kp c;
  ki := ki c;
  imax := imax c;
  kd := v;
  cputemp_max_values := cputemp_max_values c
|}.

(** An assignment to one of the globals of the configuration. *)
Definition set_cfg (c : config) (o : options) : options := {|
  cfg := c;
  drive_list := drive_list o;
  graphite_server := graphite_server o;
  graphite_port := graphite_port o
|}.

Section Args.

(** [atoi] and [atof] of the C library: the program is followed for
    whatever they return. *)
Variable atoi : cstring -> Z.
Variable atof : cstring -> double.

(** Lines 179-218, the body of the loop over [argv]: the options after
    [arg], or [None] where the program prints a message and returns 1.
    [argv[i] + n] is [drop n arg]; an [int] stored in the [bool debug] is
    [true] unless it is 0; the [double] stored in the [int]
    [cputemp_max_values] is converted as by [static_cast<int>]. *)
Definition parse_arg (o : options) (arg : cstring) : result (option options) :=
  if strncmp_eq arg (cstr "--drive_list=") 13 then
    mret (Some {| cfg := cfg o;
                  drive_list := Some (drop 13 arg);
                  graphite_server := graphite_server o;
                  graphite_port := graphite_port o |})
  else if strncmp_eq arg (cstr "--debug=") 8 then
    mret (Some (set_cfg (with_debug (negb (atoi (drop 8 arg) =? 0)) (cfg o)) o))
  else if strncmp_eq arg (cstr "--setpoint=") 11 then
    mret (Some (set_cfg (with_setpoint (atoi (drop 11 arg)) (cfg o)) o))
  else if strncmp_eq arg (cstr "--pwminit=") 10 then
    mret (Some (set_cfg (with_pwminit (atoi (drop 10 arg)) (cfg o)) o))
  else if strncmp_eq arg (cstr "--interval=") 11 then
    mret (Some (set_cfg (with_interval (atoi (drop 11 arg)) (cfg o)) o))
  else if strncmp_eq arg (cstr "--overheat=") 11 then
    mret (Some (set_cfg (with_overheat (atoi (drop 11 arg)) (cfg o)) o))
  else if strncmp_eq arg (cstr "--pwmmin=") 9 then
    mret (Some (set_cfg (with_pwmmin (atoi (drop 9 arg)) (cfg o)) o))
  else if strncmp_eq arg (cstr "--kp=") 5 then
    mret (Some (set_cfg (with_kp (atof (drop 5 arg)) (cfg o)) o))
  else if strncmp_eq arg (cstr "--ki=") 5 then
    mret (Some (set_cfg (with_ki (atof (drop 5 arg)) (cfg o)) o))
  else if strncmp_eq arg (cstr "--imax=") 7 then
    mret (Some (set_cfg (with_imax (atof (drop 7 arg)) (cfg o)) o))
  else if strncmp_eq arg (cstr "--kd=") 5 then
    mret (Some (set_cfg (with_kd (atof (drop 5 arg)) (cfg o)) o))
  else if strncmp_eq arg (cstr "--cpu_avg=") 10 then
    n ← to_int (atof (drop 10 arg));
    mret (Some (set_cfg (with_cputemp_max_values n (cfg o)) o))
  else if strncmp_eq arg (cstr "--graphite_server=") 18 then
    match strchr (drop 18 arg) colon with
    | Some (server_info, after) =>
        mret (Some {| cfg := cfg o;
                      drive_list := drive_list o;
                      graphite_server := Some server_info;
                      graphite_port := atoi after |})
    | None => mret None
    end
  else mret None.

(** The loop of line 178 over [argv[1]], ..., [argv[argc - 1]]. *)
Fixpoint parse_loop (o : options) (args : list cstring) : result (option options) :=
  match args with
  | [] => mret (Some o)
  | arg :: args' =>
      r ← parse_arg o arg;
      match r with
      | Some o' => parse_loop o' args'
      | None => mret None
      end
  end.

(** Lines 170-226.  [args] is [argv] without the name of the program. *)
Definition parse_args (args : list cstring) : result (option options) :=
  match args with
  | [] => mret None
  | _ =>
      r ← parse_loop initial_options args;
      match r with
      | Some o =>
          match drive_list o with
          | Some _ => mret (Some o)
          | None => mret None
          end
      | None => mret None
      end
  end.

(** *** The program *)

(** How a run stands after the iterations followed. *)
Inductive stop : Set :=
  | Returned (status : Z)        (* [main] returned *)
  | Faulted (f : fault)          (* the run ended with a fault *)
  | Uninitialised (i : Z)        (* [drives[i]] was read and never written *)
  | Looping (st : state).        (* the loop goes on from [st] *)

(** The first element of [drives] that was not written. *)
Fixpoint first_unwritten (drives : list (option cstring)) (i : Z) : option Z :=
  match drives with
  | [] => None
  | None :: _ => Some i
  | Some _ :: drives' => first_unwritten drives' (i + 1)
  end.

(** [main], from [argv] to the iterations of the loop of which [inps] holds
    the inputs: the events, and how the run stands.  Every iteration reads
    [drives[0]], ..., [drives[count - 1]] in this order (line 326), each
    before the pipe of its drive is opened, and writes to the ports after
    that. *)
Definition fancontrol (args : list cstring) (bar_hi bar_lo : Z) (now : timespec)
    (inps : list inputs) : list event * stop :=
  match parse_args args with
  | Fault f => ([], Faulted f)
  | Ok None => ([], Returned 1)
  | Ok (Some o) =>
      match split_drive_names (default [] (drive_list o)) with
      | Fault f => ([], Faulted f)
      | Ok (count, drives) =>
          if count =? 0 then ([], Returned 1)
          else
            match first_unwritten drives 0, inps with
            | Some i, _ :: _ =>
                (snd (startup (cfg o) bar_hi bar_lo now), Uninitialised i)
            | _, _ =>
                let '(tr, r) := main (cfg o) bar_hi bar_lo now inps in
                (tr, match r with
                     | Ok st => Looping st
                     | Fault f => Faulted f
                     end)
            end
      end
  end.

End Args.

(** [ecread] (lines 75-79); [input] is the byte the port answers with.
    [main] does not call it. *)
Definition ecread (ecbar : Z) (reg : Z) (input : Z) : list event * Z :=
  (outb reg (ecbar + 5) ++ [Inb (wrap_u16 (ecbar + 6)) (wrap_u8 input)], wrap_u8 input).

(** *** Definitions used in the statements about the command line *)

(** A drive list written from its fields: the fields, with a comma
    between two of them. *)
Fixpoint join (fields : list cstring) : cstring :=
  match fields with
  | [] => []
  | [field] => field
  | field :: fields' => field ++ comma :: join fields'
  end.

Definition no_comma (field : cstring) : bool :=
  forallb (fun ch => negb (Ascii.eqb ch comma)) field.

Definition nonempty {A} (l : list A) : bool :=
  match l with
  | [] => false
  | _ => true
  end.

(** The number of commas of a string. *)
Definition commas (s : cstring) : Z :=
  Z.of_nat (length (filter (fun ch => Ascii.eqb ch comma = true) s)).

(** The fields of a string: the runs between two commas, empty ones
    included. *)
Fixpoint fields_of (s : cstring) (field : cstring) : list cstring :=
  match s with
  | [] => [field]
  | ch :: s' =>
      if Ascii.eqb ch comma then field :: fields_of s' []
      else fields_of s' (field ++ [ch])
  end.

(** The payloads [argv[i] + n] of the arguments that start with [prefix],
    in the order of the command line. *)
Definition payloads (prefix : cstring) (args : list cstring) : list cstring :=
  drop (length prefix)
    <$> filter (fun arg => strncmp_eq arg prefix (length prefix) = true) args.

(** The last element of a list, or [d]. *)
Definition last_or {A} (d : A) (l : list A) : A := default d (last l).

(** The options, the prefix each is given with, and the option an
    argument gives: the first test of the chain of lines 179-203 that
    succeeds. *)
Inductive kind : Set :=
  | KDriveList | KDebug | KSetpoint | KPwminit | KInterval | KOverheat | KPwmmin
  | KKp | KKi | KImax | KKd | KCpuAvg | KGraphite.

#[global] Instance kind_eq_dec : EqDecision kind.
Proof. solve_decision. Defined.

Definition prefix_of (k : kind) : cstring :=
  match k with
  | KDriveList => cstr "--drive_list="
  | KDebug => cstr "--debug="
  | KSetpoint => cstr "--setpoint="
  | KPwminit => cstr "--pwminit="
  | KInterval => cstr "--interval="
  | KOverheat => cstr "--overheat="
  | KPwmmin => cstr "--pwmmin="
  | KKp => cstr "--kp="
  | KKi => cstr "--ki="
  | KImax => cstr "--imax="
  | KKd => cstr "--kd="
  | KCpuAvg => cstr "--cpu_avg="
  | KGraphite => cstr "--graphite_server="
  end.

Definition kind_of (arg : cstring) : option kind :=
  if strncmp_eq arg (cstr "--drive_list=") 13 then Some KDriveList
  else if strncmp_eq arg (cstr "--debug=") 8 then Some KDebug
  else if strncmp_eq arg (cstr "--setpoint=") 11 then Some KSetpoint
  else if strncmp_eq arg (cstr "--pwminit=") 10 then Some KPwminit
  else if strncmp_eq arg (cstr "--interval=") 11 then Some KInterval
  else if strncmp_eq arg (cstr "--overheat=") 11 then Some KOverheat
  else if strncmp_eq arg (cstr "--pwmmin=") 9 then Some KPwmmin
  else if strncmp_eq arg (cstr "--kp=") 5 then Some KKp
  else if strncmp_eq arg (cstr "--ki=") 5 then Some KKi
  else if strncmp_eq arg (cstr "--imax=") 7 then Some KImax
  else if strncmp_eq arg (cstr "--kd=") 5 then Some KKd
  else if strncmp_eq arg (cstr "--cpu_avg=") 10 then Some KCpuAvg
  else if strncmp_eq arg (cstr "--graphite_server=") 18 then Some KGraphite
  else None.

(** What the branch of an option does. *)
Definition apply_kind (atoi : cstring -> Z) (atof : cstring -> double)
    (o : options) (arg : cstring) (k : option kind) : result (option options) :=
  match k with
  | Some KDriveList =>
      mret (Some {| cfg := cfg o;
                    drive_list := Some (drop 13 arg);
                    graphite_server := graphite_server o;
                    graphite_port := graphite_port o |})
  | Some KDebug =>
      mret (Some (set_cfg (with_debug (negb (atoi (drop 8 arg) =? 0)) (cfg o)) o))
  | Some KSetpoint => mret (Some (set_cfg (with_setpoint (atoi (drop 11 arg)) (cfg o)) o))
  | Some KPwminit => mret (Some (set_cfg (with_pwminit (atoi (drop 10 arg)) (cfg o)) o))
  | Some KInterval => mret (Some (set_cfg (with_interval (atoi (drop 11 arg)) (cfg o)) o))
  | Some KOverheat => mret (Some (set_cfg (with_overheat (atoi (drop 11 arg)) (cfg o)) o))
  | Some KPwmmin => mret (Some (set_cfg (with_pwmmin (atoi (drop 9 arg)) (cfg o)) o))
  | Some KKp => mret (Some (set_cfg (with_kp (atof (drop 5 arg)) (cfg o)) o))
  | Some KKi => mret (Some (set_cfg (with_ki (atof (drop 5 arg)) (cfg o)) o))
  | Some KImax => mret (Some (set_cfg (with_imax (atof (drop 7 arg)) (cfg o)) o))
  | Some KKd => mret (Some (set_cfg (with_kd (atof (drop 5 arg)) (cfg o)) o))
  | Some KCpuAvg =>
      n ← to_int (atof (drop 10 arg));
      mret (Some (set_cfg (with_cputemp_max_values n (cfg o)) o))
  | Some KGraphite =>
      match strchr (drop 18 arg) colon with
      | Some (server_info, after) =>
          mret (Some {| cfg := cfg o;
                        drive_list := drive_list o;
                        graphite_server := Some server_info;
                        graphite_port := atoi after |})
      | None => mret None
      end
  | None => mret None
  end.

(** Every variable the options set has the value given by the last
    argument with the prefix of its option, converted as that option is,
    and the value it has in [o0] when there is no such argument. *)
Definition last_wins (atoi : cstring -> Z) (atof : cstring -> double)
    (o0 : options) (args : list cstring) (o : options) : Prop :=
  let given k := payloads (prefix_of k) args in
  drive_list o = from_option Some (drive_list o0) (last (given KDriveList)) /\
  debug (cfg o)
  = last_or (debug (cfg o0)) ((fun s => negb (atoi s =? 0)) <$> given KDebug) /\
  setpoint (cfg o) = last_or (setpoint (cfg o0)) (atoi <$> given KSetpoint) /\
  pwminit (cfg o) = last_or (pwminit (cfg o0)) (atoi <$> given KPwminit) /\
  interval (cfg o) = last_or (interval (cfg o0)) (atoi <$> given KInterval) /\
  overheat (cfg o) = last_or (overheat (cfg o0)) (atoi <$> given KOverheat) /\
  pwmmin (cfg o) = last_or (pwmmin (cfg o0)) (atoi <$> given KPwmmin) /\
  kp (cfg o) = last_or (kp (cfg o0)) (atof <$> given KKp) /\
  ki (cfg o) = last_or (ki (cfg o0)) (atof <$> given KKi) /\
  imax (cfg o) = last_or (imax (cfg o0)) (atof <$> given KImax) /\
  kd (cfg o) = last_or (kd (cfg o0)) (atof <$> given KKd) /\
  Ok (cputemp_max_values (cfg o))
  = last_or (Ok (cputemp_max_values (cfg o0)))
            ((fun s => to_int (atof s)) <$> given KCpuAvg) /\
  (graphite_server o, graphite_port o)
  = last_or (graphite_server o0, graphite_port o0)
            ((fun s => match strchr s colon with
                       | Some (server_info, after) => (Some server_info, atoi after)
                       | None => (None, 0)
                       end) <$> given KGraphite).

(** An argument the loop over [argv] accepts: one of the twelve options
    with a value, or [--graphite_server=] with a colon in its value. *)
Definition recognised (arg : cstring) : bool :=
  strncmp_eq arg (cstr "--drive_list=") 13
  || strncmp_eq arg (cstr "--debug=") 8
  || strncmp_eq arg (cstr "--setpoint=") 11
  || strncmp_eq arg (cstr "--pwminit=") 10
  || strncmp_eq arg (cstr "--interval=") 11
  || strncmp_eq arg (cstr "--overheat=") 11
  || strncmp_eq arg (cstr "--pwmmin=") 9
  || strncmp_eq arg (cstr "--kp=") 5
  || strncmp_eq arg (cstr "--ki=") 5
  || strncmp_eq arg (cstr "--imax=") 7
  || strncmp_eq arg (cstr "--kd=") 5
  || strncmp_eq arg (cstr "--cpu_avg=") 10
  || (strncmp_eq arg (cstr "--graphite_server=") 18
      && bool_decide (is_Some (strchr (drop 18 arg) colon))).

(** The arguments that reach line 229 when no conversion is undefined:
    there is one at least, each is recognised, and one gives the drive
    list. *)
Definition accepted (args : list cstring) : bool :=
  nonempty args
  && forallb recognised args
  && existsb (fun arg => strncmp_eq arg (cstr "--drive_list=") 13) args.

Definition is_ok {A} (r : result A) : bool :=
  match r with
  | Ok _ => true
  | Fault _ => false
  end.

(** The values of [--cpu_avg=] all have a conversion to [int]. *)
Definition cpu_avg_converts (atof : cstring -> double) (args : list cstring) : bool :=
  forallb (fun s => is_ok (to_int (atof s))) (payloads (cstr "--cpu_avg=") args).

(** The options are parsed and [main] goes on to line 229. *)
Definition parsed (r : result (option options)) : bool :=
  match r with
  | Ok (Some _) => true
  | _ => false
  end.

(** Two outcomes of the loop over [argv] that differ at most in the value
    of [overheat]. *)
Definition same_but_overheat (o o' : options) : Prop :=
  drive_list o = drive_list o' /\
  graphite_server o = graphite_server o' /\
  graphite_port o = graphite_port o' /\
  with_overheat 0 (cfg o) = with_overheat 0 (cfg o').

Definition same_outcome (r r' : result (option options)) : Prop :=
  match r, r' with
  | Ok (Some o), Ok (Some o') => same_but_overheat o o'
  | Ok None, Ok None => True
  | Fault f, Fault f' => f = f'
  | _, _ => False
  end.

(** An [atoi] and an [atof] for the examples: the number written by the
    decimal digits a string starts with. *)
Fixpoint leading_digits (s : cstring) (n : Z) : Z :=
  match s with
  | [] => n
  | ch :: s' =>
      let d := Z.of_nat (nat_of_ascii ch) - 48 in
      if (0 <=? d) && (d <=? 9) then leading_digits s' (10 * n + d) else n
  end.

Definition example_atoi (s : cstring) : Z := leading_digits s 0.

Definition example_atof (s : cstring) : double := of_int (leading_digits s 0).

(** *** Definitions used in the further statements about the loop *)

(** The events of a sequence of iterations whose writes all carry a byte
    within [[lo, hi]]. *)
Inductive iterations_within (ecbar seconds lo hi : Z) : list event -> Prop :=
  | within_end : iterations_within ecbar seconds lo hi []
  | within_skip tr :
      iterations_within ecbar seconds lo hi tr ->
      iterations_within ecbar seconds lo hi (Sleep seconds :: tr)
  | within_write v tr :
      lo <= v <= hi ->
      iterations_within ecbar seconds lo hi tr ->
      iterations_within ecbar seconds lo hi (pwm_writes ecbar v ++ Sleep seconds :: tr).

(** A finite number below [2 ^ D] in absolute value. *)
Definition SFbelow (x : spec_float) (D : Z) : bool :=
  SFfinite x && (Z.abs (SFscaled x) <? 2 ^ (D + 1074)).

Definition below (x : double) (D : Z) : bool := SFbelow (Prim2SF x) D.

(** A configuration with [int]s where the program has [int]s, a lower
    limit of the PWM value that is not above the upper one, a window of
    one element at least, and gains and an integral limit below [2 ^ 64]
    in absolute value, the limit not negative. *)
Definition sane_config (c : config) : bool :=
  (int_min <=? pwminit c) && (pwminit c <=? int_max)
  && (int_min <=? pwmmin c) && (pwmmin c <=? pwmmax)
  && (1 <=? cputemp_max_values c) && (cputemp_max_values c <=? int_max)
  && below (kp c) 64 && below (ki c) 64 && below (kd c) 64
  && below (imax c) 64 && (0 <=? imax c)%float.

(** What holds of the state before every iteration of a run with a sane
    configuration: the buffer of the CPU average is well formed, the
    integral is within its limits, and the last error is that of an
    [int]. *)
Definition loop_invariant (c : config) (st : state) : Prop :=
  rolling_ok c (roll st) /\
  within_imax c (pid st) = true /\
  below (prev_error (pid st)) 32 = true.

(** The port of an access, and the seconds of a sleep. *)
Definition on_ports (ports : list Z) (ev : event) : Prop :=
  match ev with
  | Outb v p => p ∈ ports /\ 0 <= v < 256
  | Inb p v => p ∈ ports /\ 0 <= v < 256
  | Sleep _ => True
  end.

Definition sleeps (tr : list event) : list Z :=
  omap (fun ev => match ev with Sleep s => Some s | _ => None end) tr.

(** A run that stands, or ended at the conversion of the PWM value: no
    array was read or written outside its allocation, and no division or
    remainder had a zero divisor. *)
Definition memory_safe {A} (r : result A) : bool :=
  match r with
  | Ok _ | Fault CastUndefined => true
  | Fault _ => false
  end.

(** The number of nanoseconds of a clock reading. *)
Definition nanoseconds (t : timespec) : Z := 1000000000 * tv_sec t + tv_nsec t.

(** A reading of the monotonic clock: seconds since the start of the
    machine, fewer than [2 ^ 32], and nanoseconds below one second. *)
Definition valid_time (t : timespec) : bool :=
  (0 <=? tv_sec t) && (tv_sec t <? 2 ^ 32)
  && (0 <=? tv_nsec t) && (tv_nsec t <? 1000000000).

(** The [long long] that lines 393-394 divide by 1000000000.0. *)
Definition elapsed (curtime lasttime : timespec) : Z :=
  wrap_ll (wrap_ll (1000000000 * wrap_ll (tv_sec curtime - tv_sec lasttime))
           + wrap_ll (tv_nsec curtime - tv_nsec lasttime)).

(** The gains, the integral limit and the initial PWM value as the globals
    are initialised (lines 41 and 45-48), whatever the other options
    are. *)
Definition default_gains (c : config) : bool :=
  (pwminit c =? 128) && Leibniz.eqb (kp c) 50 && Leibniz.eqb (ki c) 0.5
  && Leibniz.eqb (imax c) 255 && Leibniz.eqb (kd c) 0.

(** ** Facts about machine integers *)

Lemma wrap_int_id z : is_int z -> wrap_int z = z.
Proof.
  unfold is_int, int_min, int_max, wrap_int, wrap_signed. intros H.
  change (2 ^ (32 - 1)) with 2147483648. change (2 ^ 32) with 4294967296.
  rewrite Z.mod_small; lia.
Qed.

Lemma wrap_int_range z : is_int (wrap_int z).
Proof.
  unfold is_int, int_min, int_max, wrap_int, wrap_signed.
  change (2 ^ (32 - 1)) with 2147483648. change (2 ^ 32) with 4294967296.
  pose proof (Z.mod_pos_bound (z + 2147483648) 4294967296 eq_refl). lia.
Qed.

Lemma wrap_u8_range z : 0 <= wrap_u8 z < 256.
Proof. unfold wrap_u8. apply Z.mod_pos_bound. lia. Qed.

Lemma is_int_bound B N z :
  0 <= B -> 1 <= N -> N * B <= int_max -> - (N * B) <= z <= N * B -> is_int z.
Proof. unfold is_int, int_min, int_max. lia. Qed.

Lemma quot_bound a b : 1 <= b -> is_int a -> is_int (a ÷ b).
Proof.
  unfold is_int, int_min, int_max. intros Hb Ha.
  destruct (Z.le_gt_cases 0 a).
  - pose proof (Z.quot_pos a b ltac:(lia) ltac:(lia)).
    pose proof (Z.quot_le_upper_bound a b a ltac:(lia) ltac:(nia)). lia.
  - assert (E : a ÷ b = - (- a ÷ b)) by (rewrite Z.quot_opp_l; lia).
    pose proof (Z.quot_pos (- a) b ltac:(lia) ltac:(lia)).
    pose proof (Z.quot_le_upper_bound (- a) b (- a) ltac:(lia) ltac:(nia)). lia.
Qed.

(** ** Facts about binary64 arithmetic *)

Module DoubleFacts.

(** *** Rounding never invents a NaN *)

Lemma shr_1_nonneg mrs : 0 <= shr_m mrs -> 0 <= shr_m (shr_1 mrs).
Proof.
  destruct mrs as [m r s]; simpl.
  destruct m as [|[p|p|]|[p|p|]]; simpl; lia.
Qed.

Lemma iter_pos_shr_1_nonneg n : forall mrs,
  0 <= shr_m mrs -> 0 <= shr_m (SpecFloat.iter_pos shr_1 n mrs).
Proof.
  induction n as [n IH|n IH|]; simpl; intros mrs H.
  - apply IH, IH, shr_1_nonneg, H.
  - apply IH, IH, H.
  - apply shr_1_nonneg, H.
Qed.

Lemma shr_nonneg mrs e n : 0 <= shr_m mrs -> 0 <= shr_m (fst (shr mrs e n)).
Proof.
  intros H. destruct n; simpl; auto using iter_pos_shr_1_nonneg.
Qed.

Lemma shr_record_of_loc_m m l : shr_m (shr_record_of_loc m l) = m.
Proof. destruct l as [|[ | | ]]; reflexivity. Qed.

Lemma shr_fexp_nonneg m e l : 0 <= m -> 0 <= shr_m (fst (shr_fexp prec emax m e l)).
Proof.
  intros H. unfold shr_fexp. apply shr_nonneg. now rewrite shr_record_of_loc_m.
Qed.

Lemma round_nearest_even_nonneg m l : 0 <= m -> 0 <= round_nearest_even m l.
Proof.
  intros H. destruct l as [|[ | | ]]; simpl; try lia.
  destruct (Z.even m); lia.
Qed.

Lemma binary_round_aux_not_nan sx mx ex lx :
  0 <= mx -> binary_round_aux prec emax sx mx ex lx <> S754_nan.
Proof.
  intros H. unfold binary_round_aux.
  pose proof (shr_fexp_nonneg mx ex lx H) as H1.
  destruct (shr_fexp prec emax mx ex lx) as [mrs' e']. simpl in H1.
  pose proof (shr_fexp_nonneg _ e' loc_Exact
                (round_nearest_even_nonneg _ (loc_of_shr_record mrs') H1)) as H2.
  destruct (shr_fexp prec emax _ e' loc_Exact) as [mrs'' e'']. simpl in H2.
  destruct (shr_m mrs'') as [|p|p]; try discriminate; try lia.
  destruct (e'' <=? emax - prec); discriminate.
Qed.

Lemma binary_normalize_not_nan m e sz :
  binary_normalize prec emax m e sz <> S754_nan.
Proof.
  destruct m as [|p|p]; simpl; try discriminate;
    unfold binary_round;
    destruct (shl_align _ _ _) as [mz ez];
    apply binary_round_aux_not_nan; lia.
Qed.

Lemma SFmul_not_nan x y :
  SFfinite x = true -> SFfinite y = true -> SFmul prec emax x y <> S754_nan.
Proof.
  destruct x as [sx|sx| |sx mx ex], y as [sy|sy| |sy my ey];
    simpl; try discriminate; intros _ _.
  apply binary_round_aux_not_nan; lia.
Qed.

Lemma SFadd_not_nan x y :
  SFfinite x = true -> y <> S754_nan -> SFadd prec emax x y <> S754_nan.
Proof.
  destruct x as [sx|sx| |sx mx ex], y as [sy|sy| |sy my ey];
    simpl; try discriminate; try congruence; intros _ _.
  - destruct sx, sy; discriminate.
  - apply binary_normalize_not_nan.
Qed.

(** *** The order of [SFcompare] *)

Lemma SFcompare_antisym x y :
  SFcompare y x = option_map CompOpp (SFcompare x y).
Proof.
  destruct x as [sx|sx| |sx mx ex], y as [sy|sy| |sy my ey]; simpl;
    try reflexivity;
    try (destruct sx; reflexivity); try (destruct sy; reflexivity);
    try (destruct sx, sy; reflexivity).
  pose proof (Pos.compare_cont_antisym mx my Eq) as Hm. simpl in Hm.
  rewrite <- Hm, (Z.compare_antisym ex ey).
  destruct sx, sy; try reflexivity; f_equal;
    destruct (ex ?= ey); simpl; now rewrite ?CompOpp_involutive.
Qed.

Lemma SFcompare_refl x : x <> S754_nan -> SFcompare x x = Some Eq.
Proof.
  destruct x as [sx|sx| |sx mx ex]; simpl; try congruence; intros _.
  - destruct sx; reflexivity.
  - destruct sx; rewrite Z.compare_refl, Pos.compare_cont_refl; reflexivity.
Qed.

Lemma SFcompare_some x y :
  x <> S754_nan -> y <> S754_nan -> exists o, SFcompare x y = Some o.
Proof.
  destruct x as [sx|sx| |sx mx ex], y as [sy|sy| |sy my ey]; simpl;
    try congruence; eauto.
Qed.

Lemma SFltb_false_leb x y :
  x <> S754_nan -> y <> S754_nan -> SFltb x y = false -> SFleb y x = true.
Proof.
  intros Hx Hy. unfold SFltb, SFleb. rewrite (SFcompare_antisym x y).
  destruct (SFcompare_some x y Hx Hy) as [o ->]. destruct o; simpl; congruence.
Qed.

Lemma SFltb_leb x y : SFltb x y = true -> SFleb x y = true.
Proof. unfold SFltb, SFleb. destruct (SFcompare x y) as [[ | | ]|]; congruence. Qed.

Lemma SFleb_refl x : x <> S754_nan -> SFleb x x = true.
Proof. intros H. unfold SFleb. now rewrite SFcompare_refl. Qed.

Lemma SFleb_opp_nonneg b :
  SFleb (S754_zero false) b = true -> SFleb (SFopp b) b = true.
Proof.
  destruct b as [s|s| |s m e]; simpl; try discriminate; try reflexivity;
    destruct s; try discriminate; reflexivity.
Qed.

Lemma SFleb_not_nan_l x y : SFleb x y = true -> x <> S754_nan.
Proof. unfold SFleb. destruct x, y; simpl; congruence. Qed.

Lemma SFleb_not_nan_r x y : SFleb x y = true -> y <> S754_nan.
Proof. unfold SFleb. destruct x, y; simpl; congruence. Qed.

Lemma SFleb_between_finite b x :
  SFfinite b = true -> SFleb (SFopp b) x = true -> SFleb x b = true ->
  SFfinite x = true.
Proof.
  destruct b as [s|s| |s m e], x as [sx|sx| |sx mx ex]; simpl;
    try discriminate; try reflexivity; intros _;
    destruct s, sx; simpl; discriminate.
Qed.

(** *** Values: the order and the integer part *)

Lemma digits2_pos_bounds m :
  2 ^ (Z.pos (digits2_pos m) - 1) <= Z.pos m < 2 ^ Z.pos (digits2_pos m).
Proof.
  induction m as [m IH|m IH|]; simpl digits2_pos.
  - rewrite Pos2Z.inj_succ, Z.pow_succ_r by lia.
    replace (Z.succ (Z.pos (digits2_pos m)) - 1) with (Z.succ (Z.pos (digits2_pos m) - 1)) by lia.
    rewrite Z.pow_succ_r by lia. lia.
  - rewrite Pos2Z.inj_succ, Z.pow_succ_r by lia.
    replace (Z.succ (Z.pos (digits2_pos m)) - 1) with (Z.succ (Z.pos (digits2_pos m) - 1)) by lia.
    rewrite Z.pow_succ_r by lia. lia.
  - simpl. lia.
Qed.

Lemma iter_xO_digits k : forall m,
  digits2_pos (Pos.iter xO m k) = (digits2_pos m + k)%positive.
Proof.
  induction k as [|k IH] using Pos.peano_ind; intros m.
  - simpl. lia.
  - rewrite Pos.iter_succ. simpl. rewrite IH. lia.
Qed.

Lemma iter_xO_value k : forall m,
  Z.pos (Pos.iter xO m k) = Z.pos m * 2 ^ Z.pos k.
Proof.
  induction k as [|k IH] using Pos.peano_ind; intros m.
  - simpl. lia.
  - rewrite Pos.iter_succ, Pos2Z.inj_xO, IH, Pos2Z.inj_succ, Z.pow_succ_r by lia. lia.
Qed.

(** What [valid_binary] says of a mantissa and its exponent. *)
Lemma bounded_facts m e :
  bounded prec emax m e = true ->
  -1074 <= e <= 971 /\ Z.pos m < 2 ^ 53 /\ (-1074 < e -> 2 ^ 52 <= Z.pos m).
Proof.
  unfold bounded, canonical_mantissa, fexp, SpecFloat.emin, prec, emax.
  rewrite andb_true_iff, Z.eqb_eq, Z.leb_le. intros [Hc He].
  pose proof (digits2_pos_bounds m) as Hd.
  set (d := Z.pos (digits2_pos m)) in *.
  assert (d <= 53) by lia.
  assert (Hlt : 2 ^ d <= 2 ^ 53) by (apply Z.pow_le_mono_r; lia).
  split; [lia|]. split; [lia|].
  intros Hgt. assert (d = 53) by lia.
  replace (d - 1) with 52 in Hd by lia. lia.
Qed.

Lemma pos_scaled_compare m1 e1 m2 e2 :
  bounded prec emax m1 e1 = true -> bounded prec emax m2 e2 = true ->
  match e1 ?= e2 with
  | Lt => Lt
  | Gt => Gt
  | Eq => Pos.compare_cont Eq m1 m2
  end = (Z.pos m1 * 2 ^ (e1 + 1074) ?= Z.pos m2 * 2 ^ (e2 + 1074)).
Proof.
  intros H1 H2.
  destruct (bounded_facts _ _ H1) as (He1 & Hm1 & Hn1).
  destruct (bounded_facts _ _ H2) as (He2 & Hm2 & Hn2).
  assert (Hlt : forall ma a mb b, 0 <= a < b -> 0 < ma < 2 ^ 53 -> 2 ^ 52 <= mb ->
                 ma * 2 ^ a < mb * 2 ^ b).
  { intros ma a mb b Hab Hma Hmb.
    replace b with (Z.succ a + (b - Z.succ a)) by lia.
    rewrite Z.pow_add_r, Z.pow_succ_r by lia.
    assert (0 < 2 ^ a) by (apply Z.pow_pos_nonneg; lia).
    assert (1 <= 2 ^ (b - Z.succ a)) by (apply (Z.pow_le_mono_r 2 0); lia).
    assert (Hm : ma < 2 * mb) by (change (2 ^ 53) with (2 * 2 ^ 52) in Hma; lia).
    apply Z.lt_le_trans with (2 * mb * 2 ^ a).
    - apply Z.mul_lt_mono_pos_r; lia.
    - rewrite <- (Z.mul_1_r (2 * mb * 2 ^ a)) at 1.
      replace (mb * (2 * 2 ^ a * 2 ^ (b - Z.succ a)))
        with (2 * mb * 2 ^ a * 2 ^ (b - Z.succ a)) by ring.
      apply Z.mul_le_mono_nonneg_l; [|lia].
      apply Z.mul_nonneg_nonneg; lia. }
  destruct (Z.compare_spec e1 e2) as [->|Hl|Hg].
  - change (Pos.compare_cont Eq m1 m2) with (Z.pos m1 ?= Z.pos m2).
    apply Zmult_compare_compat_r. apply Z.lt_gt, Z.pow_pos_nonneg; lia.
  - symmetry. apply Z.compare_lt_iff. apply Hlt; lia.
  - symmetry. apply Z.compare_gt_iff. apply Hlt; lia.
Qed.

Lemma SFcompare_scaled x y :
  SpecFloat.valid_binary prec emax x = true -> SpecFloat.valid_binary prec emax y = true ->
  SFfinite x = true -> SFfinite y = true ->
  SFcompare x y = Some (SFscaled x ?= SFscaled y).
Proof.
  destruct x as [sx|sx| |sx mx ex], y as [sy|sy| |sy my ey]; try discriminate;
    intros Vx Vy _ _; simpl in Vx, Vy.
  - reflexivity.
  - destruct (bounded_facts _ _ Vy) as (He & _ & _).
    assert (0 < Z.pos my * 2 ^ (ey + 1074)) by (apply Z.mul_pos_pos; [lia|apply Z.pow_pos_nonneg; lia]).
    cbv [SFcompare SFscaled]. destruct sy; f_equal; symmetry.
    + apply Z.compare_gt_iff. lia.
    + apply Z.compare_lt_iff. lia.
  - destruct (bounded_facts _ _ Vx) as (He & _ & _).
    assert (0 < Z.pos mx * 2 ^ (ex + 1074)) by (apply Z.mul_pos_pos; [lia|apply Z.pow_pos_nonneg; lia]).
    cbv [SFcompare SFscaled]. destruct sx; f_equal; symmetry.
    + apply Z.compare_lt_iff. lia.
    + apply Z.compare_gt_iff. lia.
  - destruct (bounded_facts _ _ Vx) as (Hex & _ & _).
    destruct (bounded_facts _ _ Vy) as (Hey & _ & _).
    assert (0 < Z.pos mx * 2 ^ (ex + 1074)) by (apply Z.mul_pos_pos; [lia|apply Z.pow_pos_nonneg; lia]).
    assert (0 < Z.pos my * 2 ^ (ey + 1074)) by (apply Z.mul_pos_pos; [lia|apply Z.pow_pos_nonneg; lia]).
    pose proof (pos_scaled_compare _ _ _ _ Vx Vy) as Hc.
    unfold SFcompare, SFscaled. destruct sx, sy; f_equal.
    + rewrite Z.compare_opp, <- (pos_scaled_compare _ _ _ _ Vy Vx).
      rewrite (Z.compare_antisym ex ey).
      pose proof (Pos.compare_cont_antisym mx my Eq) as Hm. simpl in Hm. rewrite Hm.
      destruct (ex ?= ey); reflexivity.
    + symmetry. apply Z.compare_lt_iff. lia.
    + symmetry. apply Z.compare_gt_iff. lia.
    + exact Hc.
Qed.

Lemma shiftl_scaled m e :
  -1074 <= e -> Z.shiftl (Z.pos m) e = Z.pos m * 2 ^ (e + 1074) / 2 ^ 1074.
Proof.
  intros He. destruct (Z.le_gt_cases 0 e) as [Hp|Hn].
  - rewrite Z.shiftl_mul_pow2 by lia. rewrite Z.pow_add_r by lia.
    rewrite Z.mul_assoc.
    rewrite Z.div_mul; [reflexivity|]. apply Z.pow_nonzero; lia.
  - rewrite Z.shiftl_div_pow2 by lia.
    replace (2 ^ 1074) with (2 ^ (- e) * 2 ^ (e + 1074))
      by (rewrite <- Z.pow_add_r by lia; f_equal; lia).
    rewrite Z.div_mul_cancel_r; [reflexivity| |]; apply Z.pow_nonzero; lia.
Qed.

Lemma trunc_SF_scaled x :
  SpecFloat.valid_binary prec emax x = true -> SFfinite x = true ->
  trunc_SF x = Some (Z.quot (SFscaled x) (2 ^ 1074)).
Proof.
  destruct x as [s|s| |s m e]; try discriminate; intros V _; simpl in V.
  - reflexivity.
  - destruct (bounded_facts _ _ V) as (He & _ & _).
    assert (0 < 2 ^ 1074) by (apply Z.pow_pos_nonneg; lia).
    assert (0 <= Z.pos m * 2 ^ (e + 1074)).
    { apply Z.mul_nonneg_nonneg; [lia|]. apply Z.pow_nonneg; lia. }
    unfold trunc_SF, SFscaled. rewrite shiftl_scaled by lia.
    destruct s; f_equal.
    + rewrite Z.quot_opp_l by lia. rewrite Z.quot_div_nonneg by lia. reflexivity.
    + rewrite Z.quot_div_nonneg by lia. reflexivity.
Qed.

Lemma binary_round_aux_exact s mz ez :
  Z.pos (digits2_pos mz) = 53 -> -1074 <= ez <= 971 ->
  binary_round_aux prec emax s (Z.pos mz) ez loc_Exact = S754_finite s mz ez.
Proof.
  intros Hd He.
  assert (Hs : shr_fexp prec emax (Z.pos mz) ez loc_Exact
               = ({| shr_m := Z.pos mz; shr_r := false; shr_s := false |}, ez)).
  { unfold shr_fexp, Zdigits2, fexp, SpecFloat.emin, prec, emax. rewrite Hd.
    replace (Z.max (53 + ez - 53) (3 - 1024 - 53) - ez) with 0 by lia.
    reflexivity. }
  unfold binary_round_aux. rewrite Hs. cbn [shr_m loc_of_shr_record round_nearest_even].
  rewrite Hs. cbn [shr_m].
  unfold prec, emax. destruct (Z.leb_spec ez (1024 - 53)); [reflexivity|lia].
Qed.

Lemma binary_normalize_int z :
  0 <= z < 2 ^ 53 ->
  SFfinite (binary_normalize prec emax z 0 false) = true /\
  SFscaled (binary_normalize prec emax z 0 false) = z * 2 ^ 1074.
Proof.
  intros Hz. destruct z as [|m|m]; [split; reflexivity| |lia].
  unfold binary_normalize, binary_round.
  pose proof (digits2_pos_bounds m) as Hd.
  set (d := Z.pos (digits2_pos m)) in *.
  assert (Hd53 : d <= 53).
  { destruct (Z.le_gt_cases d 53) as [|Hgt]; [assumption|].
    assert (2 ^ 53 <= 2 ^ (d - 1)) by (apply Z.pow_le_mono_r; lia). lia. }
  assert (Hf : fexp prec emax (d + 0) = d - 53).
  { unfold fexp, SpecFloat.emin, prec, emax. lia. }
  rewrite Hf. unfold shl_align.
  destruct (d - 53 - 0) as [|k|k] eqn:Ek; try lia.
  - rewrite binary_round_aux_exact by (fold d; lia).
    split; [reflexivity|]. simpl. reflexivity.
  - rewrite binary_round_aux_exact.
    + split; [reflexivity|]. unfold SFscaled.
      rewrite iter_xO_value.
      replace (Z.pos m * 2 ^ Z.pos k * 2 ^ (d - 53 + 1074))
        with (Z.pos m * (2 ^ Z.pos k * 2 ^ (d - 53 + 1074))) by ring.
      rewrite <- Z.pow_add_r by lia. f_equal. f_equal. lia.
    + rewrite iter_xO_digits. fold d in Hd |- *. lia.
    + lia.
Qed.

(** *** The same facts on primitive floats *)

Lemma isfinite_SF x : isfinite x = SFfinite (Prim2SF x).
Proof. reflexivity. Qed.

Lemma isnan_false x : isnan x = false <-> Prim2SF x <> S754_nan.
Proof. unfold isnan. destruct (Prim2SF x); split; congruence. Qed.

Lemma isfinite_not_nan x : isfinite x = true -> isnan x = false.
Proof. unfold isfinite, isnan. destruct (Prim2SF x); simpl; congruence. Qed.

Lemma mul_not_nan x y :
  isfinite x = true -> isfinite y = true -> isnan (x * y) = false.
Proof.
  rewrite !isfinite_SF, isnan_false, FloatAxioms.mul_spec. apply SFmul_not_nan.
Qed.

Lemma add_not_nan x y :
  isfinite x = true -> isnan y = false -> isnan (x + y) = false.
Proof.
  rewrite isfinite_SF, !isnan_false, FloatAxioms.add_spec. apply SFadd_not_nan.
Qed.

(** Clamping a number to [[-b, b]] with the two comparisons of the program. *)
Lemma clamp_sym_bounds b x :
  (0 <=? b)%float = true -> isnan x = false ->
  let r := if (b <? x)%float then b
           else if (x <? - b)%float then (- b)%float else x in
  (- b <=? r)%float = true /\ (r <=? b)%float = true.
Proof.
  intros Hb Hx. rewrite FloatAxioms.leb_spec in Hb.
  change (Prim2SF 0) with (S754_zero false) in Hb.
  apply isnan_false in Hx.
  pose proof (SFleb_not_nan_r _ _ Hb) as Hbn.
  pose proof (SFleb_opp_nonneg _ Hb) as Hob.
  assert (Hobn : SFopp (Prim2SF b) <> S754_nan)
    by (destruct (Prim2SF b); simpl; congruence).
  cbv zeta. rewrite !FloatAxioms.ltb_spec.
  destruct (SFltb (Prim2SF b) (Prim2SF x)) eqn:E1.
  { rewrite !FloatAxioms.leb_spec, FloatAxioms.opp_spec. auto using SFleb_refl. }
  rewrite FloatAxioms.opp_spec.
  destruct (SFltb (Prim2SF x) (SFopp (Prim2SF b))) eqn:E2.
  { rewrite !FloatAxioms.leb_spec, !FloatAxioms.opp_spec. auto using SFleb_refl. }
  rewrite !FloatAxioms.leb_spec, FloatAxioms.opp_spec. split.
  - now apply SFltb_false_leb.
  - now apply SFltb_false_leb.
Qed.

Lemma between_isfinite b x :
  isfinite b = true -> (- b <=? x)%float = true -> (x <=? b)%float = true ->
  isfinite x = true.
Proof.
  rewrite !isfinite_SF, !FloatAxioms.leb_spec, FloatAxioms.opp_spec.
  apply SFleb_between_finite.
Qed.

(** *** Conversions between [int] and [double] *)

Lemma SFopp_finite x : SFfinite (SFopp x) = SFfinite x.
Proof. destruct x; reflexivity. Qed.

Lemma SFopp_scaled x : SFscaled (SFopp x) = - SFscaled x.
Proof. destruct x as [s|s| |[|] m e]; simpl; lia. Qed.

Lemma of_int_SF n :
  is_int n ->
  SFfinite (Prim2SF (of_int n)) = true /\
  SFscaled (Prim2SF (of_int n)) = n * 2 ^ 1074.
Proof.
  unfold is_int, int_min, int_max, of_int. intros Hn.
  assert (Hw : forall z, 0 <= z <= 2147483648 -> to_Z (Uint63.of_Z z) = z).
  { intros z Hz. rewrite Uint63.of_Z_spec. apply Z.mod_small.
    change wB with 9223372036854775808. lia. }
  assert (Hb : forall z, 0 <= z <= 2147483648 -> 0 <= z < 2 ^ 53).
  { intros z Hz. change (2 ^ 53) with 9007199254740992. lia. }
  destruct (Z.ltb_spec n 0).
  - rewrite FloatAxioms.opp_spec, of_uint63_spec, Hw by lia.
    rewrite SFopp_finite, SFopp_scaled.
    destruct (binary_normalize_int (- n)) as [-> ->]; [apply Hb; lia|].
    split; [reflexivity|ring].
  - rewrite of_uint63_spec, Hw by lia.
    apply binary_normalize_int, Hb. lia.
Qed.

Lemma to_int_of_int n : is_int n -> to_int (of_int n) = Ok n.
Proof.
  intros Hn. destruct (of_int_SF n Hn) as [Hf Hs].
  unfold to_int.
  rewrite (trunc_SF_scaled _ (Prim2SF_valid _) Hf), Hs.
  rewrite Z.quot_mul by (apply Z.pow_nonzero; lia).
  unfold is_int in Hn.
  destruct (Z.leb_spec int_min n), (Z.leb_spec n int_max); simpl; try lia.
  reflexivity.
Qed.

(** The integer part of a number between two ints lies between them. *)
Lemma to_int_between lo hi x :
  is_int lo -> is_int hi -> isnan x = false ->
  (of_int hi <? x)%float = false -> (x <? of_int lo)%float = false ->
  exists p, to_int x = Ok p /\ lo <= p <= hi.
Proof.
  intros Hlo Hhi Hx. rewrite !FloatAxioms.ltb_spec. intros H1 H2.
  apply isnan_false in Hx.
  destruct (of_int_SF lo Hlo) as [Flo Slo], (of_int_SF hi Hhi) as [Fhi Shi].
  pose proof (Prim2SF_valid x) as Vx.
  pose proof (Prim2SF_valid (of_int lo)) as Vlo.
  pose proof (Prim2SF_valid (of_int hi)) as Vhi.
  assert (Fx : SFfinite (Prim2SF x) = true).
  { destruct (Prim2SF x) as [s|[|]| |s m e]; try reflexivity; try congruence.
    - destruct (Prim2SF (of_int lo)) as [?|?| |[|] ? ?]; discriminate.
    - destruct (Prim2SF (of_int hi)) as [?|?| |[|] ? ?]; discriminate. }
  unfold SFltb in H1, H2.
  rewrite SFcompare_scaled in H1, H2 by assumption.
  rewrite Slo in H2. rewrite Shi in H1.
  assert (K : 0 < 2 ^ 1074) by (apply Z.pow_pos_nonneg; lia).
  assert (Hle : SFscaled (Prim2SF x) <= hi * 2 ^ 1074).
  { destruct (Z.compare_spec (hi * 2 ^ 1074) (SFscaled (Prim2SF x))); (lia || discriminate). }
  assert (Hge : lo * 2 ^ 1074 <= SFscaled (Prim2SF x)).
  { destruct (Z.compare_spec (SFscaled (Prim2SF x)) (lo * 2 ^ 1074)); (lia || discriminate). }
  apply (Z.quot_le_mono _ _ (2 ^ 1074)) in Hle, Hge; try lia.
  rewrite Z.quot_mul in Hle, Hge by lia.
  exists (SFscaled (Prim2SF x) ÷ 2 ^ 1074).
  unfold to_int. rewrite (trunc_SF_scaled _ Vx Fx).
  unfold is_int in Hlo, Hhi.
  destruct (Z.leb_spec int_min (SFscaled (Prim2SF x) ÷ 2 ^ 1074)),
           (Z.leb_spec (SFscaled (Prim2SF x) ÷ 2 ^ 1074) int_max); simpl; try lia.
  split; [reflexivity|lia].
Qed.

End DoubleFacts.

Import DoubleFacts.

(** ** Facts about the PID step *)

Lemma new_integral_within c error timediff s :
  isfinite (imax c) = true -> (0 <=? imax c)%float = true ->
  isfinite (integral s) = true ->
  isfinite error = true -> isfinite timediff = true ->
  within_imax c (fst (calculate_new_pwm c error timediff s)) = true.
Proof.
  intros Hf H0 Hs He Ht. unfold within_imax, calculate_new_pwm, new_integral.
  cbn [fst integral].
  apply andb_true_iff.
  apply (clamp_sym_bounds (imax c) (integral s + error * timediff) H0).
  apply add_not_nan; [assumption|]. now apply mul_not_nan.
Qed.

Lemma within_imax_finite c s :
  isfinite (imax c) = true -> within_imax c s = true -> isfinite (integral s) = true.
Proof.
  unfold within_imax. rewrite andb_true_iff. intros Hf [H1 H2].
  eapply between_isfinite; eassumption.
Qed.

Lemma pid_run_within c steps : forall s,
  isfinite (imax c) = true -> (0 <=? imax c)%float = true ->
  isfinite (integral s) = true ->
  forallb valid_step steps = true ->
  forallb (fun r => within_imax c (fst r)) (pid_run c s steps) = true.
Proof.
  induction steps as [|[error timediff] steps IH]; intros s Hf H0 Hs Hv; [reflexivity|].
  simpl in Hv. unfold valid_step in Hv at 1. simpl in Hv.
  rewrite !andb_true_iff in Hv. destruct Hv as [[[He Ht] _] Hv].
  pose proof (new_integral_within c error timediff s Hf H0 Hs He Ht) as Hw.
  cbn [pid_run forallb]. rewrite Hw. cbn [andb].
  apply IH; try assumption. now apply (within_imax_finite c).
Qed.

Lemma clamp_pwm_in_range c x :
  is_int (pwmmin c) -> pwmmin c <= pwmmax -> isnan x = false ->
  pwm_in_range c (to_int (clamp_pwm c x)).
Proof.
  intros Hi Hle Hx. unfold pwm_in_range, clamp_pwm.
  assert (Hmax : is_int pwmmax) by (unfold is_int, int_min, int_max, pwmmax; lia).
  destruct (of_int pwmmax <? x)%float eqn:E1.
  { exists pwmmax. rewrite to_int_of_int by assumption. split; [reflexivity|lia]. }
  destruct (x <? of_int (pwmmin c))%float eqn:E2.
  { exists (pwmmin c). rewrite to_int_of_int by assumption. split; [reflexivity|lia]. }
  apply to_int_between; assumption.
Qed.

Lemma to_int_fault x f : to_int x = Fault f -> f = CastUndefined.
Proof.
  unfold to_int. destruct (trunc_SF _); [destruct (_ && _)|]; congruence.
Qed.

(** ** Facts about lists *)

Lemma sumZ_app l1 l2 : sumZ (l1 ++ l2) = sumZ l1 + sumZ l2.
Proof. induction l1 as [|a l1 IH]; simpl; lia. Qed.

Lemma sumZ_replicate_0 n : sumZ (replicate n 0) = 0.
Proof. induction n; simpl; lia. Qed.

Lemma sumZ_insert l i x v :
  l !! i = Some v -> sumZ (<[i:=x]> l) = sumZ l - v + x.
Proof.
  revert i. induction l as [|a l IH]; intros [|i] H; simpl in *; try discriminate.
  - injection H as ->. lia.
  - rewrite (IH i H). lia.
Qed.

Lemma sumZ_bound B l :
  Forall (fun v => - B <= v <= B) l ->
  - (Z.of_nat (length l) * B) <= sumZ l <= Z.of_nat (length l) * B.
Proof.
  induction 1 as [|a l Ha _ IH]; simpl length; simpl sumZ; [lia|].
  rewrite Nat2Z.inj_succ. lia.
Qed.

Lemma rotate_step {A} (l : list A) i x :
  (i < length l)%nat ->
  rotate (S i) (<[i:=x]> l) = drop 1 (rotate i l) ++ [x].
Proof.
  intros Hi. unfold rotate. rewrite length_insert.
  rewrite (Nat.mod_small i) by lia.
  destruct (lookup_lt_is_Some_2 l i Hi) as [v Hv].
  assert (Hd : drop i l = v :: drop (S i) l) by (now apply drop_S).
  rewrite Hd. simpl drop. rewrite drop_0.
  destruct (decide (S i = length l)) as [E|E].
  - rewrite E, Nat.Div0.mod_same. simpl.
    rewrite app_nil_r, insert_take_drop by lia.
    rewrite drop_0, (drop_ge l (length l)), (drop_ge l (S i)) by lia.
    reflexivity.
  - rewrite (Nat.mod_small (S i)) by lia.
    rewrite drop_insert_lt by lia.
    rewrite take_insert_lt by lia.
    rewrite (take_S_r l i v Hv).
    rewrite insert_app_r_alt by (rewrite length_take; lia).
    rewrite length_take, Nat.min_l, Nat.sub_diag by lia. simpl.
    now rewrite <- app_assoc.
Qed.

Lemma foldr_max_acc l : forall m a,
  foldr Z.max (Z.max m a) l = Z.max a (foldr Z.max m l).
Proof. induction l as [|b l IH]; intros m a; simpl; [lia|]. rewrite IH. lia. Qed.

Lemma max_of_nonneg l : 0 <= max_of l.
Proof. unfold max_of. induction l; simpl; lia. Qed.

Lemma max_of_upper l : Forall (fun t => t <= max_of l) l.
Proof.
  induction l as [|a l IH]; constructor; unfold max_of in *; simpl; [lia|].
  eapply Forall_impl; [exact IH|]. simpl. intros; lia.
Qed.


(** ** Facts about the rolling buffer *)

Lemma rolling_inv_init c B :
  0 <= B -> 1 <= cputemp_max_values c -> rolling_inv c B [] (rolling_init c).
Proof.
  intros HB HN. unfold rolling_inv, rolling_init; simpl.
  rewrite length_replicate, app_nil_r, rotate_replicate, sumZ_replicate_0.
  repeat split; try lia.
  apply Forall_replicate. lia.
Qed.

Lemma rolling_insert_inv c B samples r x :
  0 <= B -> 1 <= cputemp_max_values c <= int_max ->
  cputemp_max_values c * B <= int_max ->
  rolling_inv c B samples r -> - B <= x <= B ->
  exists r',
    rolling_insert c r x = Ok (r', cputemp_sum r' ÷ cputemp_count r') /\
    rolling_inv c B (samples ++ [x]) r'.
Proof.
  intros HB [HN HNmax] HNB (Hlen & Hcnt & Hidx & Hrot & Hsum & Hall) Hx.
  destruct r as [l index count sum]; simpl in *.
  set (N := cputemp_max_values c) in *.
  set (k := Z.of_nat (length samples)) in *.
  assert (Hk : 0 <= k) by lia.
  pose proof (Z.mod_pos_bound k N ltac:(lia)) as Hi.
  rewrite <- Hidx in Hi.
  set (i := Z.to_nat index) in *.
  assert (Hil : (i < length l)%nat) by lia.
  destruct (lookup_lt_is_Some_2 l i Hil) as [vo Hvo].
  assert (Hvo_range : - B <= vo <= B).
  { eapply (proj1 (Forall_lookup _ _) Hall); eauto. }
  (* the slot written is empty as long as the buffer is not full *)
  assert (Hvo0 : k < N -> vo = 0 /\ index = k).
  { intros Hlt. assert (index = k) by (rewrite Hidx; apply Z.mod_small; lia).
    split; [|assumption].
    assert (H0 : rotate i l !! 0%nat = Some vo).
    { unfold rotate. rewrite (Nat.mod_small i) by lia.
      rewrite lookup_app_l by (rewrite length_drop; lia).
      rewrite lookup_drop, Nat.add_0_r. exact Hvo. }
    rewrite Hrot, lookup_drop, Nat.add_0_r in H0.
    rewrite lookup_app_l in H0 by (rewrite length_replicate; lia).
    apply lookup_replicate_1 in H0. now destruct H0. }
  (* sums stay within int *)
  assert (Hb : forall l', length l' = Z.to_nat N -> Forall (fun v => - B <= v <= B) l' ->
                          is_int (sumZ l')).
  { intros l' Hl' Hf. apply (is_int_bound B N); try lia.
    pose proof (sumZ_bound B l' Hf) as Hs. rewrite Hl', Z2Nat.id in Hs; lia. }
  assert (Hl0 : is_int (sum - vo)).
  { replace (sum - vo) with (sumZ (<[i:=0]> l))
      by (rewrite (sumZ_insert l i 0 vo Hvo); lia).
    apply Hb; [rewrite length_insert; lia|]. apply Forall_insert; [assumption|lia]. }
  assert (Hall' : Forall (fun v => - B <= v <= B) (<[i:=x]> l))
    by (apply Forall_insert; assumption).
  assert (Hl1 : is_int (sum - vo + x)).
  { replace (sum - vo + x) with (sumZ (<[i:=x]> l))
      by (rewrite (sumZ_insert l i x vo Hvo); lia).
    apply Hb; [rewrite length_insert; lia|assumption]. }
  set (count' := Z.min (k + 1) N).
  assert (Hc' : 1 <= count' <= N) by (unfold count'; lia).
  assert (Hset : array_set l index x = Ok (<[i:=x]> l)).
  { unfold array_set.
    destruct (Z.leb_spec 0 index), (Z.ltb_spec index (Z.of_nat (length l)));
      simpl; try lia. reflexivity. }
  assert (Hrem : int_rem (wrap_int (index + 1)) N = Ok ((k + 1) mod N)).
  { unfold int_rem. destruct (Z.eqb_spec N 0); [lia|].
    rewrite (wrap_int_id (index + 1)) by (unfold is_int, int_min, int_max in *; lia).
    rewrite Z.rem_mod_nonneg by lia.
    pose proof (Z.mod_pos_bound (index + 1) N ltac:(lia)).
    rewrite wrap_int_id by (unfold is_int, int_min, int_max in *; lia).
    rewrite Hidx, Z.add_mod_idemp_l by lia. reflexivity. }
  assert (Hdiv : int_div (sum - vo + x) count' = Ok ((sum - vo + x) ÷ count')).
  { unfold int_div. destruct (Z.eqb_spec count' 0); [lia|].
    rewrite wrap_int_id by (apply quot_bound; [lia|assumption]). reflexivity. }
  exists {| cputemp_values := <[i:=x]> l;
            cputemp_index := (k + 1) mod N;
            cputemp_count := count';
            cputemp_sum := sum - vo + x |}.
  split.
  - unfold rolling_insert. cbn [cputemp_count cputemp_values cputemp_index cputemp_sum].
    fold N. destruct (Z.ltb_spec count N) as [Hlt|Hge].
    + destruct (Hvo0 ltac:(lia)) as [Hv0 Hik].
      replace count with index by lia. rewrite Hset.
      cbn [mbind result_bind mret result_ret cputemp_count cputemp_values cputemp_index cputemp_sum].
      rewrite Hrem. cbn [mbind result_bind].
      rewrite (wrap_int_id (index + 1)) by (unfold is_int, int_min, int_max in *; lia).
      replace (wrap_int (sum + x)) with (sum - vo + x)
        by (rewrite wrap_int_id; [lia|replace (sum + x) with (sum - vo + x) by lia; assumption]).
      replace (index + 1) with count' by (unfold count'; lia).
      rewrite Hdiv. reflexivity.
    + unfold array_get. destruct (Z.ltb_spec index 0); [lia|].
      fold i. rewrite Hvo.
      cbn [mbind result_bind mret result_ret]. rewrite Hset.
      cbn [mbind result_bind mret result_ret cputemp_count cputemp_values cputemp_index cputemp_sum].
      rewrite (wrap_int_id (sum - vo)) by assumption.
      rewrite (wrap_int_id (sum - vo + x)) by assumption.
      replace count with count' by (unfold count'; lia).
      rewrite Hrem, Hdiv. reflexivity.
  - unfold rolling_inv; cbn [cputemp_count cputemp_values cputemp_index cputemp_sum].
    fold N. rewrite length_app, length_insert. simpl length.
    replace (Z.of_nat (length samples + 1)) with (k + 1) by lia.
    repeat split; try assumption; try reflexivity.
    + replace (Z.to_nat ((k + 1) mod N)) with (S i mod length l)%nat.
      2:{ apply Nat2Z.inj.
          rewrite Nat2Z.inj_mod, Nat2Z.inj_succ, Hlen.
          unfold i. rewrite !Z2Nat.id by (try apply Z.mod_pos_bound; lia).
          rewrite Hidx, <- Z.add_1_r, Z.add_mod_idemp_l by lia. reflexivity. }
      replace (rotate (S i mod length l) (<[i:=x]> l)) with (rotate (S i) (<[i:=x]> l)).
      2:{ unfold rotate. rewrite length_insert, Nat.Div0.mod_mod. reflexivity. }
      rewrite rotate_step, Hrot by assumption.
      rewrite drop_drop, (app_assoc _ samples [x]), (drop_app _ [x]).
      rewrite length_app, length_replicate.
      replace (length samples + 1 - (Z.to_nat N + length samples))%nat with 0%nat by lia.
      reflexivity.
    + rewrite (sumZ_insert l i x vo Hvo), Hsum. reflexivity.
Qed.

Lemma rolling_inserts_inv c B : forall xs done r avg,
  0 <= B -> 1 <= cputemp_max_values c <= int_max ->
  cputemp_max_values c * B <= int_max ->
  rolling_inv c B done r ->
  Forall (fun x => - B <= x <= B) xs ->
  exists r' avg',
    rolling_inserts c r avg xs = Ok (r', avg') /\
    rolling_inv c B (done ++ xs) r' /\
    (xs <> [] -> avg' = cputemp_sum r' ÷ cputemp_count r').
Proof.
  induction xs as [|x xs IH]; intros done r avg HB HN HNB Hinv Hxs.
  - exists r, avg. rewrite app_nil_r. simpl.
    split; [reflexivity|]. split; [assumption|congruence].
  - inversion Hxs as [|? ? Hx Hxs']; subst.
    destruct (rolling_insert_inv c B done r x HB HN HNB Hinv Hx) as (r1 & Hins & Hinv1).
    destruct (IH (done ++ [x]) r1 (cputemp_sum r1 ÷ cputemp_count r1)
                 HB HN HNB Hinv1 Hxs') as (r' & avg' & Hrun & Hinv' & Havg).
    exists r', avg'. simpl. rewrite Hins. simpl.
    rewrite <- app_assoc in Hinv'.
    split; [assumption|]. split; [assumption|].
    intros _. destruct xs as [|y ys].
    + simpl in Hrun. now injection Hrun as <- <-.
    + apply Havg. discriminate.
Qed.

(** What the invariant says of a buffer that is not yet full. *)
Lemma rolling_inv_filling c B samples r :
  1 <= cputemp_max_values c ->
  rolling_inv c B samples r ->
  Z.of_nat (length samples) <= cputemp_max_values c ->
  take (length samples) (cputemp_values r) = samples /\
  sumZ (drop (length samples) (cputemp_values r)) = 0.
Proof.
  intros HN (Hlen & Hcnt & Hidx & Hrot & Hsum & Hall) Hk.
  destruct r as [l index count sum]; simpl in *.
  set (N := cputemp_max_values c) in *.
  destruct (Z.eq_dec (Z.of_nat (length samples)) N) as [E|E].
  - rewrite E, Z.mod_same in Hidx by lia. subst index.
    unfold rotate in Hrot. simpl in Hrot. rewrite Nat.Div0.mod_0_l in Hrot.
    simpl in Hrot. rewrite drop_0, app_nil_r in Hrot.
    rewrite drop_app_length' in Hrot by (rewrite length_replicate; lia).
    subst l. rewrite take_ge, drop_ge by lia. split; reflexivity.
  - rewrite Z.mod_small in Hidx by lia. subst index.
    rewrite Nat2Z.id in Hrot. unfold rotate in Hrot.
    rewrite Nat.mod_small in Hrot by lia.
    rewrite drop_app_le, drop_replicate in Hrot by (rewrite length_replicate; lia).
    apply app_inj_1 in Hrot as [Hd Ht];
      [|rewrite length_drop, length_replicate; lia].
    rewrite Hd, Ht, sumZ_replicate_0. split; reflexivity.
Qed.

Lemma rolling_ok_init c : 1 <= cputemp_max_values c -> rolling_ok c (rolling_init c).
Proof.
  intros H. unfold rolling_ok, rolling_init. simpl. rewrite length_replicate. lia.
Qed.

Lemma rolling_insert_ok c r x :
  1 <= cputemp_max_values c <= int_max -> rolling_ok c r ->
  exists r' avg,
    rolling_insert c r x = Ok (r', avg) /\ rolling_ok c r' /\
    is_int avg /\ 1 <= cputemp_count r'.
Proof.
  intros [HN HNmax] (Hlen & Hi & Hc).
  destruct r as [l index count sum]; simpl in *.
  set (N := cputemp_max_values c) in *.
  assert (Hset : forall j, 0 <= j < N -> array_set l j x = Ok (<[Z.to_nat j:=x]> l)).
  { intros j Hj. unfold array_set.
    destruct (Z.leb_spec 0 j), (Z.ltb_spec j (Z.of_nat (length l))); simpl; try lia.
    reflexivity. }
  assert (Hrem : exists index', int_rem (wrap_int (index + 1)) N = Ok index' /\ 0 <= index' < N).
  { unfold int_rem. destruct (Z.eqb_spec N 0); [lia|].
    rewrite (wrap_int_id (index + 1)) by (unfold is_int, int_min, int_max in *; lia).
    rewrite Z.rem_mod_nonneg by lia.
    pose proof (Z.mod_pos_bound (index + 1) N ltac:(lia)).
    rewrite wrap_int_id by (unfold is_int, int_min, int_max in *; lia). eauto. }
  destruct Hrem as (index' & Hrem & Hi').
  unfold rolling_insert. cbn [cputemp_count cputemp_values cputemp_index cputemp_sum].
  fold N. destruct (Z.ltb_spec count N) as [Hlt|Hge].
  - rewrite Hset by lia.
    cbn [mbind result_bind mret result_ret cputemp_count cputemp_values cputemp_index cputemp_sum].
    rewrite Hrem. cbn [mbind result_bind].
    rewrite (wrap_int_id (count + 1)) by (unfold is_int, int_min, int_max in *; lia).
    unfold int_div. destruct (Z.eqb_spec (count + 1) 0); [lia|].
    cbn [mbind result_bind mret result_ret].
    eexists _, _. split; [reflexivity|].
    unfold rolling_ok. cbn [cputemp_count cputemp_values cputemp_index cputemp_sum].
    rewrite length_insert. fold N. repeat split; try lia. apply wrap_int_range. apply wrap_int_range.
  - unfold array_get. destruct (Z.ltb_spec index 0); [lia|].
    destruct (lookup_lt_is_Some_2 l (Z.to_nat index) ltac:(lia)) as [vo ->].
    cbn [mbind result_bind mret result_ret]. rewrite Hset by lia.
    cbn [mbind result_bind mret result_ret cputemp_count cputemp_values cputemp_index cputemp_sum].
    rewrite Hrem. cbn [mbind result_bind].
    unfold int_div. destruct (Z.eqb_spec count 0); [lia|].
    cbn [mbind result_bind mret result_ret].
    eexists _, _. split; [reflexivity|].
    unfold rolling_ok. cbn [cputemp_count cputemp_values cputemp_index cputemp_sum].
    rewrite length_insert. fold N. repeat split; try lia. apply wrap_int_range. apply wrap_int_range.
Qed.

Lemma rolling_sane_init c : rolling_sane c (rolling_init c).
Proof. unfold rolling_sane, rolling_init. simpl. rewrite length_replicate. lia. Qed.

Lemma rolling_insert_sane c r x :
  is_int (cputemp_max_values c) -> rolling_sane c r ->
  match rolling_insert c r x with
  | Ok (r', _) => rolling_sane c r' /\ 1 <= cputemp_count r'
  | Fault f => f <> DivByZero
  end.
Proof.
  intros HN [Hlen Hc].
  destruct r as [l index count sum]; simpl in *.
  set (N := cputemp_max_values c) in *.
  unfold rolling_insert. cbn [cputemp_count cputemp_values cputemp_index cputemp_sum].
  fold N. destruct (Z.ltb_spec count N) as [Hlt|Hge].
  - destruct (array_set l count x) as [l'|f] eqn:Hset;
      cbn [mbind result_bind mret result_ret cputemp_count cputemp_values cputemp_index cputemp_sum];
      [|unfold array_set in Hset; destruct (_ && _); congruence].
    assert (length l' = length l).
    { unfold array_set in Hset. destruct (_ && _); [|discriminate].
      injection Hset as <-. apply length_insert. }
    rewrite (wrap_int_id (count + 1)) by (unfold is_int, int_min, int_max in *; lia).
    unfold int_rem. destruct (N =? 0); cbn [mbind result_bind]; [discriminate|].
    unfold int_div. destruct (Z.eqb_spec (count + 1) 0); [lia|].
    cbn [mbind result_bind mret result_ret].
    unfold rolling_sane. cbn [cputemp_count cputemp_values]. fold N. lia.
  - destruct (array_get l index) as [old|f] eqn:Hget;
      cbn [mbind result_bind];
      [|unfold array_get in Hget; destruct (index <? 0); [congruence|];
        destruct (l !! Z.to_nat index); congruence].
    assert (1 <= N).
    { unfold array_get in Hget. destruct (Z.ltb_spec index 0); [discriminate|].
      destruct (l !! Z.to_nat index) eqn:E; [|discriminate].
      apply lookup_lt_Some in E. lia. }
    destruct (array_set l index x) as [l'|f] eqn:Hset;
      cbn [mbind result_bind mret result_ret cputemp_count cputemp_values cputemp_index cputemp_sum];
      [|unfold array_set in Hset; destruct (_ && _); congruence].
    assert (length l' = length l).
    { unfold array_set in Hset. destruct (_ && _); [|discriminate].
      injection Hset as <-. apply length_insert. }
    unfold int_rem. destruct (N =? 0); cbn [mbind result_bind]; [discriminate|].
    unfold int_div. destruct (Z.eqb_spec count 0); [lia|].
    cbn [mbind result_bind mret result_ret].
    unfold rolling_sane. cbn [cputemp_count cputemp_values]. fold N. lia.
Qed.

(** ** Facts about the probes *)

Lemma fold_poll_drive pipes : forall t m,
  snd (fold_left poll_drive pipes (t, m)) = foldr Z.max m (drive_temps t pipes).
Proof.
  induction pipes as [|p pipes IH]; intros t m; [reflexivity|].
  destruct p; simpl; rewrite IH.
  - reflexivity.
  - rewrite <- foldr_max_acc. f_equal. destruct (Z.gtb_spec t m); lia.
  - rewrite <- foldr_max_acc. f_equal. destruct (Z.gtb_spec n m); lia.
Qed.

Lemma poll_drives_max t pipes : poll_drives t pipes = max_of (drive_temps t pipes).
Proof. unfold poll_drives. apply fold_poll_drive. Qed.

Lemma drive_temps_reported pipes : forall t,
  Z.max t (max_of (drive_temps t pipes)) = Z.max t (max_of (reported pipes)).
Proof.
  induction pipes as [|p pipes IH]; intros t; [reflexivity|].
  destruct p; simpl.
  - apply IH.
  - change (Z.max t (Z.max t (max_of (drive_temps t pipes)))
            = Z.max t (max_of (reported pipes))).
    rewrite <- IH. lia.
  - change (Z.max t (Z.max n (max_of (drive_temps n pipes)))
            = Z.max t (Z.max n (max_of (reported pipes)))).
    rewrite IH. reflexivity.
Qed.

(** ** Facts about the loop *)

Lemma poll_frame c st inp st1 :
  poll c st inp = Ok st1 ->
  pid st1 = pid st /\ pwm st1 = pwm st /\ lasttime st1 = lasttime st /\
  ecbar st1 = ecbar st.
Proof.
  unfold poll. destruct (poll_cpu _ _ _ _ _ _) as [[[r avg] m]|]; [|discriminate].
  intros H. injection H as <-. repeat split.
Qed.

Lemma control_events c st t st' tr :
  control c st t = Ok (st', tr) ->
  ecbar st' = ecbar st /\ roll st' = roll st /\
  (tr = [Sleep (interval c)] \/
   exists v, 0 <= v < 256 /\ tr = pwm_writes (ecbar st) v ++ [Sleep (interval c)]).
Proof.
  unfold control.
  destruct (time_diff t (lasttime st) =? 0)%float.
  - intros H. injection H as <- <-. auto.
  - destruct (calculate_new_pwm _ _ _ _) as [pid' [newPWM|f]]; [|discriminate].
    intros H. injection H as <- <-. cbn [ecbar roll].
    split; [reflexivity|]. split; [reflexivity|]. right.
    exists (wrap_u8 newPWM). split; [apply wrap_u8_range|].
    unfold pwm_writes. now rewrite <- app_assoc.
Qed.

Lemma iteration_events c st inp st' tr :
  iteration c st inp = Ok (st', tr) ->
  ecbar st' = ecbar st /\
  (tr = [Sleep (interval c)] \/
   exists v, 0 <= v < 256 /\ tr = pwm_writes (ecbar st) v ++ [Sleep (interval c)]).
Proof.
  unfold iteration. destruct (poll c st inp) as [st1|] eqn:Hp; [|discriminate].
  cbn [mbind result_bind]. intros Hc.
  destruct (poll_frame _ _ _ _ Hp) as (_ & _ & _ & He).
  destruct (control_events _ _ _ _ _ Hc) as (He' & _ & Htr).
  rewrite He in *. auto.
Qed.

Lemma loop_events c inps : forall st,
  iterations_trace (ecbar st) (interval c) (fst (loop c st inps)).
Proof.
  induction inps as [|inp inps IH]; intros st; cbn [loop].
  - constructor.
  - destruct (iteration c st inp) as [[st' tr]|f] eqn:Hi; [|constructor].
    destruct (iteration_events _ _ _ _ _ Hi) as [He [->|(v & Hv & ->)]].
    + specialize (IH st'). rewrite He in IH.
      destruct (loop c st' inps) as [tr' r]. simpl in *. now constructor.
    + specialize (IH st'). rewrite He in IH.
      destruct (loop c st' inps) as [tr' r]. cbn [fst] in *.
      rewrite <- app_assoc. simpl app at 2. now constructor.
Qed.

Lemma iteration_rolling_ok c st inp st' tr :
  1 <= cputemp_max_values c <= int_max -> rolling_ok c (roll st) ->
  iteration c st inp = Ok (st', tr) -> rolling_ok c (roll st').
Proof.
  intros HN Hok. unfold iteration.
  destruct (poll c st inp) as [st1|] eqn:Hp; [|discriminate].
  cbn [mbind result_bind]. intros Hc.
  destruct (control_events _ _ _ _ _ Hc) as (_ & -> & _).
  unfold poll, poll_cpu in Hp.
  destruct (cpu_pipe inp) as [| |n].
  - injection Hp as <-. exact Hok.
  - destruct (rolling_insert_ok c (roll st) (fgets (cputempstring0 inp) NoLine) HN Hok)
      as (r' & avg & Hins & Hok' & _).
    rewrite Hins in Hp. injection Hp as <-. exact Hok'.
  - destruct (rolling_insert_ok c (roll st) (fgets (cputempstring0 inp) (Line n)) HN Hok)
      as (r' & avg & Hins & Hok' & _).
    rewrite Hins in Hp. injection Hp as <-. exact Hok'.
Qed.

Lemma iteration_sane c st inp :
  is_int (cputemp_max_values c) -> rolling_sane c (roll st) ->
  match iteration c st inp with
  | Ok (st', _) => rolling_sane c (roll st')
  | Fault f => f <> DivByZero
  end.
Proof.
  intros HN Hs. unfold iteration.
  assert (Hp : match poll c st inp with
               | Ok st1 => rolling_sane c (roll st1)
               | Fault f => f <> DivByZero
               end).
  { unfold poll, poll_cpu.
    destruct (cpu_pipe inp); cbn [mbind result_bind mret result_ret roll]; try assumption.
    - pose proof (rolling_insert_sane c (roll st) (fgets (cputempstring0 inp) NoLine) HN Hs) as H.
      destruct (rolling_insert _ _ _) as [[r' avg]|f];
        cbn [mbind result_bind mret result_ret roll]; tauto.
    - pose proof (rolling_insert_sane c (roll st) (fgets (cputempstring0 inp) (Line n)) HN Hs) as H.
      destruct (rolling_insert _ _ _) as [[r' avg]|f];
        cbn [mbind result_bind mret result_ret roll]; tauto. }
  destruct (poll c st inp) as [st1|f]; cbn [mbind result_bind]; [|assumption].
  destruct (control c st1 (curtime inp)) as [[st' tr]|f] eqn:Hc.
  - destruct (control_events _ _ _ _ _ Hc) as (_ & -> & _). assumption.
  - unfold control in Hc.
    destruct (_ =? _)%float; [discriminate|].
    destruct (calculate_new_pwm _ _ _ _) as [pid' [newPWM|f']] eqn:Hcalc;
      [discriminate|].
    cbn [mbind result_bind] in Hc. injection Hc as <-.
    unfold calculate_new_pwm in Hcalc. injection Hcalc as _ Hf.
    rewrite (to_int_fault _ _ Hf). discriminate.
Qed.

Lemma loop_sane c inps : forall st,
  is_int (cputemp_max_values c) -> rolling_sane c (roll st) ->
  is_div_by_zero (snd (loop c st inps)) = false.
Proof.
  induction inps as [|inp inps IH]; intros st HN Hs; cbn [loop]; [reflexivity|].
  pose proof (iteration_sane c st inp HN Hs) as Hi.
  destruct (iteration c st inp) as [[st' tr]|f].
  - specialize (IH st' HN Hi). destruct (loop c st' inps). exact IH.
  - destruct f; simpl; congruence.
Qed.

(** The configuration is read field by field, and [overheat] by nobody. *)
Ltac config_fields :=
  unfold with_overheat;
  cbn [debug setpoint pwminit interval overheat pwmmin kp ki imax kd cputemp_max_values].

Lemma new_integral_overheat v c e t s :
  new_integral (with_overheat v c) e t s = new_integral c e t s.
Proof. unfold new_integral. config_fields. reflexivity. Qed.

Lemma calculate_new_pwm_overheat v c e t s :
  calculate_new_pwm (with_overheat v c) e t s = calculate_new_pwm c e t s.
Proof.
  unfold calculate_new_pwm, newPWM_double, clamp_pwm.
  rewrite new_integral_overheat. config_fields. reflexivity.
Qed.

Lemma rolling_insert_overheat v c r x :
  rolling_insert (with_overheat v c) r x = rolling_insert c r x.
Proof. unfold rolling_insert. config_fields. reflexivity. Qed.

Lemma poll_overheat v c st inp : poll (with_overheat v c) st inp = poll c st inp.
Proof.
  unfold poll, poll_cpu. destruct (cpu_pipe inp);
    rewrite ?rolling_insert_overheat; reflexivity.
Qed.

Lemma control_overheat v c st t : control (with_overheat v c) st t = control c st t.
Proof.
  unfold control. rewrite calculate_new_pwm_overheat. config_fields. reflexivity.
Qed.

Lemma iteration_overheat v c st inp :
  iteration (with_overheat v c) st inp = iteration c st inp.
Proof.
  unfold iteration. rewrite poll_overheat.
  destruct (poll c st inp); cbn [mbind result_bind];
    [apply control_overheat|reflexivity].
Qed.

Lemma startup_overheat v c hi lo now :
  startup (with_overheat v c) hi lo now = startup c hi lo now.
Proof. unfold startup, rolling_init. config_fields. reflexivity. Qed.

Lemma loop_overheat v c inps : forall st,
  loop (with_overheat v c) st inps = loop c st inps.
Proof.
  induction inps as [|inp inps IH]; intros st; [reflexivity|].
  cbn [loop]. rewrite iteration_overheat.
  destruct (iteration c st inp) as [[st' tr]|f]; [|reflexivity].
  now rewrite IH.
Qed.
(** ** The claims *)

(** *** C1: the PWM value returned by the PID step *)

(** Scenario 1 of the specification, on the function alone. *)
Example pid_default_step :
  calculate_new_pwm default_config 3 10 pid_init
  = ({| integral := 30%float; prev_error := 3%float |}, Ok 255).
Proof. vm_compute. reflexivity. Qed.

(** C1, at the input where the code departs from it.  With the finite gains
    [--kp=1e308 --ki=-1e308] and the error 3 and the ten seconds of scenario
    1, the proportional term overflows to +infinity and the integral term to
    -infinity, their sum is NaN, both comparisons of lines 146-147 are false
    and the conversion to [int] of line 149 is undefined: the step returns no
    value within [[pwmmin, pwmmax]], and the run of [main] ends there. *)
Theorem pwm_undefined_when_sum_is_nan :
  isfinite (kp overflowing_gains) = true /\
  isfinite (ki overflowing_gains) = true /\
  valid_step (3, 10)%float = true /\
  (kp overflowing_gains * 3)%float = infinity /\
  (ki overflowing_gains * new_integral overflowing_gains 3 10 pid_init)%float
  = neg_infinity /\
  isnan (newPWM_double overflowing_gains 3 10 pid_init) = true /\
  snd (calculate_new_pwm overflowing_gains 3 10 pid_init) = Fault CastUndefined /\
  snd (main overflowing_gains 0x0a 0x30 {| tv_sec := 0; tv_nsec := 0 |}
         [scenario_1_inputs])
  = Fault CastUndefined.
Proof. repeat split; vm_compute; reflexivity. Qed.

(** X1, the part of C1 the code keeps.  Take any sequence of PID steps, from
    any state, with [pwmmin] an int not above [pwmmax] = 255.  Every step
    whose sum [pwminit + kp * error + ki * integral + kd * derivative] is
    not NaN returns a PWM integer within [[pwmmin, pwmmax]] inclusive: the
    two comparisons of lines 146-147 clamp every number and both
    infinities, and the truncation toward zero stays between the two
    integer bounds. *)
Theorem pwm_within_limits (c : config) (s : pid_state) (steps : list (double * double)) :
  is_int (pwmmin c) -> pwmmin c <= pwmmax ->
  Forall2 (fun sum r => isnan sum = false -> pwm_in_range c (snd r))
          (pid_sums c s steps) (pid_run c s steps).
Proof.
  intros Hi Hle. revert s.
  induction steps as [|[error timediff] steps IH]; intros s; simpl.
  - constructor.
  - constructor; [|apply IH].
    intros Hx. simpl. now apply clamp_pwm_in_range.
Qed.

(** The theorem at the default configuration: two steps, none of them with
    a NaN sum. *)
Lemma pwm_within_limits_witness :
  let steps := [(3, 10); (-37, 10)]%float in
  is_int (pwmmin default_config) /\ pwmmin default_config <= pwmmax /\
  forallb (fun sum => negb (isnan sum)) (pid_sums default_config pid_init steps)
  = true /\
  Forall2 (fun sum r => isnan sum = false -> pwm_in_range default_config (snd r))
          (pid_sums default_config pid_init steps)
          (pid_run default_config pid_init steps).
Proof.
  assert (H1 : is_int (pwmmin default_config)) by (unfold is_int; simpl; unfold int_min, int_max; lia).
  assert (H2 : pwmmin default_config <= pwmmax) by (simpl; unfold pwmmax; lia).
  split; [exact H1|]. split; [exact H2|]. split; [reflexivity|].
  exact (pwm_within_limits default_config pid_init _ H1 H2).
Defined.

(** *** C2: the integral term *)

(** C2.  For every sequence of PID steps from the initial state, each with a
    finite error and a finite, strictly positive time difference, and with
    [imax] a finite number that is not negative, the integral retained after
    every step is within [[-imax, +imax]] inclusive. *)
Theorem integral_within_imax (c : config) (steps : list (double * double)) :
  isfinite (imax c) = true -> (0 <=? imax c)%float = true ->
  forallb valid_step steps = true ->
  forallb (fun r => within_imax c (fst r)) (pid_run c pid_init steps) = true.
Proof.
  intros Hf H0 Hv. now apply pid_run_within.
Qed.

Lemma integral_within_imax_witness :
  let steps := [(3, 10); (3, 10); (-37, 0.5); (100, 1000)]%float in
  isfinite (imax default_config) = true /\
  (0 <=? imax default_config)%float = true /\
  forallb valid_step steps = true /\
  forallb (fun r => within_imax default_config (fst r))
          (pid_run default_config pid_init steps) = true.
Proof.
  split; [reflexivity|]. split; [reflexivity|]. split; [reflexivity|].
  apply (integral_within_imax default_config); reflexivity.
Defined.

(** *** C3: the rolling buffer *)

(** Scenario 3 of the specification: the eleventh reading overwrites the
    first, and the average is that of 31 .. 40, rounded toward zero. *)
Example scenario_3 :
  rolling_inserts default_config (rolling_init default_config) 0
    [30; 31; 32; 33; 34; 35; 36; 37; 38; 39; 40]
  = Ok ({| cputemp_values := [40; 31; 32; 33; 34; 35; 36; 37; 38; 39];
           cputemp_index := 1; cputemp_count := 10; cputemp_sum := 355 |}, 35).
Proof. vm_compute. reflexivity. Qed.

(** C3.  Let N = [cputemp_max_values] be at least 1 and the readings be
    small enough for the sum of N of them to be an int.  After the readings
    [samples], k of them, are inserted in the empty buffer: the count is
    min k N; the sum is the sum of the buffer contents; the average is
    sum / count by integer division; as long as k <= N the buffer holds
    the k readings in order and the average is their sum divided by k; and
    from k >= N on, the buffer read from the circular index holds exactly
    the last N readings, oldest first.  As [samples] is any sequence, this
    holds after every insert. *)
Theorem rolling_buffer (c : config) (B : Z) (samples : list Z) :
  let N := cputemp_max_values c in
  let k := Z.of_nat (length samples) in
  1 <= N <= int_max -> 0 <= B -> N * B <= int_max ->
  Forall (fun x => - B <= x <= B) samples ->
  exists r avg,
    rolling_inserts c (rolling_init c) 0 samples = Ok (r, avg) /\
    cputemp_count r = Z.min k N /\
    cputemp_sum r = sumZ (take (Z.to_nat (cputemp_count r)) (cputemp_values r)) /\
    (1 <= k -> avg = cputemp_sum r ÷ cputemp_count r) /\
    (k <= N -> take (length samples) (cputemp_values r) = samples) /\
    (1 <= k <= N -> avg = sumZ samples ÷ k) /\
    (N <= k -> rotate (Z.to_nat (cputemp_index r)) (cputemp_values r)
               = drop (length samples - Z.to_nat N) samples).
Proof.
  intros N k HN HB HNB Hs.
  destruct (rolling_inserts_inv c B samples [] (rolling_init c) 0 HB HN HNB
              (rolling_inv_init c B HB (proj1 HN)) Hs)
    as (r & avg & Hrun & Hinv & Havg).
  simpl in Hinv. exists r, avg.
  assert (Hne : 1 <= k -> samples <> []) by (destruct samples; simpl in *; [lia|discriminate]).
  pose proof Hinv as (Hlen & Hcnt & Hidx & Hrot & Hsum & Hall).
  fold N k in Hlen, Hcnt, Hidx, Hrot.
  assert (Hsum' : cputemp_sum r = sumZ (take (Z.to_nat (cputemp_count r)) (cputemp_values r))).
  { rewrite Hsum, Hcnt. destruct (Z.le_gt_cases k N) as [Hle|Hgt].
    - destruct (rolling_inv_filling c B samples r (proj1 HN) Hinv Hle) as [Ht Hd].
      rewrite Z.min_l by lia. unfold k. rewrite Nat2Z.id.
      rewrite <- (take_drop (length samples) (cputemp_values r)) at 1.
      rewrite sumZ_app, Hd. lia.
    - rewrite Z.min_r, take_ge by lia. reflexivity. }
  repeat split; auto.
  - intros Hle. apply (rolling_inv_filling c B samples r (proj1 HN) Hinv Hle).
  - intros [H1 Hle].
    destruct (rolling_inv_filling c B samples r (proj1 HN) Hinv Hle) as [Ht Hd].
    rewrite (Havg (Hne H1)), Hsum', Hcnt, Z.min_l by lia.
    unfold k at 1. rewrite Nat2Z.id, Ht. reflexivity.
  - intros Hge. rewrite Hrot.
    rewrite drop_app_ge by (rewrite length_replicate; lia).
    now rewrite length_replicate.
Qed.

Lemma rolling_buffer_witness :
  let c := default_config in
  let samples := [30; 31; 32; 33; 34; 35; 36; 37; 38; 39; 40] in
  exists r avg,
    rolling_inserts c (rolling_init c) 0 samples = Ok (r, avg) /\
    cputemp_count r = Z.min (Z.of_nat (length samples)) (cputemp_max_values c) /\
    cputemp_sum r = sumZ (take (Z.to_nat (cputemp_count r)) (cputemp_values r)) /\
    (1 <= Z.of_nat (length samples) -> avg = cputemp_sum r ÷ cputemp_count r) /\
    (Z.of_nat (length samples) <= cputemp_max_values c ->
     take (length samples) (cputemp_values r) = samples) /\
    (1 <= Z.of_nat (length samples) <= cputemp_max_values c ->
     avg = sumZ samples ÷ Z.of_nat (length samples)) /\
    (cputemp_max_values c <= Z.of_nat (length samples) ->
     rotate (Z.to_nat (cputemp_index r)) (cputemp_values r)
     = drop (length samples - Z.to_nat (cputemp_max_values c)) samples).
Proof.
  apply (rolling_buffer default_config 100).
  - simpl. unfold int_max. lia.
  - lia.
  - simpl. unfold int_max. lia.
  - repeat constructor; lia.
Defined.

(** *** C4: the effective temperature *)




(** *** C5: scenario 1 *)

(** C5.  With setpoint 37, kp 50, ki 0.5, kd 0, imax 255, pwminit 128 and
    pwmmin 80, one drive at 40 degrees, a CPU average of 50, a fresh PID
    state and dt = 10: the effective temperature is max (40, 30) = 40, the
    error is 3, the sum is 128 + 150 + 15 = 293, the integral after the
    step is 30, and the PWM value returned and written is 255. *)
Theorem scenario_1 :
  exists st1 st2,
    poll default_config scenario_1_start scenario_1_inputs = Ok st1 /\
    cpu_avg_temp st1 = 50 /\
    maxtemp st1 = 40 /\
    time_diff (curtime scenario_1_inputs) (lasttime st1) = 10%float /\
    of_int (wrap_int (maxtemp st1 - setpoint default_config)) = 3%float /\
    newPWM_double default_config 3 10 (pid st1) = 293%float /\
    calculate_new_pwm default_config 3 10 (pid st1)
    = ({| integral := 30; prev_error := 3 |}, Ok 255) /\
    iteration default_config scenario_1_start scenario_1_inputs
    = Ok (st2, pwm_writes (ecbar scenario_1_start) 255 ++ [Sleep 10]) /\
    integral (pid st2) = 30%float /\
    pwm st2 = 255.
Proof.
  eexists _, _.
  split; [vm_compute; reflexivity|].
  repeat split; vm_compute; reflexivity.
Qed.

(** *** C6: an iteration with a zero time difference *)

(** C6.  In an iteration whose time difference is 0, the loop only sleeps
    for [interval] seconds: the PID state, the PWM value, the time of the
    last sample and the EC base address are those of before, and nothing is
    written to a port.  (When reading the temperatures ends the run, it
    ends before any of this is touched.) *)
Theorem zero_timediff_skips (c : config) (st : state) (inp : inputs) :
  (time_diff (curtime inp) (lasttime st) =? 0)%float = true ->
  match iteration c st inp with
  | Ok (st', tr) =>
      pid st' = pid st /\ pwm st' = pwm st /\ lasttime st' = lasttime st /\
      ecbar st' = ecbar st /\ tr = [Sleep (interval c)]
  | Fault f => poll c st inp = Fault f
  end.
Proof.
  intros Hdt. unfold iteration.
  destruct (poll c st inp) as [st1|f] eqn:Hp; [|reflexivity].
  assert (Hsame : pid st1 = pid st /\ pwm st1 = pwm st /\ lasttime st1 = lasttime st
                  /\ ecbar st1 = ecbar st).
  { unfold poll in Hp.
    destruct (poll_cpu _ _ _ _ _ _) as [[[r avg] m]|]; [|discriminate].
    injection Hp as <-. repeat split. }
  destruct Hsame as (H1 & H2 & H3 & H4).
  cbn [mbind result_bind]. unfold control. rewrite H3, Hdt.
  cbn [mret result_ret]. auto.
Qed.

Lemma zero_timediff_skips_witness :
  (time_diff (curtime same_instant_inputs) (lasttime scenario_1_start) =? 0)%float = true /\
  match iteration default_config scenario_1_start same_instant_inputs with
  | Ok (st', tr) =>
      pid st' = pid scenario_1_start /\ pwm st' = pwm scenario_1_start /\
      lasttime st' = lasttime scenario_1_start /\
      ecbar st' = ecbar scenario_1_start /\ tr = [Sleep (interval default_config)]
  | Fault f => poll default_config scenario_1_start same_instant_inputs = Fault f
  end.
Proof.
  split; [reflexivity|].
  apply (zero_timediff_skips default_config scenario_1_start same_instant_inputs).
  reflexivity.
Defined.

(** *** C7: a drive that reports nothing *)

(** C7, at the input where the code departs from it.  One drive whose
    command prints nothing, while [tempstring] still holds the line "50" of
    an earlier reading: [fgets] leaves the buffer as it is, [atoi] reads 50
    again, and the device maximum is 50, where the maximum of the successful
    readings and 0 is 0.  A drive whose pipe does not open is skipped, and
    the maximum is 0 as claimed. *)
Theorem silent_drive_reads_stale_buffer :
  poll_drives 50 [NoLine] = 50 /\
  max_of (reported [NoLine]) = 0 /\
  poll_drives 50 [PopenFailed] = 0.
Proof. repeat split. Qed.

(** X2, the part of C7 the code keeps.  When the buffer reads as 0 (or
    less) before the first drive is probed, the device maximum is the
    greatest of 0 and the readings the drives did report, whichever drives
    fail and however they fail: a pipe that does not open is skipped, and a
    drive that prints nothing repeats a reading already counted. *)
Theorem poll_drives_reported t pipes :
  t <= 0 -> poll_drives t pipes = max_of (reported pipes).
Proof.
  intros Ht. rewrite poll_drives_max.
  pose proof (drive_temps_reported pipes t).
  pose proof (max_of_nonneg (drive_temps t pipes)).
  pose proof (max_of_nonneg (reported pipes)). lia.
Qed.

Lemma poll_drives_reported_witness :
  0 <= 0 /\
  poll_drives 0 [Line 38; NoLine; PopenFailed; Line 41; NoLine]
  = max_of (reported [Line 38; NoLine; PopenFailed; Line 41; NoLine]).
Proof.
  split; [lia|]. apply (poll_drives_reported 0). lia.
Defined.

(** *** C8: the overheat threshold *)

(** C8.  Two runs that differ only in the configured overheat value, with
    the same inputs, produce the same events (every port write, every
    sleep) and end in the same state or with the same fault. *)
Theorem overheat_is_not_read (c : config) (v : Z) (bar_hi bar_lo : Z)
    (now : timespec) (inps : list inputs) :
  main (with_overheat v c) bar_hi bar_lo now inps = main c bar_hi bar_lo now inps.
Proof.
  unfold main. rewrite startup_overheat.
  destruct (startup c bar_hi bar_lo now) as [st0 tr0].
  now rewrite loop_overheat.
Qed.

(** *** C9: the two PWM channels *)

(** C9.  The events of a run are those of the start, where one byte
    ([pwminit] reduced to 8 bits) is written to registers 0x6b and 0x73,
    followed by those of the iterations, each of which either only sleeps
    or writes one byte to 0x6b and the same byte to 0x73 and then
    sleeps. *)
Theorem both_channels_same_value (c : config) (bar_hi bar_lo : Z)
    (now : timespec) (inps : list inputs) :
  let st0 := fst (startup c bar_hi bar_lo now) in
  exists tr,
    fst (main c bar_hi bar_lo now inps)
    = (outb 0x87 port ++ outb 0x01 port ++ outb 0x55 port ++ outb 0x55 port
       ++ iowrite 0x07 0x04 ++ iowrite 0x30 0x01
       ++ fst (ioread 0x60 bar_hi) ++ fst (ioread 0x61 bar_lo))
      ++ pwm_writes (ecbar st0) (wrap_u8 (pwminit c))
      ++ (ecwrite (ecbar st0) 0x16 0x00 ++ ecwrite (ecbar st0) 0x17 0x00)
      ++ tr /\
    iterations_trace (ecbar st0) (interval c) tr.
Proof.
  intros st0. unfold main.
  pose proof (loop_events c inps st0) as Hl.
  unfold st0 in *. unfold startup in *. cbn [fst ioread ecbar] in *.
  destruct (loop c _ inps) as [tr r]. cbn [fst] in *.
  exists tr. split; [|exact Hl].
  unfold pwm_writes. rewrite <- !app_assoc. reflexivity.
Qed.

(** *** C10: the division by the count *)

(** With [--cpu_avg=0] the run ends at the read of the empty array of line
    367, before the index and the average are computed.  (Line 372, which
    comes next, takes a remainder by [cputemp_max_values]: it also precedes
    the division of line 375.) *)
Example empty_window_faults :
  snd (main (with_cputemp_max_values 0 default_config) 0x0a 0x30
         {| tv_sec := 0; tv_nsec := 0 |} [scenario_1_inputs])
  = Fault OutOfBounds.
Proof. vm_compute. reflexivity. Qed.

(** C10.  Whatever the int [cputemp_max_values] is, and whatever the loop
    reads, no run ends with a division by zero: when the average is computed
    the count is at least 1, and when the count is 0 and stays 0 (a window
    of no element) the run ends earlier, at the array access. *)
Theorem average_never_divides_by_zero (c : config) (bar_hi bar_lo : Z)
    (now : timespec) (inps : list inputs) :
  is_int (cputemp_max_values c) ->
  is_div_by_zero (snd (main c bar_hi bar_lo now inps)) = false.
Proof.
  intros HN. unfold main.
  pose proof (loop_sane c inps (fst (startup c bar_hi bar_lo now)) HN
                (rolling_sane_init c)) as H.
  destruct (startup c bar_hi bar_lo now) as [st0 tr0]. cbn [fst] in H.
  destruct (loop c st0 inps). exact H.
Qed.

Lemma average_never_divides_by_zero_witness :
  let now := {| tv_sec := 0; tv_nsec := 0 |} in
  let inps := [scenario_1_inputs; hot_cpu_inputs; no_cpu_pipe_inputs] in
  let one := with_cputemp_max_values 1 default_config in
  (is_int (cputemp_max_values default_config) /\
   is_div_by_zero (snd (main default_config 0x0a 0x30 now inps)) = false /\
   exists st,
     snd (main default_config 0x0a 0x30 now inps) = Ok st /\
     cputemp_count (roll st) = 2 /\ cputemp_sum (roll st) = 130 /\
     cpu_avg_temp st = 65) /\
  (is_int (cputemp_max_values one) /\
   is_div_by_zero (snd (main one 0x0a 0x30 now inps)) = false /\
   exists st,
     snd (main one 0x0a 0x30 now inps) = Ok st /\
     cputemp_count (roll st) = 1 /\ cputemp_sum (roll st) = 80 /\
     cpu_avg_temp st = 80).
Proof.
  intros now inps one.
  assert (H10 : is_int (cputemp_max_values default_config))
    by (simpl; unfold is_int, int_min, int_max; lia).
  assert (H1 : is_int (cputemp_max_values one))
    by (simpl; unfold is_int, int_min, int_max; lia).
  split.
  - split; [exact H10|]. split.
    + exact (average_never_divides_by_zero default_config 0x0a 0x30 now inps H10).
    + eexists. split; [vm_compute; reflexivity|]. repeat split.
  - split; [exact H1|]. split.
    + exact (average_never_divides_by_zero one 0x0a 0x30 now inps H1).
    + eexists. split; [vm_compute; reflexivity|]. repeat split.
Defined.

(** ** Facts about [split_drive_names] *)

Lemma commas_nonneg s : 0 <= commas s.
Proof. unfold commas. lia. Qed.

Lemma commas_le_length s : commas s <= Z.of_nat (length s).
Proof.
  unfold commas. pose proof (length_filter (fun ch => Ascii.eqb ch comma = true) s). lia.
Qed.

Lemma commas_cons ch s :
  commas (ch :: s) = (if Ascii.eqb ch comma then 1 else 0) + commas s.
Proof.
  unfold commas. rewrite filter_cons.
  destruct (Ascii.eqb ch comma) eqn:E.
  - rewrite decide_True by reflexivity. simpl length. lia.
  - rewrite decide_False by discriminate. lia.
Qed.

Lemma commas_app s1 s2 : commas (s1 ++ s2) = commas s1 + commas s2.
Proof. unfold commas. rewrite filter_app, length_app. lia. Qed.

Lemma commas_no_comma s : no_comma s = true -> commas s = 0.
Proof.
  induction s as [|ch s IH]; [reflexivity|].
  simpl. rewrite andb_true_iff, negb_true_iff. intros [E H].
  rewrite commas_cons, E, IH by assumption. reflexivity.
Qed.

Lemma fold_count_fields s : forall count,
  int_min <= count -> count + commas s <= int_max ->
  fold_left (fun count p => if Ascii.eqb p comma then wrap_int (count + 1) else count)
            s count
  = count + commas s.
Proof.
  induction s as [|ch s IH]; intros count Hlo Hhi.
  - unfold commas. simpl. lia.
  - rewrite commas_cons in *. pose proof (commas_nonneg s). simpl fold_left.
    destruct (Ascii.eqb ch comma).
    + rewrite wrap_int_id by (unfold is_int; lia). rewrite IH; lia.
    + rewrite IH; lia.
Qed.

Lemma count_fields_commas s :
  Z.of_nat (length s) < int_max -> count_fields s = 1 + commas s.
Proof.
  intros H. pose proof (commas_le_length s). unfold count_fields.
  apply fold_count_fields; unfold int_min; lia.
Qed.

Lemma commas_join fields :
  forallb no_comma fields = true ->
  commas (join fields) = Z.of_nat (length fields) - (if nonempty fields then 1 else 0).
Proof.
  induction fields as [|f fields IH]; [reflexivity|].
  simpl forallb. rewrite andb_true_iff. intros [Hf Hfs].
  destruct fields as [|g fields].
  - simpl. rewrite (commas_no_comma f Hf). reflexivity.
  - change (join (f :: g :: fields)) with (f ++ comma :: join (g :: fields)).
    rewrite commas_app, commas_cons, (commas_no_comma f Hf), (IH Hfs).
    change (Ascii.eqb comma comma) with true. simpl nonempty. simpl length. lia.
Qed.

Lemma strtok_field f : forall s token,
  no_comma f = true -> strtok (f ++ s) token = strtok s (token ++ f).
Proof.
  induction f as [|ch f IH]; intros s token.
  - now rewrite app_nil_r.
  - simpl. rewrite andb_true_iff, negb_true_iff. intros [E H].
    rewrite E, IH by assumption. now rewrite <- app_assoc.
Qed.

Lemma strtok_comma s token :
  strtok (comma :: s) token
  = (if nonempty token then [token] else []) ++ strtok s [].
Proof. destruct token; reflexivity. Qed.

Lemma strtok_join fields : forall token,
  forallb no_comma fields = true -> nonempty fields = true ->
  strtok (join fields) token
  = match fields with
    | [] => []
    | f :: fields' => filter (fun f => nonempty f = true) ((token ++ f) :: fields')
    end.
Proof.
  induction fields as [|f fields IH]; intros token; [discriminate|].
  simpl forallb. rewrite andb_true_iff. intros [Hf Hfs] _.
  destruct fields as [|g fields].
  - simpl join. rewrite <- (app_nil_r f) at 1. rewrite (strtok_field f [] token Hf).
    simpl. destruct (token ++ f); reflexivity.
  - change (join (f :: g :: fields)) with (f ++ comma :: join (g :: fields)).
    rewrite (strtok_field f _ token Hf), strtok_comma.
    rewrite (IH [] Hfs eq_refl). simpl app at 2.
    rewrite (filter_cons _ (token ++ f)).
    destruct (token ++ f); reflexivity.
Qed.

Lemma join_fields_of s : forall field,
  join (fields_of s field) = field ++ s /\
  forallb no_comma (fields_of s field) = no_comma field /\
  nonempty (fields_of s field) = true.
Proof.
  induction s as [|ch s IH]; intros field.
  - simpl. rewrite app_nil_r, andb_true_r. auto.
  - simpl. destruct (Ascii.eqb ch comma) eqn:E.
    + destruct (IH []) as (Hj & Hc & Hn).
      apply Ascii.eqb_eq in E. subst ch.
      split; [|split; [|reflexivity]].
      * destruct (fields_of s []) eqn:Ef; [discriminate|].
        change (join (field :: l :: l0)) with (field ++ comma :: join (l :: l0)).
        now rewrite Hj.
      * simpl. rewrite Hc. simpl. now rewrite andb_true_r.
    + destruct (IH (field ++ [ch])) as (Hj & Hc & Hn).
      rewrite Hj, Hc, <- app_assoc. split; [reflexivity|]. split; [|assumption].
      unfold no_comma. rewrite forallb_app. simpl. rewrite E. simpl.
      now rewrite andb_true_r.
Qed.

Lemma store_tokens_fresh tokens : forall (written : list (option cstring)) k,
  (length tokens <= k)%nat ->
  Z.of_nat (length written + k) <= int_max ->
  store_tokens (written ++ replicate k None) (Z.of_nat (length written)) tokens
  = Ok (written ++ (Some <$> tokens) ++ replicate (k - length tokens) None).
Proof.
  induction tokens as [|token tokens IH]; intros written k Hk Hmax.
  - simpl. now rewrite Nat.sub_0_r.
  - simpl in Hk. destruct k as [|k]; [lia|].
    cbn [store_tokens]. unfold store.
    rewrite length_app, length_replicate.
    destruct (Z.leb_spec 0 (Z.of_nat (length written))); [|lia].
    destruct (Z.ltb_spec (Z.of_nat (length written))
                (Z.of_nat (length written + S k))); [|lia].
    cbn [andb mbind result_bind].
    rewrite Nat2Z.id.
    rewrite insert_app_r_alt by lia. rewrite Nat.sub_diag. simpl insert.
    rewrite wrap_int_id by (unfold is_int, int_min; lia).
    replace (Z.of_nat (length written) + 1)
      with (Z.of_nat (length (written ++ [Some token])))
      by (rewrite length_app; simpl; lia).
    replace (written ++ Some token :: replicate k None)
      with ((written ++ [Some token]) ++ replicate k None)
      by (now rewrite <- app_assoc).
    rewrite IH by (try rewrite length_app; simpl; lia).
    rewrite <- app_assoc. reflexivity.
Qed.

(** What [split_drive_names] returns for a list given by its fields. *)
Lemma split_drive_names_join fields :
  nonempty fields = true -> forallb no_comma fields = true ->
  Z.of_nat (length (join fields)) < int_max ->
  split_drive_names (join fields)
  = Ok (Z.of_nat (length fields),
        (Some <$> filter (fun f => nonempty f = true) fields)
        ++ replicate (length fields
                      - length (filter (fun f => nonempty f = true) fields)) None).
Proof.
  intros Hne Hc Hlen. unfold split_drive_names.
  rewrite (count_fields_commas _ Hlen), (commas_join _ Hc), Hne.
  replace (1 + (Z.of_nat (length fields) - 1)) with (Z.of_nat (length fields)) by lia.
  rewrite Nat2Z.id.
  rewrite (strtok_join fields [] Hc Hne).
  destruct fields as [|f fields]; [discriminate|]. simpl app.
  pose proof (commas_le_length (join (f :: fields))) as Hcl.
  rewrite (commas_join _ Hc) in Hcl. simpl nonempty in Hcl.
  pose proof (length_filter (fun f => nonempty f = true) (f :: fields)) as Hfl.
  rewrite (store_tokens_fresh _ [] (length (f :: fields))) by (simpl length in *; lia).
  reflexivity.
Qed.

Lemma first_unwritten_spec (names : list cstring) k : forall i,
  first_unwritten ((Some <$> names) ++ replicate k None) i
  = if (0 <? Z.of_nat k) then Some (i + Z.of_nat (length names)) else None.
Proof.
  induction names as [|n names IH]; intros i.
  - destruct k; simpl; [reflexivity|]. f_equal. lia.
  - simpl. rewrite IH. destruct (0 <? Z.of_nat k); [|reflexivity]. f_equal. lia.
Qed.

Lemma filter_all {A} (P : A -> bool) l :
  forallb P l = true -> filter (fun x => P x = true) l = l.
Proof.
  induction l as [|a l IH]; [reflexivity|].
  simpl. rewrite andb_true_iff. intros [Ha Hl].
  rewrite filter_cons, decide_True by assumption. now rewrite IH.
Qed.

Lemma filter_some {A} (P : A -> bool) l :
  forallb P l = false -> (length (filter (fun x => P x = true) l) < length l)%nat.
Proof.
  induction l as [|a l IH]; [discriminate|].
  simpl. rewrite filter_cons. destruct (P a) eqn:E.
  - rewrite decide_True by reflexivity. simpl. intros H. apply IH in H. lia.
  - rewrite decide_False by discriminate. intros _.
    pose proof (length_filter (fun x => P x = true) l). lia.
Qed.

(** ** Facts about the options *)

Lemma strncmp_eq_take p : forall s,
  strncmp_eq s p (length p) = true -> take (length p) s = p.
Proof.
  induction p as [|c p IH]; intros s; [reflexivity|].
  destruct s as [|a s]; [discriminate|].
  simpl. rewrite andb_true_iff. intros [E H].
  apply Ascii.eqb_eq in E. subst a. now rewrite (IH s H).
Qed.

(** Two prefixes that differ before one of them ends are not matched by
    the same argument. *)
Lemma strncmp_clash p q n m s :
  n = length p -> m = length q ->
  bool_decide (take (n `min` m) p = take (n `min` m) q) = false ->
  strncmp_eq s p n = true -> strncmp_eq s q m = false.
Proof.
  intros -> -> Hc Hp.
  destruct (strncmp_eq s q (length q)) eqn:Hq; [|reflexivity].
  apply strncmp_eq_take in Hp, Hq.
  apply bool_decide_eq_false in Hc. exfalso. apply Hc.
  set (k := (length p `min` length q)%nat) in *.
  transitivity (take k s).
  - rewrite <- Hp. rewrite take_take. f_equal. subst k. lia.
  - rewrite <- Hq. rewrite take_take. f_equal. subst k. lia.
Qed.

Ltac prefix_lengths :=
  repeat match goal with
  | |- context [length (cstr ?s)] =>
      let n := eval vm_compute in (length (cstr s)) in
      change (length (cstr s)) with n
  end.

(** The other tests of the chain fail once one of them has succeeded. *)
Ltac other_tests E :=
  match type of E with
  | strncmp_eq ?a (cstr ?p) ?n = true =>
      repeat match goal with
      | |- context [strncmp_eq a (cstr ?q) ?m] =>
          rewrite (strncmp_clash (cstr p) (cstr q) n m a eq_refl eq_refl eq_refl E)
      end
  end.

Lemma kind_of_test arg k :
  strncmp_eq arg (prefix_of k) (length (prefix_of k))
  = bool_decide (kind_of arg = Some k).
Proof.
  unfold kind_of.
  repeat match goal with
  | |- context [if strncmp_eq arg (cstr ?p) ?n then _ else _] =>
      let E := fresh "E" in
      destruct (strncmp_eq arg (cstr p) n) eqn:E;
      [destruct k; cbn [prefix_of]; prefix_lengths;
       first [rewrite E; reflexivity | other_tests E; reflexivity]|]
  end.
  destruct k; cbn [prefix_of]; prefix_lengths;
    match goal with
    | H : strncmp_eq arg ?p ?n = false |- strncmp_eq arg ?p ?n = _ =>
        rewrite H; reflexivity
    end.
Qed.

Section ArgsFacts.

Variable atoi : cstring -> Z.
Variable atof : cstring -> double.

Lemma parse_arg_kind o arg :
  parse_arg atoi atof o arg = apply_kind atoi atof o arg (kind_of arg).
Proof.
  unfold parse_arg, kind_of.
  repeat match goal with
  | |- context [if strncmp_eq arg (cstr ?p) ?n then _ else _] =>
      destruct (strncmp_eq arg (cstr p) n); [reflexivity|]
  end.
  reflexivity.
Qed.

Lemma recognised_kind arg :
  recognised arg
  = match kind_of arg with
    | Some KGraphite => bool_decide (is_Some (strchr (drop 18 arg) colon))
    | Some _ => true
    | None => false
    end.
Proof.
  unfold recognised, kind_of.
  repeat match goal with
  | |- context [if strncmp_eq arg (cstr ?p) ?n then _ else _] =>
      destruct (strncmp_eq arg (cstr p) n);
      [cbn [orb andb]; rewrite ?orb_true_r; reflexivity|]
  end.
  reflexivity.
Qed.

Lemma payloads_cons k arg args :
  payloads (prefix_of k) (arg :: args)
  = if bool_decide (kind_of arg = Some k)
    then drop (length (prefix_of k)) arg :: payloads (prefix_of k) args
    else payloads (prefix_of k) args.
Proof.
  unfold payloads. rewrite filter_cons, kind_of_test.
  destruct (bool_decide (kind_of arg = Some k)) eqn:E.
  - rewrite decide_True by reflexivity. reflexivity.
  - rewrite decide_False by discriminate. reflexivity.
Qed.

Lemma last_or_cons {A} (d x : A) l : last_or d (x :: l) = last_or x l.
Proof. unfold last_or. rewrite last_cons. destruct (last l); reflexivity. Qed.

Lemma last_cons_or {A} (x : A) l d :
  from_option Some d (last (x :: l)) = from_option Some (Some x) (last l).
Proof. rewrite last_cons. destruct (last l); reflexivity. Qed.

End ArgsFacts.

Section ParseFacts.

Variable atoi : cstring -> Z.
Variable atof : cstring -> double.

Lemma last_wins_nil o : last_wins atoi atof o [] o.
Proof. unfold last_wins. simpl. repeat split. Qed.

Ltac kind_tests :=
  repeat match goal with
  | |- context [bool_decide (Some ?a = Some ?b)] =>
      let v := eval vm_compute in (bool_decide (Some a = Some b)) in
      change (bool_decide (Some a = Some b)) with v
  | |- context [bool_decide (@None kind = Some ?b)] =>
      change (bool_decide (@None kind = Some b)) with false
  end; cbv iota.

Lemma last_wins_cons o arg o' args o'' :
  parse_arg atoi atof o arg = Ok (Some o') ->
  last_wins atoi atof o' args o'' ->
  last_wins atoi atof o (arg :: args) o''.
Proof.
  rewrite parse_arg_kind. unfold last_wins. cbv zeta.
  rewrite !payloads_cons.
  intros Hk (H1 & H2 & H3 & H4 & H5 & H6 & H7 & H8 & H9 & H10 & H11 & H12 & H13).
  destruct (kind_of arg) as [[]|]; cbn [apply_kind] in Hk; kind_tests;
    try discriminate;
    try (injection Hk as <-;
         rewrite ?fmap_cons, ?last_or_cons, ?last_cons_or;
         cbn [prefix_of]; prefix_lengths;
         repeat split; assumption).
  - destruct (to_int (atof (drop 10 arg))) as [n|] eqn:En; [|discriminate].
    injection Hk as <-.
    rewrite ?fmap_cons, ?last_or_cons. cbn [prefix_of]; prefix_lengths.
    rewrite En. repeat split; assumption.
  - destruct (strchr (drop 18 arg) colon) as [[server_info after]|] eqn:Es;
      [|discriminate].
    injection Hk as <-.
    rewrite ?fmap_cons, ?last_or_cons. cbn [prefix_of]; prefix_lengths.
    rewrite Es. repeat split; assumption.
Qed.

Lemma parse_loop_last_wins args : forall o0 o,
  parse_loop atoi atof o0 args = Ok (Some o) -> last_wins atoi atof o0 args o.
Proof.
  induction args as [|arg args IH]; intros o0 o.
  - simpl. intros H. injection H as <-. apply last_wins_nil.
  - cbn [parse_loop].
    destruct (parse_arg atoi atof o0 arg) as [[o1|]|] eqn:Ha;
      cbn [mbind result_bind]; try discriminate.
    intros H. eapply last_wins_cons; [exact Ha|]. now apply IH.
Qed.

Lemma parse_arg_parsed o arg :
  parsed (parse_arg atoi atof o arg)
  = recognised arg
    && (if bool_decide (kind_of arg = Some KCpuAvg)
        then is_ok (to_int (atof (drop 10 arg))) else true).
Proof.
  rewrite parse_arg_kind, recognised_kind.
  destruct (kind_of arg) as [[]|]; cbn [apply_kind]; try reflexivity.
  - change (bool_decide (Some KCpuAvg = Some KCpuAvg)) with true. cbv iota.
    destruct (to_int _); reflexivity.
  - change (bool_decide (Some KGraphite = Some KCpuAvg)) with false.
    rewrite andb_true_r.
    destruct (strchr _ _) as [[]|]; [|reflexivity].
    symmetry. apply bool_decide_eq_true. eauto.
Qed.

Lemma parse_arg_rejects o arg :
  parsed (parse_arg atoi atof o arg) = false ->
  parse_arg atoi atof o arg = Ok None \/
  exists f, parse_arg atoi atof o arg = Fault f.
Proof.
  destruct (parse_arg atoi atof o arg) as [[o'|]|f]; [discriminate| |]; eauto.
Qed.

Lemma parse_loop_parsed args : forall o0,
  parsed (parse_loop atoi atof o0 args)
  = forallb recognised args && cpu_avg_converts atof args.
Proof.
  induction args as [|arg args IH]; intros o0; [reflexivity|].
  cbn [parse_loop forallb]. unfold cpu_avg_converts in *.
  change (cstr "--cpu_avg=") with (prefix_of KCpuAvg) in *.
  rewrite payloads_cons.
  pose proof (parse_arg_parsed o0 arg) as Hp.
  destruct (parse_arg atoi atof o0 arg) as [[o1|]|f] eqn:Ha;
    cbn [mbind result_bind parsed] in *.
  - rewrite (IH o1). symmetry in Hp. apply andb_true_iff in Hp as [-> Hc].
    destruct (bool_decide (kind_of arg = Some KCpuAvg)).
    + cbn [forallb]. change (length (prefix_of KCpuAvg)) with 10%nat.
      rewrite Hc. reflexivity.
    + reflexivity.
  - symmetry in Hp. apply andb_false_iff in Hp as [->|Hc]; [reflexivity|].
    destruct (bool_decide (kind_of arg = Some KCpuAvg)); [|discriminate].
    cbn [forallb]. change (length (prefix_of KCpuAvg)) with 10%nat.
    rewrite Hc. cbn [andb]. now rewrite andb_false_r.
  - symmetry in Hp. apply andb_false_iff in Hp as [->|Hc]; [reflexivity|].
    destruct (bool_decide (kind_of arg = Some KCpuAvg)); [|discriminate].
    cbn [forallb]. change (length (prefix_of KCpuAvg)) with 10%nat.
    rewrite Hc. cbn [andb]. now rewrite andb_false_r.
Qed.

Lemma parse_arg_converts o arg :
  (if bool_decide (kind_of arg = Some KCpuAvg)
   then is_ok (to_int (atof (drop 10 arg))) else true) = true ->
  is_ok (parse_arg atoi atof o arg) = true.
Proof.
  rewrite parse_arg_kind.
  destruct (kind_of arg) as [[]|]; cbn [apply_kind]; try reflexivity.
  - change (bool_decide (Some KCpuAvg = Some KCpuAvg)) with true. cbv iota.
    destruct (to_int _); [reflexivity|discriminate].
  - destruct (strchr _ _) as [[]|]; reflexivity.
Qed.

(** The loop over [argv] has no undefined conversion when every value of
    [--cpu_avg=] converts. *)
Lemma parse_loop_converts args : forall o0,
  cpu_avg_converts atof args = true ->
  is_ok (parse_loop atoi atof o0 args) = true.
Proof.
  induction args as [|arg args IH]; intros o0; [reflexivity|].
  unfold cpu_avg_converts in *.
  change (cstr "--cpu_avg=") with (prefix_of KCpuAvg) in *.
  rewrite payloads_cons. intros Hc. cbn [parse_loop].
  pose proof (parse_arg_converts o0 arg) as Ha.
  destruct (bool_decide (kind_of arg = Some KCpuAvg)).
  - cbn [forallb] in Hc. change (length (prefix_of KCpuAvg)) with 10%nat in Hc.
    apply andb_true_iff in Hc as [Hc1 Hc2]. specialize (Ha Hc1).
    destruct (parse_arg atoi atof o0 arg) as [[o1|]|f]; cbn [mbind result_bind];
      [now apply IH|reflexivity|discriminate].
  - specialize (Ha eq_refl).
    destruct (parse_arg atoi atof o0 arg) as [[o1|]|f]; cbn [mbind result_bind];
      [now apply IH|reflexivity|discriminate].
Qed.

Lemma payloads_exists k args :
  nonempty (payloads (prefix_of k) args)
  = existsb (fun arg => strncmp_eq arg (prefix_of k) (length (prefix_of k))) args.
Proof.
  induction args as [|arg args IH]; [reflexivity|].
  rewrite payloads_cons. cbn [existsb]. rewrite kind_of_test.
  destruct (bool_decide _); [reflexivity|]. exact IH.
Qed.

Lemma last_nonempty {A} (l : list A) : bool_decide (is_Some (last l)) = nonempty l.
Proof.
  destruct l as [|a l]; [reflexivity|]. simpl nonempty.
  apply bool_decide_eq_true. rewrite last_cons. destruct (last l); eauto.
Qed.

Lemma parse_args_cases args :
  parse_args atoi atof args
  = match parse_loop atoi atof initial_options args with
    | Ok (Some o) =>
        if accepted args then Ok (Some o) else Ok None
    | r => r
    end.
Proof.
  unfold parse_args, accepted.
  destruct args as [|arg args]; [reflexivity|].
  change (nonempty (arg :: args)) with true. cbn [andb].
  set (l := arg :: args).
  pose proof (parse_loop_parsed l initial_options) as Hp.
  destruct (parse_loop atoi atof initial_options l) as [[o|]|f] eqn:Hl;
    cbn [mbind result_bind]; try reflexivity.
  cbn [parsed] in Hp. symmetry in Hp. apply andb_true_iff in Hp as [-> _].
  cbn [andb].
  destruct (parse_loop_last_wins l _ _ Hl) as (Hd & _).
  cbn [initial_options drive_list] in Hd.
  pose proof (payloads_exists KDriveList l) as He.
  change (length (prefix_of KDriveList)) with 13%nat in He.
  change (prefix_of KDriveList) with (cstr "--drive_list=") in He at 2.
  rewrite <- He, <- (last_nonempty (payloads (prefix_of KDriveList) l)).
  destruct (last (payloads (prefix_of KDriveList) l)) as [p|]; simpl in Hd; rewrite Hd.
  - rewrite bool_decide_eq_true_2 by (eexists; reflexivity). reflexivity.
  - rewrite bool_decide_eq_false_2; [reflexivity|]. intros [? ?]. discriminate.
Qed.

End ParseFacts.

(** ** Facts about the program *)

Lemma main_overheat v c hi lo now inps :
  main (with_overheat v c) hi lo now inps = main c hi lo now inps.
Proof.
  unfold main. rewrite startup_overheat.
  destruct (startup c hi lo now) as [st0 tr0].
  now rewrite loop_overheat.
Qed.

Lemma same_but_overheat_refl o : same_but_overheat o o.
Proof. repeat split. Qed.

Lemma same_outcome_refl r : same_outcome r r.
Proof. destruct r as [[o|]|f]; simpl; auto using same_but_overheat_refl. Qed.

Section ProgramFacts.

Variable atoi : cstring -> Z.
Variable atof : cstring -> double.

Lemma apply_kind_same o o' arg k :
  same_but_overheat o o' ->
  same_outcome (apply_kind atoi atof o arg k) (apply_kind atoi atof o' arg k).
Proof.
  intros (Hd & Hs & Hp & Hc).
  destruct o as [c d s p], o' as [c' d' s' p'].
  cbn [drive_list graphite_server graphite_port cfg] in *. subst d' s' p'.
  destruct c as [c1 c2 c3 c4 c5 c6 c7 c8 c9 c10 c11],
           c' as [e1 e2 e3 e4 e5 e6 e7 e8 e9 e10 e11].
  unfold with_overheat in Hc.
  cbn [debug setpoint pwminit interval overheat pwmmin kp ki imax kd
       cputemp_max_values] in Hc.
  injection Hc as -> -> -> -> -> -> -> -> -> ->.
  destruct k as [[]|]; cbn [apply_kind mret result_ret same_outcome];
    try (repeat split; fail).
  - destruct (to_int _); cbn [mbind result_bind mret result_ret same_outcome];
      [repeat split|reflexivity].
  - destruct (strchr _ _) as [[]|]; cbn [mret result_ret same_outcome];
      [repeat split|exact I].
Qed.

Lemma parse_loop_same args : forall o o',
  same_but_overheat o o' ->
  same_outcome (parse_loop atoi atof o args) (parse_loop atoi atof o' args).
Proof.
  induction args as [|arg args IH]; intros o o' Ho; [exact Ho|].
  cbn [parse_loop]. rewrite !parse_arg_kind.
  pose proof (apply_kind_same o o' arg (kind_of arg) Ho) as Ha.
  destruct (apply_kind atoi atof o arg _) as [[o1|]|f],
           (apply_kind atoi atof o' arg _) as [[o1'|]|f'];
    cbn [same_outcome mbind result_bind mret result_ret] in *;
    try contradiction; auto.
Qed.

Lemma parse_loop_app a1 a2 : forall o,
  parse_loop atoi atof o (a1 ++ a2)
  = r ← parse_loop atoi atof o a1;
    match r with
    | Some o1 => parse_loop atoi atof o1 a2
    | None => mret None
    end.
Proof.
  induction a1 as [|arg a1 IH]; intros o; [reflexivity|].
  simpl app. cbn [parse_loop].
  destruct (parse_arg atoi atof o arg) as [[o1|]|f];
    cbn [mbind result_bind mret result_ret]; auto.
Qed.

Lemma parse_loop_skip a1 arg a2 o :
  kind_of arg = Some KOverheat ->
  same_outcome (parse_loop atoi atof o (a1 ++ arg :: a2))
               (parse_loop atoi atof o (a1 ++ a2)).
Proof.
  intros Hk. rewrite !parse_loop_app.
  destruct (parse_loop atoi atof o a1) as [[o1|]|f];
    cbn [mbind result_bind mret result_ret]; try exact I; try reflexivity.
  cbn [parse_loop]. rewrite parse_arg_kind, Hk.
  cbn [apply_kind mbind result_bind mret result_ret].
  apply parse_loop_same. repeat split.
Qed.

Lemma accepted_skip a1 arg a2 :
  kind_of arg = Some KOverheat ->
  accepted (a1 ++ arg :: a2) = accepted (a1 ++ a2).
Proof.
  intros Hk. unfold accepted.
  assert (Hr : recognised arg = true) by (now rewrite recognised_kind, Hk).
  assert (Hd : strncmp_eq arg (cstr "--drive_list=") 13 = false).
  { pose proof (kind_of_test arg KDriveList) as H. rewrite Hk in H. exact H. }
  rewrite !forallb_app, !existsb_app. cbn [forallb existsb].
  rewrite Hr, Hd. cbn [andb orb].
  destruct a1 as [|b a1]; [|reflexivity].
  destruct a2 as [|b a2]; reflexivity.
Qed.

Lemma parse_args_skip a1 arg a2 :
  kind_of arg = Some KOverheat ->
  same_outcome (parse_args atoi atof (a1 ++ arg :: a2))
               (parse_args atoi atof (a1 ++ a2)).
Proof.
  intros Hk. rewrite !parse_args_cases, (accepted_skip a1 arg a2 Hk).
  pose proof (parse_loop_skip a1 arg a2 initial_options Hk) as Hs.
  destruct (parse_loop atoi atof initial_options (a1 ++ arg :: a2)) as [[o|]|f],
           (parse_loop atoi atof initial_options (a1 ++ a2)) as [[o'|]|f'];
    cbn [same_outcome] in *; try contradiction; auto.
  destruct (accepted (a1 ++ a2)); [exact Hs|exact I].
Qed.

Lemma fancontrol_same args args' hi lo now inps :
  same_outcome (parse_args atoi atof args) (parse_args atoi atof args') ->
  fancontrol atoi atof args hi lo now inps = fancontrol atoi atof args' hi lo now inps.
Proof.
  unfold fancontrol.
  destruct (parse_args atoi atof args) as [[o|]|f],
           (parse_args atoi atof args') as [[o'|]|f'];
    cbn [same_outcome]; try contradiction; try reflexivity.
  - intros (-> & _ & _ & Hc).
    assert (Hm : forall i, main (cfg o) hi lo now i = main (cfg o') hi lo now i).
    { intros i. rewrite <- (main_overheat 0 (cfg o)), <- (main_overheat 0 (cfg o')).
      now rewrite Hc. }
    assert (Hs : startup (cfg o) hi lo now = startup (cfg o') hi lo now).
    { rewrite <- (startup_overheat 0 (cfg o)), <- (startup_overheat 0 (cfg o')).
      now rewrite Hc. }
    now rewrite Hm, Hs.
  - now intros ->.
Qed.

End ProgramFacts.

(** ** Further facts about the loop *)

Lemma to_int_nan x : isnan x = true -> to_int x = Fault CastUndefined.
Proof.
  unfold isnan, to_int. destruct (Prim2SF x); try discriminate. reflexivity.
Qed.

Lemma ltb_nan_l x y : isnan x = true -> (x <? y)%float = false.
Proof.
  unfold isnan. rewrite FloatAxioms.ltb_spec.
  destruct (Prim2SF x); try discriminate. reflexivity.
Qed.

Lemma ltb_nan_r x y : isnan y = true -> (x <? y)%float = false.
Proof.
  unfold isnan. rewrite FloatAxioms.ltb_spec.
  destruct (Prim2SF y); try discriminate.
  intros _. unfold SFltb, SFcompare. destruct (Prim2SF x); reflexivity.
Qed.

(** A step that returns a value returns one within the limits. *)
Lemma calculate_new_pwm_ok c error timediff s p :
  is_int (pwmmin c) -> pwmmin c <= pwmmax ->
  snd (calculate_new_pwm c error timediff s) = Ok p ->
  pwmmin c <= p <= pwmmax.
Proof.
  intros Hi Hle. unfold calculate_new_pwm. cbn [snd].
  set (x := newPWM_double c error timediff s).
  destruct (isnan x) eqn:Hn.
  - unfold clamp_pwm. rewrite (ltb_nan_r _ x Hn), (ltb_nan_l x _ Hn).
    rewrite (to_int_nan x Hn). discriminate.
  - destruct (clamp_pwm_in_range c x Hi Hle Hn) as (p' & -> & Hp).
    intros H. injection H as <-. exact Hp.
Qed.

Lemma control_within c st t st' tr :
  0 <= pwmmin c <= pwmmax ->
  control c st t = Ok (st', tr) ->
  ecbar st' = ecbar st /\
  (tr = [Sleep (interval c)] \/
   exists v, pwmmin c <= v <= pwmmax /\ pwm st' = v /\
             tr = pwm_writes (ecbar st) v ++ [Sleep (interval c)]).
Proof.
  intros Hm. unfold control.
  destruct (time_diff t (lasttime st) =? 0)%float.
  - intros H. injection H as <- <-. auto.
  - pose proof (calculate_new_pwm_ok c
        (of_int (wrap_int (maxtemp st - setpoint c)))
        (time_diff t (lasttime st)) (pid st)) as Hp.
    destruct (calculate_new_pwm _ _ _ _) as [pid' [newPWM|f]]; [|discriminate].
    intros H. injection H as <- <-. cbn [ecbar pwm].
    split; [reflexivity|]. right.
    assert (Hr : pwmmin c <= newPWM <= pwmmax).
    { apply Hp; [unfold is_int, int_min, int_max, pwmmax in *; lia|lia|reflexivity]. }
    unfold pwmmax in *.
    assert (Hw : wrap_u8 newPWM = newPWM) by (unfold wrap_u8; apply Z.mod_small; lia).
    rewrite Hw. exists newPWM. split; [assumption|]. split; [reflexivity|].
    unfold pwm_writes. now rewrite <- app_assoc.
Qed.

Lemma iteration_within c st inp st' tr :
  0 <= pwmmin c <= pwmmax ->
  iteration c st inp = Ok (st', tr) ->
  ecbar st' = ecbar st /\
  (tr = [Sleep (interval c)] \/
   exists v, pwmmin c <= v <= pwmmax /\ pwm st' = v /\
             tr = pwm_writes (ecbar st) v ++ [Sleep (interval c)]).
Proof.
  intros Hm. unfold iteration.
  destruct (poll c st inp) as [st1|] eqn:Hp; [|discriminate].
  cbn [mbind result_bind]. intros Hc.
  destruct (poll_frame _ _ _ _ Hp) as (_ & _ & _ & He).
  destruct (control_within _ _ _ _ _ Hm Hc) as (He' & Htr).
  rewrite He in *. auto.
Qed.

Lemma loop_within c inps : forall st,
  0 <= pwmmin c <= pwmmax ->
  iterations_within (ecbar st) (interval c) (pwmmin c) pwmmax (fst (loop c st inps)).
Proof.
  induction inps as [|inp inps IH]; intros st Hm; cbn [loop].
  - constructor.
  - destruct (iteration c st inp) as [[st' tr]|f] eqn:Hi; [|constructor].
    destruct (iteration_within _ _ _ _ _ Hm Hi) as [He [->|(v & Hv & _ & ->)]].
    + specialize (IH st' Hm). rewrite He in IH.
      destruct (loop c st' inps) as [tr' r]. simpl in *. now constructor.
    + specialize (IH st' Hm). rewrite He in IH.
      destruct (loop c st' inps) as [tr' r]. cbn [fst] in *.
      rewrite <- app_assoc. simpl app at 2. now constructor.
Qed.

(** With a window of one element at least, an iteration ends the run at
    the conversion of the PWM value or not at all. *)
Lemma iteration_memory_safe c st inp :
  1 <= cputemp_max_values c <= int_max -> rolling_ok c (roll st) ->
  match iteration c st inp with
  | Ok (st', _) => rolling_ok c (roll st')
  | Fault f => f = CastUndefined
  end.
Proof.
  intros HN Hok.
  pose proof (iteration_rolling_ok c st inp) as Hi.
  destruct (iteration c st inp) as [[st' tr]|f] eqn:E.
  { eapply Hi; eauto. }
  clear Hi. unfold iteration in E.
  assert (Hp : exists st1, poll c st inp = Ok st1).
  { unfold poll, poll_cpu.
    destruct (cpu_pipe inp) as [| |n]; cbn [mbind result_bind mret result_ret].
    - eauto.
    - destruct (rolling_insert_ok c (roll st) (fgets (cputempstring0 inp) NoLine) HN Hok)
        as (r' & avg & -> & _).
      cbn [mbind result_bind mret result_ret]. eauto.
    - destruct (rolling_insert_ok c (roll st) (fgets (cputempstring0 inp) (Line n)) HN Hok)
        as (r' & avg & -> & _).
      cbn [mbind result_bind mret result_ret]. eauto. }
  destruct Hp as (st1 & Hp). rewrite Hp in E. cbn [mbind result_bind] in E.
  unfold control in E.
  destruct (_ =? _)%float; [discriminate|].
  destruct (calculate_new_pwm _ _ _ _) as [pid' [newPWM|f']] eqn:Hcalc; [discriminate|].
  cbn [mbind result_bind] in E. injection E as <-.
  unfold calculate_new_pwm in Hcalc. injection Hcalc as _ Hf.
  exact (to_int_fault _ _ Hf).
Qed.

Lemma loop_memory_safe c inps : forall st,
  1 <= cputemp_max_values c <= int_max -> rolling_ok c (roll st) ->
  memory_safe (snd (loop c st inps)) = true.
Proof.
  induction inps as [|inp inps IH]; intros st HN Hok; cbn [loop]; [reflexivity|].
  pose proof (iteration_memory_safe c st inp HN Hok) as Hi.
  destruct (iteration c st inp) as [[st' tr]|f].
  - specialize (IH st' HN Hi). destruct (loop c st' inps). exact IH.
  - subst f. reflexivity.
Qed.

(** The quotient of a sum of [n] numbers of [[lo, hi]] by [n]. *)
Lemma quot_between lo hi n s :
  1 <= n -> n * lo <= s <= n * hi -> lo <= s ÷ n <= hi.
Proof.
  intros Hn [Hlo Hhi].
  pose proof (Z.quot_rem' s n) as Hq.
  destruct (Z.le_gt_cases 0 s) as [Hs|Hs].
  - pose proof (Z.rem_bound_pos s n Hs ltac:(lia)). nia.
  - pose proof (Z.rem_bound_pos (- s) n ltac:(lia) ltac:(lia)) as H.
    rewrite Z.rem_opp_l in H by lia. nia.
Qed.

Lemma sumZ_between lo hi l :
  Forall (fun v => lo <= v <= hi) l ->
  Z.of_nat (length l) * lo <= sumZ l <= Z.of_nat (length l) * hi.
Proof.
  induction 1 as [|a l Ha _ IH]; simpl length; simpl sumZ; [lia|].
  rewrite Nat2Z.inj_succ. lia.
Qed.

Lemma sumZ_rotate n l : sumZ (rotate n l) = sumZ l.
Proof.
  unfold rotate. set (k := (n `mod` length l)%nat). rewrite sumZ_app.
  replace (sumZ l) with (sumZ (take k l ++ drop k l)) by (now rewrite take_drop).
  rewrite sumZ_app. lia.
Qed.

Lemma max_of_reported_le pipes : forall t,
  max_of (reported pipes) <= max_of (drive_temps t pipes).
Proof.
  induction pipes as [|p pipes IH]; intros t; [reflexivity|].
  destruct p; simpl.
  - apply IH.
  - change (max_of (reported pipes) <= Z.max t (max_of (drive_temps t pipes))).
    specialize (IH t). lia.
  - change (Z.max n (max_of (reported pipes))
            <= Z.max n (max_of (drive_temps n pipes))).
    specialize (IH n). lia.
Qed.

(** ** Facts about rounding and division *)

Module RoundingFacts.

Lemma Zdigits2_bounds m :
  0 < m -> 2 ^ (Zdigits2 m - 1) <= m < 2 ^ Zdigits2 m.
Proof.
  destruct m as [|p|p]; try lia. intros _. apply digits2_pos_bounds.
Qed.

Lemma Zdigits2_pos m : 0 < m -> 1 <= Zdigits2 m.
Proof. destruct m as [|p|p]; try lia. intros _. simpl. lia. Qed.

Lemma Zdigits2_unique m d :
  0 < m -> 2 ^ (d - 1) <= m < 2 ^ d -> Zdigits2 m = d.
Proof.
  intros Hm [Hlo Hhi].
  pose proof (Zdigits2_bounds m Hm) as [Hlo' Hhi'].
  pose proof (Zdigits2_pos m Hm) as Hd'.
  set (d' := Zdigits2 m) in *.
  destruct (Z.lt_trichotomy d' d) as [Hlt|[Heq|Hgt]]; [|assumption|].
  - assert (2 ^ d' <= 2 ^ (d - 1)) by (apply Z.pow_le_mono_r; lia). lia.
  - destruct (Z.le_gt_cases d 0) as [Hd|Hd].
    + assert (2 ^ d <= 2 ^ 0) by (apply Z.pow_le_mono_r; lia).
      change (2 ^ 0) with 1 in *. lia.
    + assert (2 ^ d <= 2 ^ (d' - 1)) by (apply Z.pow_le_mono_r; lia). lia.
Qed.

Lemma Zdigits2_shift m k :
  0 < m -> 0 <= k < Zdigits2 m ->
  0 < m / 2 ^ k /\ Zdigits2 (m / 2 ^ k) = Zdigits2 m - k.
Proof.
  intros Hm Hk.
  pose proof (Zdigits2_bounds m Hm) as [Hlo Hhi].
  set (d := Zdigits2 m) in *.
  assert (Hp : 0 < 2 ^ k) by (apply Z.pow_pos_nonneg; lia).
  assert (Hlo' : 2 ^ (d - k - 1) <= m / 2 ^ k).
  { apply Z.div_le_lower_bound; [assumption|].
    rewrite <- Z.pow_add_r by lia. replace (k + (d - k - 1)) with (d - 1) by lia.
    assumption. }
  assert (Hhi' : m / 2 ^ k < 2 ^ (d - k)).
  { apply Z.div_lt_upper_bound; [assumption|].
    rewrite <- Z.pow_add_r by lia. replace (k + (d - k)) with d by lia.
    assumption. }
  assert (Hq : 0 < m / 2 ^ k).
  { assert (0 < 2 ^ (d - k - 1)) by (apply Z.pow_pos_nonneg; lia). lia. }
  split; [assumption|]. now apply Zdigits2_unique.
Qed.

Lemma Zdigits2_succ m :
  0 < m -> Zdigits2 m <= Zdigits2 (m + 1) <= Zdigits2 m + 1.
Proof.
  intros Hm.
  pose proof (Zdigits2_bounds m Hm) as [Hlo Hhi].
  pose proof (Zdigits2_pos m Hm) as Hd.
  set (d := Zdigits2 m) in *.
  destruct (Z.eq_dec (m + 1) (2 ^ d)) as [E|E].
  - rewrite (Zdigits2_unique (m + 1) (d + 1)); [lia|lia|].
    replace (d + 1 - 1) with d by lia. rewrite E.
    replace (d + 1) with (Z.succ d) by lia. rewrite Z.pow_succ_r by lia.
    assert (0 < 2 ^ d) by (apply Z.pow_pos_nonneg; lia). lia.
  - rewrite (Zdigits2_unique (m + 1) d); [lia|lia|lia].
Qed.

Lemma shr_1_m mrs : 0 <= shr_m mrs -> shr_m (shr_1 mrs) = shr_m mrs / 2.
Proof.
  destruct mrs as [m r s]. cbn [shr_m]. intros Hm.
  destruct m as [|[p|p|]|p]; try lia; cbn [shr_1 shr_m].
  - reflexivity.
  - rewrite Pos2Z.inj_xI. apply Z.div_unique with 1; lia.
  - rewrite Pos2Z.inj_xO. apply Z.div_unique with 0; lia.
  - reflexivity.
Qed.

Lemma iter_pos_shr_1_m k : forall mrs,
  0 <= shr_m mrs ->
  shr_m (SpecFloat.iter_pos shr_1 k mrs) = shr_m mrs / 2 ^ Z.pos k.
Proof.
  induction k as [k IH|k IH|]; intros mrs Hm; cbn [SpecFloat.iter_pos].
  - pose proof (shr_1_nonneg mrs Hm) as H1.
    pose proof (iter_pos_shr_1_nonneg k _ H1) as H2.
    rewrite IH, IH, shr_1_m by assumption.
    rewrite !Z.div_div by (try apply Z.pow_pos_nonneg; lia).
    f_equal. rewrite Pos2Z.inj_xI, <- Z.pow_add_r, <- Z.pow_succ_r by lia.
    f_equal. lia.
  - pose proof (iter_pos_shr_1_nonneg k _ Hm) as H2.
    rewrite IH, IH by assumption.
    rewrite !Z.div_div by (try apply Z.pow_pos_nonneg; lia).
    f_equal. rewrite Pos2Z.inj_xO, <- Z.pow_add_r by lia.
    f_equal. lia.
  - now rewrite shr_1_m.
Qed.

(** The exponent of the format for a number of magnitude [2 ^ D]. *)
Lemma fexp_eq D : fexp prec emax D = Z.max (D - 53) (-1074).
Proof. reflexivity. Qed.

(** A shift to the exponent of the format keeps a mantissa positive and
    the magnitude as it is, from the least magnitude of the format on. *)
Lemma shr_fexp_spec m e l :
  0 < m -> -1074 < Zdigits2 m + e ->
  0 < shr_m (fst (shr_fexp prec emax m e l)) /\
  snd (shr_fexp prec emax m e l) = Z.max e (fexp prec emax (Zdigits2 m + e)) /\
  Zdigits2 (shr_m (fst (shr_fexp prec emax m e l))) + snd (shr_fexp prec emax m e l)
  = Zdigits2 m + e.
Proof.
  intros Hm HD. unfold shr_fexp. rewrite fexp_eq.
  set (D := Zdigits2 m + e) in *.
  pose proof (Zdigits2_pos m Hm) as Hd.
  unfold shr.
  destruct (Z.max (D - 53) (-1074) - e) as [|k|k] eqn:Ek; cbn [fst snd].
  - rewrite shr_record_of_loc_m. split; [assumption|]. split; lia.
  - rewrite iter_pos_shr_1_m by (rewrite shr_record_of_loc_m; lia).
    rewrite shr_record_of_loc_m.
    destruct (Zdigits2_shift m (Z.pos k) Hm) as [Hq Hdq]; [unfold D in *; lia|].
    split; [assumption|]. split; [lia|]. rewrite Hdq. unfold D. lia.
  - rewrite shr_record_of_loc_m. split; [assumption|]. split; lia.
Qed.

Lemma round_nearest_even_cases m l :
  round_nearest_even m l = m \/ round_nearest_even m l = m + 1.
Proof.
  destruct l as [|[ | | ]]; simpl; auto. destruct (Z.even m); auto.
Qed.

(** Rounding a positive number of a magnitude within the format gives a
    finite number that is not zero, of the same magnitude or the next. *)
Lemma binary_round_aux_finite s m e l :
  0 < m -> -1074 < Zdigits2 m + e <= 1023 -> e <= 971 ->
  exists m' e',
    binary_round_aux prec emax s m e l = S754_finite s m' e' /\
    Zdigits2 m + e <= Z.pos (digits2_pos m') + e' <= Zdigits2 m + e + 1.
Proof.
  intros Hm HD He. unfold binary_round_aux.
  destruct (shr_fexp_spec m e l Hm ltac:(lia)) as (Hm1 & He1 & HD1).
  destruct (shr_fexp prec emax m e l) as [mrs1 e1]. cbn [fst snd] in *.
  set (m2 := round_nearest_even (shr_m mrs1) (loc_of_shr_record mrs1)).
  assert (Hm2 : 0 < m2 /\
                Zdigits2 (shr_m mrs1) <= Zdigits2 m2 <= Zdigits2 (shr_m mrs1) + 1).
  { unfold m2.
    destruct (round_nearest_even_cases (shr_m mrs1) (loc_of_shr_record mrs1)) as [-> | ->].
    - split; lia.
    - split; [lia|]. now apply Zdigits2_succ. }
  destruct Hm2 as [Hm2 Hd2].
  destruct (shr_fexp_spec m2 e1 loc_Exact Hm2 ltac:(lia)) as (Hm3 & He3 & HD3).
  destruct (shr_fexp prec emax m2 e1 loc_Exact) as [mrs3 e3]. cbn [fst snd] in *.
  rewrite fexp_eq in He1, He3.
  destruct (shr_m mrs3) as [|p|p] eqn:Ep; try lia.
  assert (Hle : e3 <= emax - prec) by (unfold emax, prec; lia).
  apply Z.leb_le in Hle. rewrite Hle.
  exists p, e3. split; [reflexivity|]. cbn [Zdigits2] in HD3. lia.
Qed.

(** The conversion of a positive integer of at most 63 bits. *)
Lemma binary_normalize_pos p :
  Z.pos p < 2 ^ 63 ->
  exists m e,
    binary_normalize prec emax (Z.pos p) 0 false = S754_finite false m e /\
    1 <= Z.pos (digits2_pos m) + e <= 64.
Proof.
  intros Hp. unfold binary_normalize, binary_round.
  pose proof (digits2_pos_bounds p) as Hb.
  set (d := Z.pos (digits2_pos p)) in *.
  assert (Hd : 1 <= d <= 63).
  { split; [unfold d; lia|].
    destruct (Z.le_gt_cases d 63) as [|Hgt]; [assumption|].
    assert (2 ^ 63 <= 2 ^ (d - 1)) by (apply Z.pow_le_mono_r; lia). lia. }
  rewrite fexp_eq. unfold shl_align.
  destruct (Z.max (d + 0 - 53) (-1074) - 0) as [|k|k] eqn:Ek.
  - destruct (binary_round_aux_finite false (Z.pos p) 0 loc_Exact) as (m & e & -> & H);
      cbn [Zdigits2]; fold d; try lia.
    exists m, e. split; [reflexivity|]. cbn [Zdigits2] in H. fold d in H. lia.
  - destruct (binary_round_aux_finite false (Z.pos p) 0 loc_Exact) as (m & e & -> & H);
      cbn [Zdigits2]; fold d; try lia.
    exists m, e. split; [reflexivity|]. cbn [Zdigits2] in H. fold d in H. lia.
  - destruct (binary_round_aux_finite false (Z.pos (Pos.iter xO p k))
                (Z.max (d + 0 - 53) (-1074)) loc_Exact) as (m & e & -> & H);
      cbn [Zdigits2]; rewrite ?iter_xO_digits, ?Pos2Z.inj_add; fold d; try lia.
    exists m, e. split; [reflexivity|].
    cbn [Zdigits2] in H. rewrite iter_xO_digits, Pos2Z.inj_add in H. fold d in H. lia.
Qed.

Lemma of_Z_to_Z z : 0 <= z < 2 ^ 63 -> to_Z (Uint63.of_Z z) = z.
Proof.
  intros Hz. rewrite Uint63.of_Z_spec. apply Z.mod_small.
  change wB with (2 ^ 63). lia.
Qed.

(** [long long] to [double]: 0 for 0, and otherwise a finite number that is
    not zero, of the sign of the integer and of a magnitude between 1 and
    [2 ^ 64]. *)
Lemma of_ll_SF z :
  - 2 ^ 63 <= z < 2 ^ 63 ->
  if z =? 0 then Prim2SF (of_ll z) = S754_zero false
  else exists m e,
         Prim2SF (of_ll z) = S754_finite (z <? 0) m e /\
         1 <= Z.pos (digits2_pos m) + e <= 64.
Proof.
  intros Hz. unfold of_ll.
  destruct (Z.eqb_spec z 0) as [->|Hnz]; [reflexivity|].
  destruct (Z.eqb_spec z (-9223372036854775808)) as [->|Hmin].
  { exists 4503599627370496%positive, 11. split; [reflexivity|]. simpl. lia. }
  change (2 ^ 63) with 9223372036854775808 in Hz.
  destruct (Z.ltb_spec z 0) as [Hneg|Hpos].
  - rewrite FloatAxioms.opp_spec, of_uint63_spec.
    rewrite of_Z_to_Z by (change (2 ^ 63) with 9223372036854775808; lia).
    destruct (- z) as [|p|p] eqn:Ez; try lia.
    destruct (binary_normalize_pos p) as (m & e & -> & H);
      [change (2 ^ 63) with 9223372036854775808; lia|].
    exists m, e. split; [reflexivity|assumption].
  - rewrite of_uint63_spec.
    rewrite of_Z_to_Z by (change (2 ^ 63) with 9223372036854775808; lia).
    destruct z as [|p|p]; try lia.
    destruct (binary_normalize_pos p) as (m & e & -> & H);
      [change (2 ^ 63) with 9223372036854775808; lia|].
    exists m, e. split; [reflexivity|assumption].
Qed.

(** A number of the format, of a magnitude between 1 and [2 ^ 64], divided
    by 1000000000: a finite number that is not zero, of the same sign. *)
Lemma div_1e9_finite s m e :
  bounded prec emax m e = true ->
  1 <= Z.pos (digits2_pos m) + e <= 64 ->
  exists m' e',
    SFdiv prec emax (S754_finite s m e) (Prim2SF 1000000000)
    = S754_finite s m' e' /\
    -29 <= Z.pos (digits2_pos m') + e' <= 36.
Proof.
  intros Hb HD.
  change (Prim2SF 1000000000) with (S754_finite false 8388608000000000 (-23)).
  unfold SFdiv, SFdiv_core_binary.
  destruct (bounded_facts m e Hb) as (He & Hhi & Hlo).
  assert (Hc : e = Z.pos (digits2_pos m) + e - 53).
  { unfold bounded, canonical_mantissa in Hb. apply andb_true_iff in Hb as [Hc _].
    apply Z.eqb_eq in Hc. rewrite fexp_eq in Hc. lia. }
  assert (Hd : Z.pos (digits2_pos m) = 53) by lia.
  specialize (Hlo ltac:(lia)).
  cbn [Zdigits2]. rewrite Hd.
  change (Z.pos (digits2_pos 8388608000000000)) with 53.
  rewrite fexp_eq.
  replace (Z.min (Z.max (53 + e - (53 + -23) - 53) (-1074)) (e - -23))
    with (e - 30) by lia.
  replace (e - -23 - (e - 30)) with 53 by lia.
  cbv iota.
  rewrite Z.shiftl_mul_pow2 by lia.
  set (n := Z.pos m * 2 ^ 53).
  pose proof (Z.div_eucl_eq n 8388608000000000 ltac:(lia)) as Hq.
  pose proof (Z.mod_pos_bound n 8388608000000000 ltac:(lia)) as Hr.
  unfold Z.modulo in Hr.
  destruct (Z.div_eucl n 8388608000000000) as [q r].
  change (2 ^ 53) with 9007199254740992 in *.
  change (2 ^ 52) with 4503599627370496 in *.
  assert (Hqlo : 2 ^ 52 <= q) by (change (2 ^ 52) with 4503599627370496; unfold n in *; nia).
  assert (Hqhi : q < 2 ^ 54) by (change (2 ^ 54) with 18014398509481984; unfold n in *; nia).
  assert (Hdq : 53 <= Zdigits2 q <= 54).
  { change (2 ^ 52) with 4503599627370496 in Hqlo.
    destruct (Z.lt_ge_cases q (2 ^ 53)).
    - rewrite (Zdigits2_unique q 53); [lia|lia|].
      change (2 ^ (53 - 1)) with 4503599627370496. lia.
    - rewrite (Zdigits2_unique q 54); [lia|lia|].
      change (2 ^ (54 - 1)) with (2 ^ 53). lia. }
  destruct (binary_round_aux_finite (xorb s false) q (e - 30)
              (new_location 8388608000000000 r)) as (m' & e' & -> & Hm'); try lia.
  exists m', e'. rewrite xorb_false_r. split; [reflexivity|lia].
Qed.

End RoundingFacts.

Import RoundingFacts.

(** ** Facts about the time difference *)

(** The [long long] of lines 393-394. *)
Lemma wrap_ll_range z : - 2 ^ 63 <= wrap_ll z < 2 ^ 63.
Proof.
  unfold wrap_ll, wrap_signed.
  pose proof (Z.mod_pos_bound (z + 2 ^ (64 - 1)) (2 ^ 64) ltac:(lia)).
  change (2 ^ (64 - 1)) with (2 ^ 63) in *.
  change (2 ^ 64) with (2 * 2 ^ 63) in *. lia.
Qed.

Lemma wrap_ll_id z : - 2 ^ 63 <= z < 2 ^ 63 -> wrap_ll z = z.
Proof.
  intros Hz. unfold wrap_ll, wrap_signed.
  change (2 ^ (64 - 1)) with (2 ^ 63).
  rewrite Z.mod_small; [lia|]. change (2 ^ 64) with (2 * 2 ^ 63). lia.
Qed.

Lemma time_diff_SF curtime lasttime :
  let ns := elapsed curtime lasttime in
  if ns =? 0 then Prim2SF (time_diff curtime lasttime) = S754_zero false
  else exists m e,
         Prim2SF (time_diff curtime lasttime) = S754_finite (ns <? 0) m e /\
         -29 <= Z.pos (digits2_pos m) + e <= 36.
Proof.
  intros ns. unfold time_diff. fold (elapsed curtime lasttime). fold ns.
  rewrite FloatAxioms.div_spec.
  pose proof (of_ll_SF ns (wrap_ll_range _)) as H.
  pose proof (Prim2SF_valid (of_ll ns)) as Hv.
  destruct (ns =? 0).
  - rewrite H. reflexivity.
  - destruct H as (m & e & Hx & HD). rewrite Hx in Hv |- *.
    apply div_1e9_finite; assumption.
Qed.

Lemma time_diff_zero curtime lasttime :
  (time_diff curtime lasttime =? 0)%float = (elapsed curtime lasttime =? 0).
Proof.
  rewrite FloatAxioms.eqb_spec.
  pose proof (time_diff_SF curtime lasttime) as H. cbv zeta in H.
  destruct (elapsed curtime lasttime =? 0).
  - rewrite H. reflexivity.
  - destruct H as (m & e & -> & _). destruct (_ <? 0); reflexivity.
Qed.

Lemma time_diff_finite curtime lasttime :
  isfinite (time_diff curtime lasttime) = true.
Proof.
  unfold isfinite.
  pose proof (time_diff_SF curtime lasttime) as H. cbv zeta in H.
  destruct (elapsed curtime lasttime =? 0).
  - rewrite H. reflexivity.
  - destruct H as (m & e & -> & _). reflexivity.
Qed.

Lemma time_diff_positive curtime lasttime :
  (0 <? time_diff curtime lasttime)%float = (0 <? elapsed curtime lasttime).
Proof.
  rewrite FloatAxioms.ltb_spec.
  pose proof (time_diff_SF curtime lasttime) as H. cbv zeta in H.
  destruct (Z.eqb_spec (elapsed curtime lasttime) 0) as [E|E].
  - rewrite H, E. reflexivity.
  - destruct H as (m & e & -> & _).
    change (Prim2SF 0) with (S754_zero false).
    destruct (Z.ltb_spec (elapsed curtime lasttime) 0),
             (Z.ltb_spec 0 (elapsed curtime lasttime)); try lia; reflexivity.
Qed.

(** ** Facts about the integral in the loop *)

Lemma within_imax_init c :
  (0 <=? imax c)%float = true -> within_imax c pid_init = true.
Proof.
  intros H0. unfold within_imax, pid_init. cbn [integral].
  rewrite H0, andb_true_r.
  rewrite FloatAxioms.leb_spec, FloatAxioms.opp_spec in *.
  change (Prim2SF 0) with (S754_zero false) in *.
  destruct (Prim2SF (imax c)) as [s|s| |s m e]; simpl in *;
    try discriminate; try reflexivity; destruct s; try discriminate; reflexivity.
Qed.

Lemma control_integral c st t st' tr :
  isfinite (imax c) = true -> (0 <=? imax c)%float = true ->
  within_imax c (pid st) = true ->
  control c st t = Ok (st', tr) -> within_imax c (pid st') = true.
Proof.
  intros Hf H0 Hw. unfold control.
  destruct (time_diff t (lasttime st) =? 0)%float.
  - intros H. injection H as <- _. exact Hw.
  - pose proof (new_integral_within c
        (of_int (wrap_int (maxtemp st - setpoint c)))
        (time_diff t (lasttime st)) (pid st) Hf H0
        (within_imax_finite c (pid st) Hf Hw)
        (proj1 (of_int_SF _ (wrap_int_range _)))
        (time_diff_finite t (lasttime st))) as Hn.
    destruct (calculate_new_pwm _ _ _ _) as [pid' [newPWM|f]]; [|discriminate].
    intros H. injection H as <- _. exact Hn.
Qed.

Lemma iteration_integral c st inp st' tr :
  isfinite (imax c) = true -> (0 <=? imax c)%float = true ->
  within_imax c (pid st) = true ->
  iteration c st inp = Ok (st', tr) -> within_imax c (pid st') = true.
Proof.
  intros Hf H0 Hw. unfold iteration.
  destruct (poll c st inp) as [st1|] eqn:Hp; [|discriminate].
  cbn [mbind result_bind]. intros Hc.
  destruct (poll_frame _ _ _ _ Hp) as (Hpid & _).
  rewrite <- Hpid in Hw. exact (control_integral _ _ _ _ _ Hf H0 Hw Hc).
Qed.

Lemma loop_integral c inps : forall st st',
  isfinite (imax c) = true -> (0 <=? imax c)%float = true ->
  within_imax c (pid st) = true ->
  snd (loop c st inps) = Ok st' -> within_imax c (pid st') = true.
Proof.
  induction inps as [|inp inps IH]; intros st st' Hf H0 Hw; cbn [loop].
  - intros H. injection H as <-. exact Hw.
  - destruct (iteration c st inp) as [[st1 tr]|f] eqn:Hi; [|discriminate].
    pose proof (iteration_integral _ _ _ _ _ Hf H0 Hw Hi) as Hw1.
    specialize (IH st1 st' Hf H0 Hw1).
    destruct (loop c st1 inps) as [tr' r]. exact IH.
Qed.

Lemma elapsed_nanoseconds curtime lasttime :
  valid_time curtime = true -> valid_time lasttime = true ->
  elapsed curtime lasttime = nanoseconds curtime - nanoseconds lasttime.
Proof.
  unfold valid_time. rewrite !andb_true_iff, !Z.leb_le, !Z.ltb_lt.
  intros [[[Hs1 Hs2] Hn1] Hn2] [[[Ht1 Ht2] Hm1] Hm2].
  unfold elapsed, nanoseconds.
  change (2 ^ 32) with 4294967296 in *.
  rewrite (wrap_ll_id (tv_sec curtime - tv_sec lasttime))
    by (change (2 ^ 63) with 9223372036854775808; lia).
  rewrite (wrap_ll_id (1000000000 * _))
    by (change (2 ^ 63) with 9223372036854775808; lia).
  rewrite (wrap_ll_id (tv_nsec curtime - tv_nsec lasttime))
    by (change (2 ^ 63) with 9223372036854775808; lia).
  rewrite wrap_ll_id by (change (2 ^ 63) with 9223372036854775808; lia).
  lia.
Qed.

(** ** Facts about the events *)

Lemma wrap_u16_range z : 0 <= wrap_u16 z < 65536.
Proof. unfold wrap_u16. apply Z.mod_pos_bound. lia. Qed.

Lemma outb_on_ports ports v p :
  wrap_u16 p ∈ ports -> Forall (on_ports ports) (outb v p).
Proof.
  intros H. unfold outb. constructor; [|constructor].
  split; [exact H|apply wrap_u8_range].
Qed.

Lemma ecwrite_on_ports ports base reg v :
  wrap_u16 (base + 5) ∈ ports -> wrap_u16 (base + 6) ∈ ports ->
  Forall (on_ports ports) (ecwrite base reg v).
Proof.
  intros H5 H6. unfold ecwrite. apply Forall_app. split; now apply outb_on_ports.
Qed.

Lemma iterations_on_ports ports base seconds tr :
  wrap_u16 (base + 5) ∈ ports -> wrap_u16 (base + 6) ∈ ports ->
  iterations_trace base seconds tr -> Forall (on_ports ports) tr.
Proof.
  intros H5 H6. induction 1 as [|tr _ IH|v tr _ _ IH].
  - constructor.
  - constructor; [exact I|exact IH].
  - apply Forall_app. split.
    + unfold pwm_writes. apply Forall_app. split; now apply ecwrite_on_ports.
    + constructor; [exact I|exact IH].
Qed.

Lemma sleeps_app tr1 tr2 : sleeps (tr1 ++ tr2) = sleeps tr1 ++ sleeps tr2.
Proof. unfold sleeps. apply omap_app. Qed.

Lemma sleeps_pwm_writes base v : sleeps (pwm_writes base v) = [].
Proof. reflexivity. Qed.

Lemma loop_sleeps c inps : forall st,
  exists k,
    sleeps (fst (loop c st inps)) = replicate k (interval c) /\
    (k <= length inps)%nat /\
    (is_ok (snd (loop c st inps)) = true -> k = length inps).
Proof.
  induction inps as [|inp inps IH]; intros st; cbn [loop].
  - exists 0%nat. repeat split. lia.
  - destruct (iteration c st inp) as [[st' tr]|f] eqn:Hi.
    + destruct (IH st') as (k & Hs & Hk & Hok).
      destruct (iteration_events _ _ _ _ _ Hi) as [_ [->|(v & _ & ->)]];
        destruct (loop c st' inps) as [tr' r]; cbn [fst snd] in *;
        exists (S k); rewrite ?sleeps_app, ?sleeps_pwm_writes;
        cbn [sleeps omap list_omap app replicate length];
        fold (sleeps tr'); rewrite Hs;
        (split; [reflexivity|]); (split; [lia|]); intros H; f_equal; auto.
    + exists 0%nat. cbn [fst snd is_ok length]. repeat split; [lia|discriminate].
Qed.

(** ** Facts about magnitudes *)

Module MagnitudeFacts.

Lemma Zdigits2_nonneg m : 0 <= Zdigits2 m.
Proof. destruct m; simpl; lia. Qed.

Lemma Zdigits2_lt_pow m k : 0 <= m -> 0 <= k -> m < 2 ^ k -> Zdigits2 m <= k.
Proof.
  intros Hm Hk Hlt. destruct (Z.eq_dec m 0) as [->|Hnz]; [simpl; lia|].
  pose proof (Zdigits2_bounds m ltac:(lia)) as [Hlo _].
  pose proof (Zdigits2_pos m ltac:(lia)) as Hd.
  assert (H : 2 ^ (Zdigits2 m - 1) < 2 ^ k) by lia.
  apply Z.pow_lt_mono_r_iff in H; lia.
Qed.

Lemma Zdigits2_abs z : Zdigits2 z = Zdigits2 (Z.abs z).
Proof. destruct z; reflexivity. Qed.

Lemma pow2_pos k : 0 <= k -> 0 < 2 ^ k.
Proof. intros. apply Z.pow_pos_nonneg; lia. Qed.

Lemma pow2_le a b : 0 <= a <= b -> 2 ^ a <= 2 ^ b.
Proof. intros. apply Z.pow_le_mono_r; lia. Qed.

Lemma SFbelow_mono x D D' : D <= D' -> SFbelow x D = true -> SFbelow x D' = true.
Proof.
  unfold SFbelow. rewrite !andb_true_iff, !Z.ltb_lt. intros HD [Hf Hs].
  split; [assumption|].
  destruct (Z.le_gt_cases 0 (D + 1074)) as [H0|H0].
  - pose proof (pow2_le (D + 1074) (D' + 1074) ltac:(lia)). lia.
  - rewrite Z.pow_neg_r in Hs by lia. lia.
Qed.

Lemma SFbelow_zero s D : -1074 <= D -> SFbelow (S754_zero s) D = true.
Proof.
  intros HD. unfold SFbelow. simpl. apply Z.ltb_lt. apply pow2_pos. lia.
Qed.

Lemma SFbelow_finite s m e D :
  -1074 <= e -> Z.pos (digits2_pos m) + e <= D ->
  SFbelow (S754_finite s m e) D = true.
Proof.
  intros He HD. unfold SFbelow. cbn [SFfinite andb SFscaled]. apply Z.ltb_lt.
  pose proof (digits2_pos_bounds m) as [_ Hhi].
  set (d := Z.pos (digits2_pos m)) in *.
  assert (Hd : 1 <= d) by (unfold d; lia).
  pose proof (pow2_pos (e + 1074) ltac:(lia)) as Hp.
  assert (Hlt : Z.pos m * 2 ^ (e + 1074) < 2 ^ (d + (e + 1074))).
  { rewrite (Z.pow_add_r 2 d (e + 1074)) by lia.
    apply Z.mul_lt_mono_pos_r; assumption. }
  pose proof (pow2_le (d + (e + 1074)) (D + 1074) ltac:(lia)).
  assert (0 <= Z.pos m * 2 ^ (e + 1074)) by (apply Z.mul_nonneg_nonneg; lia).
  destruct s; lia.
Qed.

Lemma SFbelow_digits s m e D :
  -1074 <= e -> SFbelow (S754_finite s m e) D = true ->
  Z.pos (digits2_pos m) + e <= D.
Proof.
  intros He. unfold SFbelow. cbn [SFfinite andb SFscaled]. rewrite Z.ltb_lt.
  pose proof (digits2_pos_bounds m) as [Hlo _].
  set (d := Z.pos (digits2_pos m)) in *.
  assert (Hd : 1 <= d) by (unfold d; lia).
  pose proof (pow2_pos (e + 1074) ltac:(lia)) as Hp.
  assert (Hge : 2 ^ (d - 1 + (e + 1074)) <= Z.pos m * 2 ^ (e + 1074)).
  { rewrite (Z.pow_add_r 2 (d - 1) (e + 1074)) by lia.
    apply Z.mul_le_mono_nonneg_r; lia. }
  intros Hs.
  assert (Hlt : 2 ^ (d - 1 + (e + 1074)) < 2 ^ (D + 1074)) by (destruct s; lia).
  destruct (Z.le_gt_cases 0 (D + 1074)) as [H0|H0].
  - apply Z.pow_lt_mono_r_iff in Hlt; lia.
  - rewrite (Z.pow_neg_r 2 (D + 1074)) in Hlt by lia.
    pose proof (pow2_pos (d - 1 + (e + 1074)) ltac:(lia)). lia.
Qed.

(** What [valid_binary] says of the exponent. *)
Lemma bounded_canonical m e :
  bounded prec emax m e = true ->
  e = Z.max (Z.pos (digits2_pos m) + e - 53) (-1074) /\ e <= 971.
Proof.
  unfold bounded, canonical_mantissa. rewrite andb_true_iff, Z.eqb_eq, Z.leb_le.
  rewrite fexp_eq. unfold emax, prec. lia.
Qed.

Lemma Zdigits2_succ_le m : 0 <= m -> Zdigits2 (m + 1) <= Zdigits2 m + 1.
Proof.
  intros Hm. destruct (Z.eq_dec m 0) as [->|Hnz]; [simpl; lia|].
  apply Zdigits2_succ. lia.
Qed.

(** The shift to the exponent of the format, for every mantissa. *)
Lemma shr_fexp_mag m e l :
  0 <= m ->
  0 <= shr_m (fst (shr_fexp prec emax m e l)) /\
  snd (shr_fexp prec emax m e l) = Z.max e (fexp prec emax (Zdigits2 m + e)) /\
  Zdigits2 (shr_m (fst (shr_fexp prec emax m e l))) + snd (shr_fexp prec emax m e l)
  <= Z.max (Zdigits2 m + e) (snd (shr_fexp prec emax m e l)).
Proof.
  intros Hm. split; [now apply shr_fexp_nonneg|].
  unfold shr_fexp. rewrite fexp_eq.
  set (D := Zdigits2 m + e) in *.
  pose proof (Zdigits2_nonneg m) as Hd.
  unfold shr.
  destruct (Z.max (D - 53) (-1074) - e) as [|k|k] eqn:Ek; cbn [fst snd].
  - rewrite shr_record_of_loc_m. split; lia.
  - rewrite iter_pos_shr_1_m by (rewrite shr_record_of_loc_m; lia).
    rewrite shr_record_of_loc_m. split; [lia|].
    destruct (Z.eq_dec m 0) as [->|Hnz].
    { rewrite Z.div_0_l by (apply Z.pow_nonzero; lia). simpl. lia. }
    destruct (Z.lt_ge_cases (Z.pos k) (Zdigits2 m)) as [Hlt|Hge].
    + destruct (Zdigits2_shift m (Z.pos k) ltac:(lia) ltac:(lia)) as [_ ->].
      unfold D. lia.
    + pose proof (Zdigits2_bounds m ltac:(lia)) as [_ Hhi].
      pose proof (pow2_le (Zdigits2 m) (Z.pos k) ltac:(lia)).
      rewrite Z.div_small by lia. simpl. lia.
  - rewrite shr_record_of_loc_m. split; lia.
Qed.

(** Rounding gives a finite number, below the next power of two. *)
Lemma binary_round_aux_below s m e l D :
  0 <= m -> Zdigits2 m + e <= D -> -1074 <= D <= 1023 -> e <= 971 ->
  SFbelow (binary_round_aux prec emax s m e l) (D + 1) = true.
Proof.
  intros Hm HD HDr He. unfold binary_round_aux.
  pose proof (Zdigits2_nonneg m) as Hd.
  destruct (shr_fexp_mag m e l Hm) as (Hm1 & He1 & HD1).
  destruct (shr_fexp prec emax m e l) as [mrs1 e1]. cbn [fst snd] in *.
  set (m2 := round_nearest_even (shr_m mrs1) (loc_of_shr_record mrs1)).
  assert (Hm2 : 0 <= m2 /\ Zdigits2 m2 <= Zdigits2 (shr_m mrs1) + 1).
  { unfold m2.
    destruct (round_nearest_even_cases (shr_m mrs1) (loc_of_shr_record mrs1)) as [-> | ->].
    - split; lia.
    - split; [lia|]. now apply Zdigits2_succ_le. }
  destruct Hm2 as [Hm2 Hd2].
  destruct (shr_fexp_mag m2 e1 loc_Exact Hm2) as (Hm3 & He3 & HD3).
  destruct (shr_fexp prec emax m2 e1 loc_Exact) as [mrs3 e3]. cbn [fst snd] in *.
  rewrite fexp_eq in He1, He3.
  pose proof (Zdigits2_nonneg m2) as Hd2'.
  destruct (shr_m mrs3) as [|p|p] eqn:Ep; try lia.
  - apply SFbelow_zero. lia.
  - assert (Hle : e3 <= emax - prec) by (unfold emax, prec; lia).
    apply Z.leb_le in Hle. rewrite Hle.
    cbn [Zdigits2] in HD3. apply SFbelow_finite; lia.
Qed.

Lemma binary_normalize_below z e sz D :
  Zdigits2 z + e <= D -> -1074 <= D <= 1023 -> e <= 971 ->
  SFbelow (binary_normalize prec emax z e sz) (D + 1) = true.
Proof.
  intros HD HDr He.
  assert (Hr : forall sx p, Z.pos (digits2_pos p) + e <= D ->
                 SFbelow (binary_round prec emax sx p e) (D + 1) = true).
  { intros sx p Hp. unfold binary_round. rewrite fexp_eq. unfold shl_align.
    destruct (Z.max (Z.pos (digits2_pos p) + e - 53) (-1074) - e) as [|k|k] eqn:Ek.
    - apply binary_round_aux_below; cbn [Zdigits2]; lia.
    - apply binary_round_aux_below; cbn [Zdigits2]; lia.
    - apply binary_round_aux_below; cbn [Zdigits2];
        rewrite ?iter_xO_digits, ?Pos2Z.inj_add; lia. }
  destruct z as [|p|p]; cbn [binary_normalize].
  - apply SFbelow_zero. lia.
  - apply Hr. exact HD.
  - apply Hr. exact HD.
Qed.

Lemma shl_align_value mx ex ez :
  ez <= ex -> Z.pos (fst (shl_align mx ex ez)) = Z.pos mx * 2 ^ (ex - ez).
Proof.
  intros H. unfold shl_align.
  destruct (ez - ex) as [|k|k] eqn:Ek; cbn [fst]; try lia.
  - replace (ex - ez) with 0 by lia. simpl. lia.
  - rewrite iter_xO_value. f_equal. f_equal. lia.
Qed.

(** The sum or the difference of two integers below a power of two. *)
Lemma aligned_sum_digits (X Y z k e : Z) :
  0 <= X < 2 ^ (k - e) -> 0 <= Y < 2 ^ (k - e) -> Z.abs z <= X + Y ->
  e <= k -> Zdigits2 z + e <= k + 1.
Proof.
  intros HX HY Hz Hk. rewrite Zdigits2_abs.
  assert (Z.abs z < 2 ^ (k - e + 1)).
  { rewrite (Z.pow_add_r 2 (k - e) 1) by lia. change (2 ^ 1) with 2. lia. }
  pose proof (Zdigits2_lt_pow (Z.abs z) (k - e + 1) ltac:(lia) ltac:(lia) ltac:(lia)).
  lia.
Qed.

Lemma aligned_bound m e ez k :
  -1074 <= ez <= e -> Z.pos (digits2_pos m) + e <= k ->
  0 <= Z.pos m * 2 ^ (e - ez) < 2 ^ (k - ez).
Proof.
  intros He Hk.
  pose proof (digits2_pos_bounds m) as [_ Hhi].
  set (d := Z.pos (digits2_pos m)) in *.
  assert (Hd : 1 <= d) by (unfold d; lia).
  pose proof (pow2_pos (e - ez) ltac:(lia)) as Hp.
  split; [apply Z.mul_nonneg_nonneg; lia|].
  apply Z.lt_le_trans with (2 ^ (d + (e - ez))).
  - rewrite (Z.pow_add_r 2 d (e - ez)) by lia.
    apply Z.mul_lt_mono_pos_r; assumption.
  - apply pow2_le. lia.
Qed.

Lemma aligned_op_below sx mx ex sy my ey a b (op : Z -> Z -> Z) :
  bounded prec emax mx ex = true -> bounded prec emax my ey = true ->
  SFbelow (S754_finite sx mx ex) a = true ->
  SFbelow (S754_finite sy my ey) b = true ->
  -1074 <= Z.max a b -> Z.max a b + 1 <= 1023 ->
  (forall u v, Z.abs (op u v) <= Z.abs u + Z.abs v) ->
  SFbelow
    (binary_normalize prec emax
       (op (cond_Zopp sx (Z.pos (fst (shl_align mx ex (Z.min ex ey)))))
           (cond_Zopp sy (Z.pos (fst (shl_align my ey (Z.min ex ey))))))
       (Z.min ex ey) false)
    (Z.max a b + 2) = true.
Proof.
  intros Vx Vy Hx Hy Hlo Hhi Hop.
  destruct (bounded_facts _ _ Vx) as (Hex & _ & _).
  destruct (bounded_facts _ _ Vy) as (Hey & _ & _).
  pose proof (SFbelow_digits sx mx ex a ltac:(lia) Hx) as Hdx.
  pose proof (SFbelow_digits sy my ey b ltac:(lia) Hy) as Hdy.
  set (ez := Z.min ex ey).
  rewrite !shl_align_value by (unfold ez; lia).
  replace (Z.max a b + 2) with (Z.max a b + 1 + 1) by lia.
  apply binary_normalize_below; [|lia|unfold ez; lia].
  pose proof (aligned_bound mx ex ez (Z.max a b) ltac:(unfold ez; lia) ltac:(lia)) as HX.
  pose proof (aligned_bound my ey ez (Z.max a b) ltac:(unfold ez; lia) ltac:(lia)) as HY.
  apply (aligned_sum_digits (Z.pos mx * 2 ^ (ex - ez)) (Z.pos my * 2 ^ (ey - ez)));
    try assumption.
  - etransitivity; [apply Hop|]. destruct sx, sy; simpl; lia.
  - pose proof (Pos2Z.is_pos (digits2_pos mx)). unfold ez. lia.
Qed.

Lemma SFadd_below x y a b :
  SpecFloat.valid_binary prec emax x = true ->
  SpecFloat.valid_binary prec emax y = true ->
  SFbelow x a = true -> SFbelow y b = true ->
  -1074 <= Z.max a b -> Z.max a b + 1 <= 1023 ->
  SFbelow (SFadd prec emax x y) (Z.max a b + 2) = true.
Proof.
  intros Vx Vy Hx Hy Hlo Hhi.
  destruct x as [sx|sx| |sx mx ex], y as [sy|sy| |sy my ey]; try discriminate.
  - destruct sx, sy; apply SFbelow_zero; lia.
  - cbn [SFadd]. apply (SFbelow_mono _ b); [lia|assumption].
  - cbn [SFadd]. apply (SFbelow_mono _ a); [lia|assumption].
  - cbn [SFadd]. cbv zeta.
    apply (aligned_op_below sx mx ex sy my ey a b Z.add); try assumption. intros; lia.
Qed.

Lemma SFsub_below x y a b :
  SpecFloat.valid_binary prec emax x = true ->
  SpecFloat.valid_binary prec emax y = true ->
  SFbelow x a = true -> SFbelow y b = true ->
  -1074 <= Z.max a b -> Z.max a b + 1 <= 1023 ->
  SFbelow (SFsub prec emax x y) (Z.max a b + 2) = true.
Proof.
  intros Vx Vy Hx Hy Hlo Hhi.
  destruct x as [sx|sx| |sx mx ex], y as [sy|sy| |sy my ey]; try discriminate.
  - destruct sx, sy; apply SFbelow_zero; lia.
  - cbn [SFsub]. apply (SFbelow_mono _ b); [lia|].
    unfold SFbelow in *. cbn [SFfinite SFscaled] in *. destruct sy; simpl in *;
      rewrite ?Z.abs_opp in *; exact Hy.
  - cbn [SFsub]. apply (SFbelow_mono _ a); [lia|assumption].
  - cbn [SFsub]. cbv zeta.
    apply (aligned_op_below sx mx ex sy my ey a b Z.sub); try assumption. intros; lia.
Qed.

Lemma SFmul_below x y a b :
  SpecFloat.valid_binary prec emax x = true ->
  SpecFloat.valid_binary prec emax y = true ->
  SFbelow x a = true -> SFbelow y b = true ->
  -1074 <= a + b <= 1023 ->
  SFbelow (SFmul prec emax x y) (a + b + 1) = true.
Proof.
  intros Vx Vy Hx Hy Hab.
  destruct x as [sx|sx| |sx mx ex], y as [sy|sy| |sy my ey]; try discriminate;
    cbn [SFmul]; try (apply SFbelow_zero; lia).
  simpl in Vx, Vy.
  destruct (bounded_canonical _ _ Vx) as (Hcx & Hex).
  destruct (bounded_canonical _ _ Vy) as (Hcy & Hey).
  pose proof (SFbelow_digits sx mx ex a ltac:(lia) Hx) as Hdx.
  pose proof (SFbelow_digits sy my ey b ltac:(lia) Hy) as Hdy.
  apply binary_round_aux_below; try lia.
  cbn [Zdigits2].
  pose proof (digits2_pos_bounds mx) as [_ Hmx].
  pose proof (digits2_pos_bounds my) as [_ Hmy].
  set (dx := Z.pos (digits2_pos mx)) in *. set (dy := Z.pos (digits2_pos my)) in *.
  assert (1 <= dx) by (unfold dx; lia). assert (1 <= dy) by (unfold dy; lia).
  assert (Hlt : Z.pos (mx * my) < 2 ^ (dx + dy)).
  { rewrite Pos2Z.inj_mul, (Z.pow_add_r 2 dx dy) by lia.
    apply Z.mul_lt_mono_nonneg; lia. }
  pose proof (Zdigits2_lt_pow (Z.pos (mx * my)) (dx + dy) ltac:(lia) ltac:(lia) Hlt) as Hd.
  cbn [Zdigits2] in Hd. lia.
Qed.

(** The quotient by a number that is not zero, of a magnitude of [2 ^ c]
    at least. *)
Lemma SFdiv_below x sy my ey a c :
  SpecFloat.valid_binary prec emax x = true ->
  bounded prec emax my ey = true ->
  SFbelow x a = true -> c <= Z.pos (digits2_pos my) + ey ->
  -1074 <= a - c + 1 <= 1023 ->
  SFbelow (SFdiv prec emax x (S754_finite sy my ey)) (a - c + 2) = true.
Proof.
  intros Vx Vy Hx Hc Hac.
  destruct x as [sx|sx| |sx mx ex]; try discriminate; cbn [SFdiv].
  { apply SFbelow_zero. lia. }
  simpl in Vx.
  destruct (bounded_canonical _ _ Vx) as (Hcx & Hex).
  destruct (bounded_canonical _ _ Vy) as (Hcy & Hey).
  pose proof (SFbelow_digits sx mx ex a ltac:(lia) Hx) as Hdx.
  unfold SFdiv_core_binary. cbn [Zdigits2]. rewrite fexp_eq.
  pose proof (digits2_pos_bounds mx) as [_ Hmx].
  pose proof (digits2_pos_bounds my) as [Hmy _].
  set (dx := Z.pos (digits2_pos mx)) in *. set (dy := Z.pos (digits2_pos my)) in *.
  assert (1 <= dx) by (unfold dx; lia). assert (1 <= dy) by (unfold dy; lia).
  set (e' := Z.min (Z.max (dx + ex - (dy + ey) - 53) (-1074)) (ex - ey)).
  set (s := ex - ey - e').
  assert (Hs : 0 <= s) by (unfold s, e'; lia).
  set (m' := match s with Z.pos _ => Z.shiftl (Z.pos mx) s | 0 => Z.pos mx | _ => 0 end).
  assert (Hm' : m' = Z.pos mx * 2 ^ s).
  { unfold m'. destruct s as [|p|p] eqn:Es; try lia.
    rewrite Z.shiftl_mul_pow2 by lia. reflexivity. }
  pose proof (Z.div_eucl_eq m' (Z.pos my) ltac:(lia)) as Hq.
  pose proof (Z.mod_pos_bound m' (Z.pos my) ltac:(lia)) as Hr.
  unfold Z.modulo in Hr.
  destruct (Z.div_eucl m' (Z.pos my)) as [q r].
  pose proof (pow2_pos s Hs) as Hps.
  assert (Hq0 : 0 <= q) by nia.
  assert (Hqlt : q * 2 ^ (dy - 1) < 2 ^ (dx + s)).
  { rewrite (Z.pow_add_r 2 dx s) by lia.
    apply Z.le_lt_trans with (q * Z.pos my); [apply Z.mul_le_mono_nonneg_l; lia|].
    apply Z.le_lt_trans with m'; [lia|].
    rewrite Hm'. apply Z.mul_lt_mono_pos_r; lia. }
  assert (Hdq : Zdigits2 q + e' <= Z.max (a - c + 1) (-1074)).
  { destruct (Z.eq_dec q 0) as [->|Hqnz]; [simpl; unfold e'; lia|].
    assert (Ht : 0 <= dx + s - dy + 1).
    { destruct (Z.le_gt_cases 0 (dx + s - dy + 1)) as [|Hneg]; [assumption|].
      pose proof (pow2_le (dx + s) (dy - 1) ltac:(lia)).
      pose proof (pow2_pos (dy - 1) ltac:(lia)). nia. }
    assert (Hqp : q < 2 ^ (dx + s - dy + 1)).
    { apply Z.mul_lt_mono_pos_r with (2 ^ (dy - 1)); [apply pow2_pos; lia|].
      rewrite <- (Z.pow_add_r 2 (dx + s - dy + 1) (dy - 1)) by lia.
      replace (dx + s - dy + 1 + (dy - 1)) with (dx + s) by lia. exact Hqlt. }
    pose proof (Zdigits2_lt_pow q _ Hq0 Ht Hqp). unfold s in *. lia. }
  replace (a - c + 2) with (a - c + 1 + 1) by lia.
  apply binary_round_aux_below; lia.
Qed.

(** A number between [-b] and [b] is below what [b] is below. *)
Lemma SFbelow_between b x D :
  SpecFloat.valid_binary prec emax b = true ->
  SpecFloat.valid_binary prec emax x = true ->
  SFbelow b D = true ->
  SFleb (SFopp b) x = true -> SFleb x b = true ->
  SFbelow x D = true.
Proof.
  intros Vb Vx Hb Hlo Hhi.
  assert (Fb : SFfinite b = true) by (unfold SFbelow in Hb; now apply andb_true_iff in Hb).
  pose proof (SFleb_between_finite b x Fb Hlo Hhi) as Fx.
  assert (Vo : SpecFloat.valid_binary prec emax (SFopp b) = true)
    by (destruct b; assumption).
  unfold SFleb in Hlo, Hhi.
  rewrite SFcompare_scaled in Hlo, Hhi
    by (try assumption; now rewrite SFopp_finite).
  rewrite SFopp_scaled in Hlo.
  unfold SFbelow in *. rewrite Fx. rewrite Fb in Hb. cbn [andb] in *.
  apply Z.ltb_lt in Hb. apply Z.ltb_lt.
  assert (- SFscaled b <= SFscaled x)
    by (destruct (Z.compare_spec (- SFscaled b) (SFscaled x)); (lia || discriminate)).
  assert (SFscaled x <= SFscaled b)
    by (destruct (Z.compare_spec (SFscaled x) (SFscaled b)); (lia || discriminate)).
  lia.
Qed.

(** *** The same facts on primitive floats *)

Lemma below_finite x D : below x D = true -> isfinite x = true.
Proof. unfold below, SFbelow, isfinite. now intros [H _]%andb_true_iff. Qed.

Lemma below_mono x D D' : D <= D' -> below x D = true -> below x D' = true.
Proof. apply SFbelow_mono. Qed.

Lemma mul_below x y a b :
  below x a = true -> below y b = true -> -1074 <= a + b <= 1023 ->
  below (x * y) (a + b + 1) = true.
Proof.
  unfold below. rewrite FloatAxioms.mul_spec.
  apply SFmul_below; apply Prim2SF_valid.
Qed.

Lemma add_below x y a b :
  below x a = true -> below y b = true -> -1074 <= Z.max a b -> Z.max a b + 1 <= 1023 ->
  below (x + y) (Z.max a b + 2) = true.
Proof.
  unfold below. rewrite FloatAxioms.add_spec.
  apply SFadd_below; apply Prim2SF_valid.
Qed.

Lemma sub_below x y a b :
  below x a = true -> below y b = true -> -1074 <= Z.max a b -> Z.max a b + 1 <= 1023 ->
  below (x - y) (Z.max a b + 2) = true.
Proof.
  unfold below. rewrite FloatAxioms.sub_spec.
  apply SFsub_below; apply Prim2SF_valid.
Qed.

Lemma of_int_below n : is_int n -> below (of_int n) 32 = true.
Proof.
  intros Hn. destruct (of_int_SF n Hn) as [Hf Hs].
  unfold below, SFbelow. rewrite Hf, Hs. cbn [andb]. apply Z.ltb_lt.
  unfold is_int, int_min, int_max in Hn.
  replace (32 + 1074) with (1074 + 32) by lia. rewrite (Z.pow_add_r 2 1074 32) by lia.
  pose proof (pow2_pos 1074 ltac:(lia)).
  rewrite Z.abs_mul, (Z.abs_eq (2 ^ 1074)) by lia.
  rewrite Z.mul_comm. apply Z.mul_lt_mono_pos_l; [assumption|].
  change (2 ^ 32) with 4294967296. lia.
Qed.

Lemma between_below b x D :
  below b D = true -> (- b <=? x)%float = true -> (x <=? b)%float = true ->
  below x D = true.
Proof.
  unfold below. rewrite !FloatAxioms.leb_spec, FloatAxioms.opp_spec.
  apply SFbelow_between; apply Prim2SF_valid.
Qed.

End MagnitudeFacts.

Import MagnitudeFacts.

(** ** Facts about a run with a sane configuration *)

Lemma div_below x y a c sy my ey :
  below x a = true -> Prim2SF y = S754_finite sy my ey ->
  c <= Z.pos (digits2_pos my) + ey -> -1074 <= a - c + 1 <= 1023 ->
  below (x / y) (a - c + 2) = true.
Proof.
  unfold below. rewrite FloatAxioms.div_spec. intros Hx Hy Hc Hac.
  pose proof (Prim2SF_valid y) as Vy. rewrite Hy in Vy |- *.
  apply SFdiv_below; try assumption. apply Prim2SF_valid.
Qed.

Lemma time_diff_nonzero curtime lasttime :
  (time_diff curtime lasttime =? 0)%float = false ->
  exists s m e,
    Prim2SF (time_diff curtime lasttime) = S754_finite s m e /\
    -29 <= Z.pos (digits2_pos m) + e <= 36.
Proof.
  rewrite time_diff_zero. intros Hz.
  pose proof (time_diff_SF curtime lasttime) as H. cbv zeta in H.
  rewrite Hz in H. destruct H as (m & e & H). eauto.
Qed.

Lemma sane_config_facts c :
  sane_config c = true ->
  is_int (pwminit c) /\ is_int (pwmmin c) /\ pwmmin c <= pwmmax /\
  1 <= cputemp_max_values c <= int_max /\
  below (kp c) 64 = true /\ below (ki c) 64 = true /\ below (kd c) 64 = true /\
  below (imax c) 64 = true /\ (0 <=? imax c)%float = true.
Proof.
  unfold sane_config, is_int. rewrite !andb_true_iff, !Z.leb_le.
  unfold pwmmax, int_min, int_max. intuition lia.
Qed.

Lemma calculate_new_pwm_returns c error timediff s st sm se :
  sane_config c = true ->
  below error 32 = true ->
  Prim2SF timediff = S754_finite st sm se ->
  -29 <= Z.pos (digits2_pos sm) + se <= 36 ->
  within_imax c s = true -> below (prev_error s) 32 = true ->
  exists p,
    snd (calculate_new_pwm c error timediff s) = Ok p /\
    within_imax c (fst (calculate_new_pwm c error timediff s)) = true /\
    prev_error (fst (calculate_new_pwm c error timediff s)) = error.
Proof.
  intros Hc He Ht HDt Hw Hp.
  destruct (sane_config_facts c Hc) as (Hi & Hm & Hle & _ & Hkp & Hki & Hkd & Him & H0).
  pose proof (below_finite _ _ Him) as Hfi.
  pose proof (Prim2SF_valid timediff) as Vt. rewrite Ht in Vt. simpl in Vt.
  destruct (bounded_facts _ _ Vt) as (Hse & _ & _).
  assert (Hbt : below timediff 36 = true).
  { unfold below. rewrite Ht. apply SFbelow_finite; lia. }
  pose proof (new_integral_within c error timediff s Hfi H0
                (within_imax_finite c s Hfi Hw) (below_finite _ _ He)
                (below_finite _ _ Hbt)) as Hw'.
  assert (HI : below (new_integral c error timediff s) 64 = true).
  { unfold within_imax, calculate_new_pwm in Hw'. cbn [fst integral] in Hw'.
    apply andb_true_iff in Hw' as [H1 H2].
    exact (between_below _ _ _ Him H1 H2). }
  assert (Hd : below ((error - prev_error s) / timediff) 65 = true).
  { pose proof (sub_below error (prev_error s) 32 32 He Hp ltac:(lia) ltac:(lia)) as Hs.
    change (Z.max 32 32 + 2) with 34 in Hs.
    pose proof (div_below _ timediff 34 (-29) st sm se Hs Ht ltac:(lia) ltac:(lia)) as Hq.
    exact Hq. }
  assert (Hsum : below (newPWM_double c error timediff s) 133 = true).
  { unfold newPWM_double. cbv zeta.
    pose proof (of_int_below (pwminit c) Hi) as H1.
    pose proof (mul_below _ _ 64 32 Hkp He ltac:(lia)) as H2.
    pose proof (add_below _ _ 32 (64 + 32 + 1) H1 H2 ltac:(lia) ltac:(lia)) as H3.
    pose proof (mul_below _ _ 64 64 Hki HI ltac:(lia)) as H4.
    pose proof (add_below _ _ _ _ H3 H4 ltac:(lia) ltac:(lia)) as H5.
    pose proof (mul_below _ _ 64 65 Hkd Hd ltac:(lia)) as H6.
    pose proof (add_below _ _ _ _ H5 H6 ltac:(lia) ltac:(lia)) as H7.
    exact H7. }
  destruct (clamp_pwm_in_range c _ Hm Hle (isfinite_not_nan _ (below_finite _ _ Hsum)))
    as (p & Hp' & _).
  exists p. unfold calculate_new_pwm in *. cbn [fst snd prev_error] in *.
  split; [exact Hp'|]. split; [exact Hw'|reflexivity].
Qed.

Lemma control_returns c st t :
  sane_config c = true -> loop_invariant c st ->
  exists st' tr, control c st t = Ok (st', tr) /\ loop_invariant c st'.
Proof.
  intros Hc (Hr & Hw & Hp). unfold control.
  destruct (time_diff t (lasttime st) =? 0)%float eqn:Hz.
  - eexists _, _. split; [reflexivity|]. exact (conj Hr (conj Hw Hp)).
  - destruct (time_diff_nonzero _ _ Hz) as (s & m & e & Ht & HD).
    set (error := of_int (wrap_int (maxtemp st - setpoint c))).
    assert (He : below error 32 = true) by (apply of_int_below, wrap_int_range).
    destruct (calculate_new_pwm_returns c error _ (pid st) s m e Hc He Ht HD Hw Hp)
      as (p & Hok & Hw' & Hpe).
    destruct (calculate_new_pwm c error _ (pid st)) as [pid' r]. cbn [fst snd] in *.
    subst r. cbn [mbind result_bind mret result_ret].
    eexists _, _. split; [reflexivity|].
    unfold loop_invariant. cbn [roll pid]. rewrite Hpe.
    exact (conj Hr (conj Hw' He)).
Qed.

Lemma poll_returns c st inp :
  1 <= cputemp_max_values c <= int_max -> rolling_ok c (roll st) ->
  exists st1, poll c st inp = Ok st1 /\ rolling_ok c (roll st1) /\ pid st1 = pid st.
Proof.
  intros HN Hok. unfold poll, poll_cpu.
  destruct (cpu_pipe inp) as [| |n]; cbn [mbind result_bind mret result_ret].
  - eexists. split; [reflexivity|]. split; [exact Hok|reflexivity].
  - destruct (rolling_insert_ok c (roll st) (fgets (cputempstring0 inp) NoLine) HN Hok)
      as (r' & avg & -> & Hok' & _).
    cbn [mbind result_bind mret result_ret].
    eexists. split; [reflexivity|]. split; [exact Hok'|reflexivity].
  - destruct (rolling_insert_ok c (roll st) (fgets (cputempstring0 inp) (Line n)) HN Hok)
      as (r' & avg & -> & Hok' & _).
    cbn [mbind result_bind mret result_ret].
    eexists. split; [reflexivity|]. split; [exact Hok'|reflexivity].
Qed.

Lemma iteration_returns c st inp :
  sane_config c = true -> loop_invariant c st ->
  exists st' tr, iteration c st inp = Ok (st', tr) /\ loop_invariant c st'.
Proof.
  intros Hc (Hr & Hw & Hp).
  destruct (sane_config_facts c Hc) as (_ & _ & _ & HN & _).
  destruct (poll_returns c st inp HN Hr) as (st1 & Hpoll & Hr1 & Hpid).
  unfold iteration. rewrite Hpoll. cbn [mbind result_bind].
  apply control_returns; [assumption|].
  unfold loop_invariant. rewrite Hpid. exact (conj Hr1 (conj Hw Hp)).
Qed.

Lemma loop_returns c inps : forall st,
  sane_config c = true -> loop_invariant c st ->
  exists st', snd (loop c st inps) = Ok st' /\ loop_invariant c st'.
Proof.
  induction inps as [|inp inps IH]; intros st Hc Hinv; cbn [loop].
  - exists st. split; [reflexivity|assumption].
  - destruct (iteration_returns c st inp Hc Hinv) as (st1 & tr & -> & Hinv1).
    destruct (IH st1 Hc Hinv1) as (st' & Hs & Hinv').
    destruct (loop c st1 inps) as [tr' r]. cbn [snd] in *. eauto.
Qed.

Lemma loop_invariant_init c hi lo now :
  sane_config c = true -> loop_invariant c (fst (startup c hi lo now)).
Proof.
  intros Hc.
  destruct (sane_config_facts c Hc) as (_ & _ & _ & HN & _ & _ & _ & _ & H0).
  unfold startup. cbn [ioread fst]. unfold loop_invariant. cbn [roll pid].
  split; [apply rolling_ok_init; lia|]. split; [now apply within_imax_init|].
  vm_compute. reflexivity.
Qed.

Lemma run_is_total c hi lo now inps :
  sane_config c = true -> exists st, snd (main c hi lo now inps) = Ok st.
Proof.
  intros Hc. unfold main.
  pose proof (loop_returns c inps (fst (startup c hi lo now)) Hc
                (loop_invariant_init c hi lo now Hc)) as H.
  destruct (startup c hi lo now) as [st0 tr0]. cbn [fst] in H.
  destruct (loop c st0 inps) as [tr r]. destruct H as (st & H & _). eauto.
Qed.

Lemma split_drive_names_names (names : list cstring) :
  nonempty names = true ->
  forallb (fun name => nonempty name && no_comma name) names = true ->
  Z.of_nat (length (join names)) < int_max ->
  split_drive_names (join names) = Ok (Z.of_nat (length names), Some <$> names).
Proof.
  intros Hn Hall Hlen.
  assert (Hc : forallb no_comma names = true).
  { rewrite forallb_forall in *. intros x Hx.
    specialize (Hall x Hx). now apply andb_true_iff in Hall. }
  assert (Hne : forallb nonempty names = true).
  { rewrite forallb_forall in *. intros x Hx.
    specialize (Hall x Hx). now apply andb_true_iff in Hall. }
  rewrite (split_drive_names_join names Hn Hc Hlen).
  rewrite (filter_all nonempty names Hne), Nat.sub_diag, app_nil_r. reflexivity.
Qed.

(** ** Facts about lower bounds *)

Module LowerBoundFacts.

(** The mantissa after the shift to the exponent of the format. *)
Lemma shr_fexp_m m e l :
  0 <= m ->
  e <= snd (shr_fexp prec emax m e l) /\
  shr_m (fst (shr_fexp prec emax m e l))
  = m / 2 ^ (snd (shr_fexp prec emax m e l) - e).
Proof.
  intros Hm. unfold shr_fexp, shr.
  destruct (fexp prec emax (Zdigits2 m + e) - e) as [|k|k] eqn:Ek; cbn [fst snd].
  - rewrite shr_record_of_loc_m, Z.sub_diag. simpl. rewrite Z.div_1_r. lia.
  - rewrite iter_pos_shr_1_m by (rewrite shr_record_of_loc_m; lia).
    rewrite shr_record_of_loc_m. split; [lia|]. f_equal. f_equal. lia.
  - rewrite shr_record_of_loc_m, Z.sub_diag. simpl. rewrite Z.div_1_r. lia.
Qed.

(** A number of the format that is not above [m * 2 ^ e] is not above
    what the shift leaves of it.  Numbers are compared after a scaling by
    [2 ^ 2200], which makes integers of them. *)
Lemma shr_fexp_lower m e l mc ec :
  0 < m -> -1074 < Zdigits2 m + e -> -2200 <= e ->
  bounded prec emax mc ec = true ->
  Z.pos mc * 2 ^ (ec + 2200) <= m * 2 ^ (e + 2200) ->
  Z.pos mc * 2 ^ (ec + 2200)
  <= shr_m (fst (shr_fexp prec emax m e l))
     * 2 ^ (snd (shr_fexp prec emax m e l) + 2200).
Proof.
  intros Hm HD He Hb Hle.
  destruct (shr_fexp_spec m e l Hm HD) as (Hm1 & He1 & HD1).
  destruct (shr_fexp_m m e l ltac:(lia)) as (Hge & Hq).
  destruct (shr_fexp prec emax m e l) as [mrs1 e1]. cbn [fst snd] in *.
  set (m1 := shr_m mrs1) in *. rewrite fexp_eq in He1.
  destruct (bounded_canonical mc ec Hb) as (Hec & Hec').
  pose proof (digits2_pos_bounds mc) as [Hclo Hchi].
  set (dc := Z.pos (digits2_pos mc)) in *.
  assert (Hdc : 1 <= dc) by (unfold dc; lia).
  pose proof (Zdigits2_bounds m Hm) as [Hmlo Hmhi].
  pose proof (Zdigits2_pos m Hm) as Hd.
  set (d := Zdigits2 m) in *.
  pose proof (Zdigits2_bounds m1 Hm1) as [Hm1lo Hm1hi].
  pose proof (Zdigits2_pos m1 Hm1) as Hd1.
  set (d1 := Zdigits2 m1) in *.
  (* the magnitude of the bound is not above that of the number *)
  assert (Hmag : dc + ec <= d + e).
  { assert (H1 : 2 ^ (dc - 1 + (ec + 2200)) <= Z.pos mc * 2 ^ (ec + 2200)).
    { rewrite (Z.pow_add_r 2 (dc - 1) (ec + 2200)) by lia.
      apply Z.mul_le_mono_nonneg_r; [apply Z.pow_nonneg|]; lia. }
    assert (H2 : m * 2 ^ (e + 2200) < 2 ^ (d + (e + 2200))).
    { rewrite (Z.pow_add_r 2 d (e + 2200)) by lia.
      apply Z.mul_lt_mono_pos_r; [apply Z.pow_pos_nonneg|]; lia. }
    assert (H3 : 2 ^ (dc - 1 + (ec + 2200)) < 2 ^ (d + (e + 2200))) by lia.
    apply Z.pow_lt_mono_r_iff in H3; lia. }
  destruct (Z.eq_dec (dc + ec) (d + e)) as [Heq|Hne].
  - (* the same magnitude: the same exponent after the shift *)
    destruct (Z.eq_dec e1 e) as [E|E].
    + rewrite E in *. rewrite Z.sub_diag in Hq. simpl in Hq.
      rewrite Z.div_1_r in Hq. rewrite Hq. exact Hle.
    + assert (Hk : e1 = ec) by lia.
      rewrite Hk in *.
      apply Z.mul_le_mono_nonneg_r; [apply Z.pow_nonneg; lia|].
      rewrite Hq. apply Z.div_le_lower_bound; [apply Z.pow_pos_nonneg; lia|].
      assert (Hsplit : 2 ^ (ec + 2200) = 2 ^ (ec - e) * 2 ^ (e + 2200)).
      { rewrite <- Z.pow_add_r by lia. f_equal. lia. }
      rewrite Hsplit in Hle.
      assert (Hp : 0 < 2 ^ (e + 2200)) by (apply Z.pow_pos_nonneg; lia).
      nia.
  - (* a smaller magnitude *)
    assert (H1 : Z.pos mc * 2 ^ (ec + 2200) < 2 ^ (dc + (ec + 2200))).
    { rewrite (Z.pow_add_r 2 dc (ec + 2200)) by lia.
      apply Z.mul_lt_mono_pos_r; [apply Z.pow_pos_nonneg|]; lia. }
    assert (H2 : 2 ^ (d1 - 1 + (e1 + 2200)) <= m1 * 2 ^ (e1 + 2200)).
    { rewrite (Z.pow_add_r 2 (d1 - 1) (e1 + 2200)) by lia.
      apply Z.mul_le_mono_nonneg_r; [apply Z.pow_nonneg|]; lia. }
    assert (H3 : 2 ^ (dc + (ec + 2200)) <= 2 ^ (d1 - 1 + (e1 + 2200)))
      by (apply Z.pow_le_mono_r; lia).
    lia.
Qed.

(** Rounding is not below a number of the format that the rounded number
    is not below. *)
Lemma binary_round_aux_lower s m e l mc ec :
  0 < m -> -1074 < Zdigits2 m + e <= 1023 -> -2200 <= e <= 971 ->
  bounded prec emax mc ec = true ->
  Z.pos mc * 2 ^ (ec + 2200) <= m * 2 ^ (e + 2200) ->
  exists m' e',
    binary_round_aux prec emax s m e l = S754_finite s m' e' /\
    -1074 <= e' /\
    Z.pos mc * 2 ^ (ec + 2200) <= Z.pos m' * 2 ^ (e' + 2200).
Proof.
  intros Hm HD He Hb Hle. unfold binary_round_aux.
  destruct (shr_fexp_spec m e l Hm ltac:(lia)) as (Hm1 & He1 & HD1).
  pose proof (shr_fexp_lower m e l mc ec Hm ltac:(lia) ltac:(lia) Hb Hle) as Hl1.
  destruct (shr_fexp prec emax m e l) as [mrs1 e1]. cbn [fst snd] in *.
  set (m2 := round_nearest_even (shr_m mrs1) (loc_of_shr_record mrs1)).
  assert (Hm2 : shr_m mrs1 <= m2 /\
                Zdigits2 (shr_m mrs1) <= Zdigits2 m2 <= Zdigits2 (shr_m mrs1) + 1).
  { unfold m2.
    destruct (round_nearest_even_cases (shr_m mrs1) (loc_of_shr_record mrs1)) as [-> | ->].
    - split; lia.
    - split; [lia|]. now apply Zdigits2_succ. }
  destruct Hm2 as [Hm2 Hd2].
  rewrite fexp_eq in He1.
  assert (Hl2 : Z.pos mc * 2 ^ (ec + 2200) <= m2 * 2 ^ (e1 + 2200)).
  { etransitivity; [exact Hl1|].
    apply Z.mul_le_mono_nonneg_r; [apply Z.pow_nonneg; lia|exact Hm2]. }
  destruct (shr_fexp_spec m2 e1 loc_Exact ltac:(lia) ltac:(lia)) as (Hm3 & He3 & HD3).
  pose proof (shr_fexp_lower m2 e1 loc_Exact mc ec ltac:(lia) ltac:(lia) ltac:(lia)
                Hb Hl2) as Hl3.
  destruct (shr_fexp prec emax m2 e1 loc_Exact) as [mrs3 e3]. cbn [fst snd] in *.
  rewrite fexp_eq in He3.
  destruct (shr_m mrs3) as [|p|p] eqn:Ep; try lia.
  assert (Hle3 : e3 <= emax - prec) by (unfold emax, prec; lia).
  apply Z.leb_le in Hle3. rewrite Hle3.
  exists p, e3. split; [reflexivity|]. split; [lia|exact Hl3].
Qed.

(** The two scalings of a number of the format. *)
Lemma scaled_2200 m e :
  -1074 <= e -> Z.pos m * 2 ^ (e + 2200) = Z.pos m * 2 ^ (e + 1074) * 2 ^ 1126.
Proof.
  intros He. rewrite <- Z.mul_assoc, <- Z.pow_add_r by lia. do 2 f_equal. lia.
Qed.

Lemma binary_normalize_lower z e mc ec D :
  Zdigits2 z + e <= D -> D <= 1023 -> -1074 <= e <= 971 ->
  bounded prec emax mc ec = true ->
  Z.pos mc * 2 ^ (ec + 1074) <= z * 2 ^ (e + 1074) ->
  exists m' e',
    binary_normalize prec emax z e false = S754_finite false m' e' /\
    -1074 <= e' /\
    Z.pos mc * 2 ^ (ec + 1074) <= Z.pos m' * 2 ^ (e' + 1074).
Proof.
  intros HD HD' He Hb Hle.
  destruct (bounded_facts mc ec Hb) as (Hec & _ & _).
  assert (Hcpos : 0 < Z.pos mc * 2 ^ (ec + 1074))
    by (apply Z.mul_pos_pos; [lia|apply Z.pow_pos_nonneg; lia]).
  assert (Hpe : 0 < 2 ^ (e + 1074)) by (apply Z.pow_pos_nonneg; lia).
  destruct z as [|p|p]; try nia.
  cbn [binary_normalize]. unfold binary_round. rewrite fexp_eq. cbn [Zdigits2] in HD.
  set (d := Z.pos (digits2_pos p)) in *.
  assert (Hd : 1 <= d) by (unfold d; lia).
  assert (H2200 : Z.pos mc * 2 ^ (ec + 2200) <= Z.pos p * 2 ^ (e + 2200)).
  { rewrite !scaled_2200 by lia.
    apply Z.mul_le_mono_nonneg_r; [apply Z.pow_nonneg; lia|exact Hle]. }
  assert (Hres : forall mz ez,
            Z.pos mz * 2 ^ (ez + 2200) = Z.pos p * 2 ^ (e + 2200) ->
            Z.pos (digits2_pos mz) + ez = d + e -> -1074 <= ez <= 971 ->
            exists m' e',
              binary_round_aux prec emax false (Z.pos mz) ez loc_Exact
              = S754_finite false m' e' /\
              -1074 <= e' /\
              Z.pos mc * 2 ^ (ec + 1074) <= Z.pos m' * 2 ^ (e' + 1074)).
  { intros mz ez Hv Hdz Hez.
    destruct (binary_round_aux_lower false (Z.pos mz) ez loc_Exact mc ec)
      as (m' & e' & Hr & He' & Hl); cbn [Zdigits2]; try lia; try assumption.
    exists m', e'. split; [exact Hr|]. split; [exact He'|].
    rewrite !scaled_2200 in Hl by lia.
    apply Z.mul_le_mono_pos_r in Hl; [exact Hl|apply Z.pow_pos_nonneg; lia]. }
  unfold shl_align.
  destruct (Z.max (d + e - 53) (-1074) - e) as [|k|k] eqn:Ek.
  - apply Hres; lia.
  - apply Hres; lia.
  - apply Hres.
    + rewrite iter_xO_value.
      replace (e + 2200) with (Z.pos k + (Z.max (d + e - 53) (-1074) + 2200)) by lia.
      rewrite (Z.pow_add_r 2 (Z.pos k)) by lia. ring.
    + rewrite iter_xO_digits, Pos2Z.inj_add. fold d. lia.
    + lia.
Qed.

(** The sum of two numbers is not below a positive number of the format
    that their exact sum is not below. *)
Lemma SFadd_lower x y a b mc ec :
  SpecFloat.valid_binary prec emax x = true ->
  SpecFloat.valid_binary prec emax y = true ->
  SFbelow x a = true -> SFbelow y b = true ->
  Z.max a b + 1 <= 1023 ->
  bounded prec emax mc ec = true ->
  Z.pos mc * 2 ^ (ec + 1074) <= SFscaled x + SFscaled y ->
  exists m' e',
    SFadd prec emax x y = S754_finite false m' e' /\
    Z.pos mc * 2 ^ (ec + 1074) <= Z.pos m' * 2 ^ (e' + 1074).
Proof.
  intros Vx Vy Hx Hy Hab Hb Hle.
  destruct (bounded_facts mc ec Hb) as (Hec & _ & _).
  assert (Hcpos : 0 < Z.pos mc * 2 ^ (ec + 1074))
    by (apply Z.mul_pos_pos; [lia|apply Z.pow_pos_nonneg; lia]).
  destruct x as [sx|sx| |sx mx ex], y as [sy|sy| |sy my ey]; try discriminate.
  - simpl in Hle. lia.
  - cbn [SFadd]. simpl in Hle. destruct sy; [lia|]. eauto.
  - cbn [SFadd]. simpl in Hle. destruct sx; [lia|]. exists mx, ex.
    split; [reflexivity|lia].
  - cbn [SFadd]. cbv zeta. simpl in Vx, Vy.
    destruct (bounded_facts _ _ Vx) as (Hex & _ & _).
    destruct (bounded_facts _ _ Vy) as (Hey & _ & _).
    pose proof (SFbelow_digits sx mx ex a ltac:(lia) Hx) as Hdx.
    pose proof (SFbelow_digits sy my ey b ltac:(lia) Hy) as Hdy.
    set (ez := Z.min ex ey).
    rewrite !shl_align_value by (unfold ez; lia).
    set (X := Z.pos mx * 2 ^ (ex - ez)). set (Y := Z.pos my * 2 ^ (ey - ez)).
    assert (HX : X * 2 ^ (ez + 1074) = Z.pos mx * 2 ^ (ex + 1074)).
    { unfold X. rewrite <- Z.mul_assoc, <- Z.pow_add_r by (unfold ez; lia).
      do 2 f_equal. lia. }
    assert (HY : Y * 2 ^ (ez + 1074) = Z.pos my * 2 ^ (ey + 1074)).
    { unfold Y. rewrite <- Z.mul_assoc, <- Z.pow_add_r by (unfold ez; lia).
      do 2 f_equal. lia. }
    pose proof (aligned_bound mx ex ez (Z.max a b) ltac:(unfold ez; lia) ltac:(lia)) as HXb.
    pose proof (aligned_bound my ey ez (Z.max a b) ltac:(unfold ez; lia) ltac:(lia)) as HYb.
    fold X in HXb. fold Y in HYb.
    destruct (binary_normalize_lower (cond_Zopp sx X + cond_Zopp sy Y) ez mc ec
                (Z.max a b + 1)) as (m' & e' & Hr & _ & Hl);
      try assumption; try (unfold ez; lia).
    + apply (aligned_sum_digits X Y); try assumption.
      * destruct sx, sy; simpl; lia.
      * pose proof (Pos2Z.is_pos (digits2_pos mx)). unfold ez. lia.
    + etransitivity; [exact Hle|]. simpl SFscaled.
      rewrite Z.mul_add_distr_r. destruct sx, sy; simpl cond_Zopp; lia.
    + eauto.
Qed.

(** The product of two positive numbers is not below a number of the
    format that their exact product is not below. *)
Lemma SFmul_lower mx ex my ey a b mc ec :
  bounded prec emax mx ex = true -> bounded prec emax my ey = true ->
  SFbelow (S754_finite false mx ex) a = true ->
  SFbelow (S754_finite false my ey) b = true ->
  a + b <= 1023 ->
  bounded prec emax mc ec = true ->
  Z.pos mc * 2 ^ (ec + 1074) * 2 ^ 1074
  <= (Z.pos mx * 2 ^ (ex + 1074)) * (Z.pos my * 2 ^ (ey + 1074)) ->
  exists m' e',
    SFmul prec emax (S754_finite false mx ex) (S754_finite false my ey)
    = S754_finite false m' e' /\
    Z.pos mc * 2 ^ (ec + 1074) <= Z.pos m' * 2 ^ (e' + 1074).
Proof.
  intros Vx Vy Hx Hy Hab Hb Hle. cbn [SFmul xorb].
  destruct (bounded_canonical _ _ Vx) as (Hcx & Hex).
  destruct (bounded_canonical _ _ Vy) as (Hcy & Hey).
  destruct (bounded_facts mc ec Hb) as (Hec & _ & _).
  pose proof (SFbelow_digits false mx ex a ltac:(lia) Hx) as Hdx.
  pose proof (SFbelow_digits false my ey b ltac:(lia) Hy) as Hdy.
  pose proof (digits2_pos_bounds mx) as [_ Hmx].
  pose proof (digits2_pos_bounds my) as [_ Hmy].
  pose proof (digits2_pos_bounds mc) as [Hmc _].
  set (dx := Z.pos (digits2_pos mx)) in *. set (dy := Z.pos (digits2_pos my)) in *.
  set (dc := Z.pos (digits2_pos mc)) in *.
  assert (1 <= dx) by (unfold dx; lia). assert (1 <= dy) by (unfold dy; lia).
  assert (1 <= dc) by (unfold dc; lia).
  assert (Hlt : Z.pos (mx * my) < 2 ^ (dx + dy)).
  { rewrite Pos2Z.inj_mul, (Z.pow_add_r 2 dx dy) by lia.
    apply Z.mul_lt_mono_nonneg; lia. }
  pose proof (Zdigits2_lt_pow (Z.pos (mx * my)) (dx + dy) ltac:(lia) ltac:(lia) Hlt) as Hd.
  (* the comparison, scaled by [2 ^ 2200] *)
  assert (Hv : Z.pos (mx * my) * 2 ^ (ex + ey + 2200)
               = (Z.pos mx * 2 ^ (ex + 1074)) * (Z.pos my * 2 ^ (ey + 1074)) * 2 ^ 52).
  { rewrite Pos2Z.inj_mul.
    replace (ex + ey + 2200) with ((ex + 1074) + (ey + 1074) + 52) by lia.
    rewrite !Z.pow_add_r by lia. ring. }
  assert (Hc2200 : Z.pos mc * 2 ^ (ec + 2200)
                   = Z.pos mc * 2 ^ (ec + 1074) * 2 ^ 1074 * 2 ^ 52).
  { replace (ec + 2200) with ((ec + 1074) + 1074 + 52) by lia.
    rewrite !Z.pow_add_r by lia. ring. }
  assert (Hle' : Z.pos mc * 2 ^ (ec + 2200) <= Z.pos (mx * my) * 2 ^ (ex + ey + 2200)).
  { rewrite Hv, Hc2200. apply Z.mul_le_mono_nonneg_r; [apply Z.pow_nonneg; lia|exact Hle]. }
  (* the magnitude of the product is that of the bound at least *)
  assert (Hmag : -1074 < Zdigits2 (Z.pos (mx * my)) + (ex + ey)).
  { pose proof (Zdigits2_bounds (Z.pos (mx * my)) ltac:(lia)) as [_ Hhi].
    set (dp := Zdigits2 (Z.pos (mx * my))) in *.
    assert (Hdp : 1 <= dp) by (unfold dp; simpl; lia).
    assert (G1 : 2 ^ (dc - 1 + (ec + 2200)) <= Z.pos mc * 2 ^ (ec + 2200)).
    { rewrite (Z.pow_add_r 2 (dc - 1) (ec + 2200)) by lia.
      apply Z.mul_le_mono_nonneg_r; [apply Z.pow_nonneg|]; lia. }
    assert (G2 : Z.pos (mx * my) * 2 ^ (ex + ey + 2200) < 2 ^ (dp + (ex + ey + 2200))).
    { rewrite (Z.pow_add_r 2 dp (ex + ey + 2200)) by lia.
      apply Z.mul_lt_mono_pos_r; [apply Z.pow_pos_nonneg|]; lia. }
    assert (G3 : 2 ^ (dc - 1 + (ec + 2200)) < 2 ^ (dp + (ex + ey + 2200))) by lia.
    apply Z.pow_lt_mono_r_iff in G3; lia. }
  destruct (binary_round_aux_lower false (Z.pos (mx * my)) (ex + ey) loc_Exact mc ec)
    as (m' & e' & Hr & He' & Hl); try assumption; try lia.
  exists m', e'. split; [exact Hr|].
  rewrite !scaled_2200 in Hl by lia.
  apply Z.mul_le_mono_pos_r in Hl; [exact Hl|apply Z.pow_pos_nonneg; lia].
Qed.

(** Rounding is not above the power of two that the rounded number is
    below. *)
Lemma binary_round_aux_le s m e l D :
  0 <= m -> Zdigits2 m + e <= D -> -1074 <= D <= 1023 -> e <= 971 ->
  Z.abs (SFscaled (binary_round_aux prec emax s m e l)) <= 2 ^ (D + 1074).
Proof.
  intros Hm HD HDr He. unfold binary_round_aux.
  pose proof (Zdigits2_nonneg m) as Hd.
  destruct (shr_fexp_mag m e l Hm) as (Hm1 & He1 & HD1).
  destruct (shr_fexp prec emax m e l) as [mrs1 e1]. cbn [fst snd] in *.
  set (m1 := shr_m mrs1) in *.
  set (m2 := round_nearest_even m1 (loc_of_shr_record mrs1)).
  assert (Hm2 : 0 <= m2 <= m1 + 1).
  { unfold m2.
    destruct (round_nearest_even_cases m1 (loc_of_shr_record mrs1)) as [-> | ->]; lia. }
  rewrite fexp_eq in He1.
  (* after the first shift and the rounding: not above [2 ^ D] *)
  assert (H2 : m2 * 2 ^ (e1 + 1074) <= 2 ^ (D + 1074)).
  { destruct (Z.eq_dec m1 0) as [E|E].
    - assert (m2 <= 1) by lia.
      apply Z.le_trans with (1 * 2 ^ (e1 + 1074)).
      + apply Z.mul_le_mono_nonneg_r; [apply Z.pow_nonneg|]; lia.
      + rewrite Z.mul_1_l. apply Z.pow_le_mono_r; lia.
    - pose proof (Zdigits2_bounds m1 ltac:(lia)) as [_ Hhi].
      pose proof (Zdigits2_pos m1 ltac:(lia)) as Hd1.
      apply Z.le_trans with (2 ^ Zdigits2 m1 * 2 ^ (e1 + 1074)).
      + apply Z.mul_le_mono_nonneg_r; [apply Z.pow_nonneg|]; lia.
      + rewrite <- Z.pow_add_r by lia. apply Z.pow_le_mono_r; lia. }
  destruct (shr_fexp_mag m2 e1 loc_Exact ltac:(lia)) as (Hm3 & He3 & HD3).
  destruct (shr_fexp_m m2 e1 loc_Exact ltac:(lia)) as (Hge & Hq).
  destruct (shr_fexp prec emax m2 e1 loc_Exact) as [mrs3 e3]. cbn [fst snd] in *.
  assert (H3 : shr_m mrs3 * 2 ^ (e3 + 1074) <= m2 * 2 ^ (e1 + 1074)).
  { rewrite Hq.
    replace (e3 + 1074) with ((e3 - e1) + (e1 + 1074)) by lia.
    rewrite Z.pow_add_r, Z.mul_assoc by lia.
    apply Z.mul_le_mono_nonneg_r; [apply Z.pow_nonneg; lia|].
    rewrite Z.mul_comm. apply Z.mul_div_le. apply Z.pow_pos_nonneg; lia. }
  destruct (shr_m mrs3) as [|p|p] eqn:Ep; try lia.
  - simpl. pose proof (Z.pow_nonneg 2 (D + 1074)). lia.
  - assert (Hp : 0 <= Z.pos p * 2 ^ (e3 + 1074))
      by (apply Z.mul_nonneg_nonneg; [lia|apply Z.pow_nonneg; lia]).
    destruct (e3 <=? emax - prec).
    + cbn [SFscaled]. destruct s; lia.
    + simpl. pose proof (Z.pow_nonneg 2 (D + 1074)). lia.
Qed.

Lemma SFmul_le x y a b :
  SpecFloat.valid_binary prec emax x = true ->
  SpecFloat.valid_binary prec emax y = true ->
  SFbelow x a = true -> SFbelow y b = true ->
  -1074 <= a + b <= 1023 ->
  Z.abs (SFscaled (SFmul prec emax x y)) <= 2 ^ (a + b + 1074).
Proof.
  intros Vx Vy Hx Hy Hab.
  assert (H0 : 0 <= 2 ^ (a + b + 1074)) by (apply Z.pow_nonneg; lia).
  destruct x as [sx|sx| |sx mx ex], y as [sy|sy| |sy my ey]; try discriminate;
    cbn [SFmul]; try (simpl; lia).
  simpl in Vx, Vy.
  destruct (bounded_canonical _ _ Vx) as (Hcx & Hex).
  destruct (bounded_canonical _ _ Vy) as (Hcy & Hey).
  pose proof (SFbelow_digits sx mx ex a ltac:(lia) Hx) as Hdx.
  pose proof (SFbelow_digits sy my ey b ltac:(lia) Hy) as Hdy.
  apply binary_round_aux_le; try lia.
  cbn [Zdigits2].
  pose proof (digits2_pos_bounds mx) as [_ Hmx].
  pose proof (digits2_pos_bounds my) as [_ Hmy].
  set (dx := Z.pos (digits2_pos mx)) in *. set (dy := Z.pos (digits2_pos my)) in *.
  assert (1 <= dx) by (unfold dx; lia). assert (1 <= dy) by (unfold dy; lia).
  assert (Hlt : Z.pos (mx * my) < 2 ^ (dx + dy)).
  { rewrite Pos2Z.inj_mul, (Z.pow_add_r 2 dx dy) by lia.
    apply Z.mul_lt_mono_nonneg; lia. }
  pose proof (Zdigits2_lt_pow (Z.pos (mx * my)) (dx + dy) ltac:(lia) ltac:(lia) Hlt) as Hd.
  cbn [Zdigits2] in Hd. lia.
Qed.

End LowerBoundFacts.

Import LowerBoundFacts.

(** ** Facts about a hot reading *)

Lemma default_gains_facts c :
  default_gains c = true ->
  pwminit c = 128 /\ kp c = 50%float /\ ki c = 0.5%float /\
  imax c = 255%float /\ kd c = 0%float.
Proof.
  unfold default_gains. rewrite !andb_true_iff, Z.eqb_eq, !Leibniz.eqb_spec.
  tauto.
Qed.

(** A positive [int] as a [double]. *)
Lemma of_int_positive n :
  0 < n <= int_max ->
  exists m e, Prim2SF (of_int n) = S754_finite false m e /\
              Z.pos m * 2 ^ (e + 1074) = n * 2 ^ 1074.
Proof.
  intros Hn.
  destruct (of_int_SF n) as [Hf Hs]; [unfold is_int, int_min; lia|].
  assert (HP : 0 < 2 ^ 1074) by (apply Z.pow_pos_nonneg; lia).
  pose proof (Prim2SF_valid (of_int n)) as V.
  destruct (Prim2SF (of_int n)) as [s|s| |s m e]; try discriminate.
  - simpl in Hs. nia.
  - simpl in V. destruct (bounded_facts _ _ V) as (He & _ & _).
    assert (0 < Z.pos m * 2 ^ (e + 1074))
      by (apply Z.mul_pos_pos; [lia|apply Z.pow_pos_nonneg; lia]).
    destruct s; simpl in Hs; [nia|]. eauto.
Qed.

(** A number that is not below an [int] does not compare as less. *)
Lemma ltb_of_int_false x n :
  is_int n -> isfinite x = true -> n * 2 ^ 1074 <= SFscaled (Prim2SF x) ->
  (x <? of_int n)%float = false.
Proof.
  intros Hn Hx Hle. rewrite FloatAxioms.ltb_spec. unfold SFltb.
  destruct (of_int_SF n Hn) as [Hf Hs].
  rewrite SFcompare_scaled by (try apply Prim2SF_valid; assumption).
  rewrite Hs. destruct (Z.compare_spec (SFscaled (Prim2SF x)) (n * 2 ^ 1074));
    try reflexivity. lia.
Qed.

(** Lines 144-149 with the gains of the globals: an error of 8 degrees or
    more gives the largest PWM value, whatever the integral and the
    derivative are. *)
Lemma calculate_new_pwm_hot c n timediff s st sm se :
  default_gains c = true -> is_int (pwmmin c) -> pwmmin c <= pwmmax ->
  8 <= n <= int_max ->
  Prim2SF timediff = S754_finite st sm se ->
  -29 <= Z.pos (digits2_pos sm) + se <= 36 ->
  within_imax c s = true -> below (prev_error s) 32 = true ->
  snd (calculate_new_pwm c (of_int n) timediff s) = Ok pwmmax.
Proof.
  intros Hg Hm Hle Hn Ht HDt Hw Hp.
  destruct (default_gains_facts c Hg) as (Hinit & Hkp & Hki & Himax & Hkd).
  assert (HP : 0 < 2 ^ 1074) by (apply Z.pow_pos_nonneg; lia).
  assert (Hni : is_int n) by (unfold is_int, int_min; lia).
  set (error := of_int n).
  assert (He : below error 32 = true) by now apply of_int_below.
  assert (Him : below (imax c) 8 = true) by (rewrite Himax; vm_compute; reflexivity).
  assert (H0 : (0 <=? imax c)%float = true) by (rewrite Himax; vm_compute; reflexivity).
  pose proof (below_finite _ _ Him) as Hfi.
  pose proof (Prim2SF_valid timediff) as Vt. rewrite Ht in Vt. simpl in Vt.
  destruct (bounded_facts _ _ Vt) as (Hse & _ & _).
  assert (Hbt : below timediff 36 = true).
  { unfold below. rewrite Ht. apply SFbelow_finite; lia. }
  pose proof (new_integral_within c error timediff s Hfi H0
                (within_imax_finite c s Hfi Hw) (below_finite _ _ He)
                (below_finite _ _ Hbt)) as Hw'.
  assert (HI : below (new_integral c error timediff s) 8 = true).
  { unfold within_imax, calculate_new_pwm in Hw'. cbn [fst integral] in Hw'.
    apply andb_true_iff in Hw' as [H1 H2].
    exact (between_below _ _ _ Him H1 H2). }
  assert (Hd : below ((error - prev_error s) / timediff) 65 = true).
  { pose proof (sub_below error (prev_error s) 32 32 He Hp ltac:(lia) ltac:(lia)) as Hs.
    change (Z.max 32 32 + 2) with 34 in Hs.
    exact (div_below _ timediff 34 (-29) st sm se Hs Ht ltac:(lia) ltac:(lia)). }
  unfold calculate_new_pwm. cbn [snd]. unfold newPWM_double. cbv zeta.
  fold error. rewrite Hinit, Hkp, Hki, Hkd.
  set (I := new_integral c error timediff s) in *.
  set (D := ((error - prev_error s) / timediff)%float) in *.
  (* the proportional term: 400 at least *)
  destruct (of_int_positive n ltac:(lia)) as (me & ee & HeSF & Hes). fold error in HeSF.
  assert (Hkb : below 50 6 = true) by (vm_compute; reflexivity).
  assert (Hb : exists mb eb, Prim2SF (50 * error) = S754_finite false mb eb /\
                             400 * 2 ^ 1074 <= Z.pos mb * 2 ^ (eb + 1074)).
  { rewrite FloatAxioms.mul_spec, HeSF.
    change (Prim2SF 50) with (S754_finite false 7036874417766400 (-47)).
    pose proof (Prim2SF_valid error) as Ve. rewrite HeSF in Ve. simpl in Ve.
    unfold below in He. rewrite HeSF in He.
    assert (Hl0 : Z.pos 7036874417766400 * 2 ^ (-44 + 1074) * 2 ^ 1074
                  <= Z.pos 7036874417766400 * 2 ^ (-47 + 1074)
                     * (Z.pos me * 2 ^ (ee + 1074))).
    { rewrite Hes.
      change (Z.pos 7036874417766400 * 2 ^ (-44 + 1074)) with (400 * 2 ^ 1074).
      change (Z.pos 7036874417766400 * 2 ^ (-47 + 1074)) with (50 * 2 ^ 1074).
      nia. }
    destruct (SFmul_lower 7036874417766400 (-47) me ee 6 32
                7036874417766400 (-44) eq_refl Ve eq_refl He ltac:(lia) eq_refl Hl0)
      as (mb & eb & Hr & Hl).
    exists mb, eb. split; [exact Hr|].
    change (Z.pos 7036874417766400 * 2 ^ (-44 + 1074)) with (400 * 2 ^ 1074) in Hl.
    exact Hl. }
  destruct Hb as (mb & eb & HbSF & Hbs).
  pose proof (mul_below _ _ 6 32 Hkb He ltac:(lia)) as Hbb.
  (* with the initial value: 528 at least *)
  destruct (of_int_SF 128) as [Haf Has]; [unfold is_int, int_min, int_max; lia|].
  pose proof (of_int_below 128 ltac:(unfold is_int, int_min, int_max; lia)) as Hab.
  assert (Hs1 : exists m1 e1, Prim2SF (of_int 128 + 50 * error) = S754_finite false m1 e1 /\
                              528 * 2 ^ 1074 <= Z.pos m1 * 2 ^ (e1 + 1074)).
  { rewrite FloatAxioms.add_spec.
    assert (Hl0 : Z.pos 4644337115725824 * 2 ^ (-43 + 1074)
                  <= SFscaled (Prim2SF (of_int 128)) + SFscaled (Prim2SF (50 * error))).
    { rewrite Has, HbSF. cbn [SFscaled].
      change (Z.pos 4644337115725824 * 2 ^ (-43 + 1074)) with (528 * 2 ^ 1074).
      lia. }
    destruct (SFadd_lower (Prim2SF (of_int 128)) (Prim2SF (50 * error)) 32 (6 + 32 + 1)
                4644337115725824 (-43) (Prim2SF_valid _) (Prim2SF_valid _)
                Hab Hbb ltac:(lia) eq_refl Hl0) as (m1 & e1 & Hr & Hl).
    exists m1, e1. split; [exact Hr|].
    change (Z.pos 4644337115725824 * 2 ^ (-43 + 1074)) with (528 * 2 ^ 1074) in Hl.
    exact Hl. }
  destruct Hs1 as (m1 & e1 & Hs1SF & Hs1s).
  pose proof (add_below _ _ 32 (6 + 32 + 1) Hab Hbb ltac:(lia) ltac:(lia)) as Hs1b.
  (* the integral term: 256 at most in absolute value *)
  assert (Hkib : below 0.5 0 = true) by (vm_compute; reflexivity).
  assert (Hc : Z.abs (SFscaled (Prim2SF (0.5 * I))) <= 256 * 2 ^ 1074).
  { rewrite FloatAxioms.mul_spec.
    pose proof (SFmul_le (Prim2SF 0.5) (Prim2SF I) 0 8 (Prim2SF_valid _) (Prim2SF_valid _)
                  Hkib HI ltac:(lia)) as Hl.
    replace (0 + 8 + 1074) with (8 + 1074) in Hl by lia.
    rewrite (Z.pow_add_r 2 8 1074) in Hl by lia. exact Hl. }
  pose proof (mul_below _ _ 0 8 Hkib HI ltac:(lia)) as Hcb.
  (* the sum of the three: 255 at least *)
  assert (Hs2 : exists m2 e2,
             Prim2SF (of_int 128 + 50 * error + 0.5 * I) = S754_finite false m2 e2 /\
             255 * 2 ^ 1074 <= Z.pos m2 * 2 ^ (e2 + 1074)).
  { rewrite FloatAxioms.add_spec.
    assert (Hl0 : Z.pos 8972014882652160 * 2 ^ (-45 + 1074)
                  <= SFscaled (Prim2SF (of_int 128 + 50 * error))
                     + SFscaled (Prim2SF (0.5 * I))).
    { rewrite Hs1SF. cbn [SFscaled].
      change (Z.pos 8972014882652160 * 2 ^ (-45 + 1074)) with (255 * 2 ^ 1074).
      lia. }
    destruct (SFadd_lower (Prim2SF (of_int 128 + 50 * error)) (Prim2SF (0.5 * I))
                (Z.max 32 (6 + 32 + 1) + 2) (0 + 8 + 1)
                8972014882652160 (-45) (Prim2SF_valid _) (Prim2SF_valid _)
                Hs1b Hcb ltac:(lia) eq_refl Hl0) as (m2 & e2 & Hr & Hl).
    exists m2, e2. split; [exact Hr|].
    change (Z.pos 8972014882652160 * 2 ^ (-45 + 1074)) with (255 * 2 ^ 1074) in Hl.
    exact Hl. }
  destruct Hs2 as (m2 & e2 & Hs2SF & Hs2s).
  (* the derivative term is a zero *)
  assert (Hx : Prim2SF (of_int 128 + 50 * error + 0.5 * I + 0 * D)
               = S754_finite false m2 e2).
  { rewrite FloatAxioms.add_spec, Hs2SF, FloatAxioms.mul_spec.
    change (Prim2SF 0) with (S754_zero false).
    apply below_finite in Hd. unfold isfinite in Hd.
    destruct (Prim2SF D) as [sd|sd| |sd md ed]; try discriminate; reflexivity. }
  set (x := (of_int 128 + 50 * error + 0.5 * I + 0 * D)%float) in *.
  assert (Hxf : isfinite x = true) by (unfold isfinite; rewrite Hx; reflexivity).
  assert (Hxs : 255 * 2 ^ 1074 <= SFscaled (Prim2SF x)) by (rewrite Hx; exact Hs2s).
  assert (Hmax : is_int pwmmax) by (unfold is_int, int_min, int_max, pwmmax; lia).
  unfold clamp_pwm.
  destruct (of_int pwmmax <? x)%float eqn:E1; [now apply to_int_of_int|].
  rewrite (ltb_of_int_false x (pwmmin c) Hm Hxf)
    by (unfold pwmmax in Hle; nia).
  destruct (to_int_between pwmmax pwmmax x Hmax Hmax (isfinite_not_nan _ Hxf) E1
              (ltb_of_int_false x pwmmax Hmax Hxf Hxs)) as (p & Hp' & Hr).
  rewrite Hp'. f_equal. lia.
Qed.

(** Lines 392-421 on a state whose effective temperature is 8 degrees or
    more above the setpoint. *)
Lemma control_hot c st t :
  sane_config c = true -> default_gains c = true -> loop_invariant c st ->
  8 <= maxtemp st - setpoint c <= int_max ->
  (elapsed t (lasttime st) =? 0) = false ->
  exists st',
    control c st t = Ok (st', pwm_writes (ecbar st) pwmmax ++ [Sleep (interval c)])
    /\ pwm st' = pwmmax.
Proof.
  intros Hc Hg (Hr & Hw & Hp) Hhot Hz.
  destruct (sane_config_facts c Hc) as (_ & Hm & Hle & _).
  rewrite <- time_diff_zero in Hz.
  destruct (time_diff_nonzero _ _ Hz) as (s & m & e & Ht & HD).
  unfold control. rewrite Hz.
  rewrite wrap_int_id by (unfold is_int, int_min; lia).
  pose proof (calculate_new_pwm_hot c (maxtemp st - setpoint c) _ (pid st) s m e
                Hg Hm Hle Hhot Ht HD Hw Hp) as Hpwm.
  destruct (calculate_new_pwm c _ _ (pid st)) as [pid' r]. cbn [snd] in Hpwm.
  subst r. cbn [mbind result_bind mret result_ret].
  eexists. split.
  - unfold pwm_writes. rewrite <- app_assoc. reflexivity.
  - reflexivity.
Qed.

(** ** Further properties of the program *)

(** *** [split_drive_names] *)

(** X3.  For every drive list (shorter than [INT_MAX] characters),
    [split_drive_names] returns the number of commas plus one, which is at
    least 1, so that the test [count == 0] of line 231 never succeeds; the
    array has that many elements; the loop of lines 97-102 writes the
    tokens of [strtok], in their order, to the elements 0, 1, ... and never
    outside the array, the elements after the last token staying
    unwritten; and there are at most [count] tokens. *)
Theorem split_drive_names_within_array (drive_list : cstring) :
  Z.of_nat (length drive_list) < int_max ->
  exists drives,
    split_drive_names drive_list = Ok (1 + commas drive_list, drives) /\
    1 <= 1 + commas drive_list /\
    Z.of_nat (length drives) = 1 + commas drive_list /\
    omap id drives = strtok drive_list [] /\
    (length (strtok drive_list []) <= length drives)%nat /\
    drives = (Some <$> strtok drive_list [])
             ++ replicate (length drives - length (strtok drive_list [])) None.
Proof.
  intros Hlen.
  destruct (join_fields_of drive_list []) as (Hj & Hc & Hn). simpl in Hj, Hc.
  set (fields := fields_of drive_list []) in *.
  pose proof (commas_join fields Hc) as Hcj. rewrite Hj, Hn in Hcj.
  pose proof (strtok_join fields [] Hc Hn) as Ht. rewrite Hj in Ht.
  pose proof (split_drive_names_join fields Hn Hc) as Hs. rewrite Hj in Hs.
  specialize (Hs Hlen).
  set (written := filter (fun f => nonempty f = true) fields) in *.
  assert (Htok : strtok drive_list [] = written).
  { rewrite Ht. unfold written. destruct fields; [discriminate|reflexivity]. }
  pose proof (length_filter (fun f => nonempty f = true) fields) as Hle.
  fold written in Hle.
  eexists. split.
  { rewrite Hs. do 2 f_equal. lia. }
  pose proof (commas_nonneg drive_list).
  split; [lia|]. split; [|split; [|split]].
  - rewrite length_app, length_fmap, length_replicate. lia.
  - rewrite Htok, omap_app.
    assert (Hnone : forall n, omap id (replicate n (@None cstring)) = [])
      by (induction n; auto).
    rewrite Hnone, app_nil_r.
    clear. induction written as [|w ws IH]; [reflexivity|].
    simpl. f_equal. exact IH.
  - rewrite Htok, length_app, length_fmap. lia.
  - rewrite Htok, length_app, length_fmap, length_replicate.
    do 2 f_equal. lia.
Qed.

Lemma split_drive_names_within_array_witness :
  Z.of_nat (length (cstr "sda,,sdc")) < int_max /\
  exists drives,
    split_drive_names (cstr "sda,,sdc") = Ok (1 + commas (cstr "sda,,sdc"), drives) /\
    1 <= 1 + commas (cstr "sda,,sdc") /\
    Z.of_nat (length drives) = 1 + commas (cstr "sda,,sdc") /\
    omap id drives = strtok (cstr "sda,,sdc") [] /\
    (length (strtok (cstr "sda,,sdc") []) <= length drives)%nat /\
    drives = (Some <$> strtok (cstr "sda,,sdc") [])
             ++ replicate (length drives - length (strtok (cstr "sda,,sdc") [])) None.
Proof.
  assert (H : Z.of_nat (length (cstr "sda,,sdc")) < int_max) by (vm_compute; reflexivity).
  split; [exact H|].
  exact (split_drive_names_within_array (cstr "sda,,sdc") H).
Defined.

(** X4.  A list written as one name at least, each name non-empty and
    without a comma, with one comma between two names, is split into these
    names: the count is their number and element i of the array is name
    i. *)
Theorem split_drive_names_round_trip (names : list cstring) :
  nonempty names = true ->
  forallb (fun name => nonempty name && no_comma name) names = true ->
  Z.of_nat (length (join names)) < int_max ->
  split_drive_names (join names) = Ok (Z.of_nat (length names), Some <$> names).
Proof.
  intros Hn Hall Hlen.
  assert (Hc : forallb no_comma names = true).
  { rewrite forallb_forall in *. intros x Hx.
    specialize (Hall x Hx). now apply andb_true_iff in Hall. }
  assert (Hne : forallb nonempty names = true).
  { rewrite forallb_forall in *. intros x Hx.
    specialize (Hall x Hx). now apply andb_true_iff in Hall. }
  rewrite (split_drive_names_join names Hn Hc Hlen).
  rewrite (filter_all nonempty names Hne), Nat.sub_diag, app_nil_r. reflexivity.
Qed.

Lemma split_drive_names_round_trip_witness :
  let names := [cstr "sda"; cstr "sdc"; cstr "nvme0n1"] in
  nonempty names = true /\
  forallb (fun name => nonempty name && no_comma name) names = true /\
  Z.of_nat (length (join names)) < int_max /\
  join names = cstr "sda,sdc,nvme0n1" /\
  split_drive_names (join names) = Ok (Z.of_nat (length names), Some <$> names).
Proof.
  intros names.
  assert (H : Z.of_nat (length (join names)) < int_max) by (vm_compute; reflexivity).
  split; [reflexivity|]. split; [reflexivity|]. split; [exact H|].
  split; [reflexivity|].
  exact (split_drive_names_round_trip names eq_refl eq_refl H).
Defined.

(** X5.  A drive list with an empty field (an empty list, a comma at
    either end, two commas in a row) is not refused.  The count is the
    number of fields, the names that are not empty are moved to the front
    of the array, and the elements after them are never written; the
    program goes through the start-up writes to the ports, and its first
    iteration reads the first of these elements at line 326. *)
Theorem empty_field_reads_unwritten_pointer (atoi : cstring -> Z)
    (atof : cstring -> double) (args : list cstring) (o : options)
    (fields : list cstring) (bar_hi bar_lo : Z) (now : timespec)
    (inp : inputs) (inps : list inputs) :
  parse_args atoi atof args = Ok (Some o) ->
  drive_list o = Some (join fields) ->
  nonempty fields = true -> forallb no_comma fields = true ->
  forallb nonempty fields = false ->
  Z.of_nat (length (join fields)) < int_max ->
  let written := filter (fun f => nonempty f = true) fields in
  split_drive_names (join fields)
  = Ok (Z.of_nat (length fields),
        (Some <$> written) ++ replicate (length fields - length written) None) /\
  (length written < length fields)%nat /\
  fancontrol atoi atof args bar_hi bar_lo now (inp :: inps)
  = (snd (startup (cfg o) bar_hi bar_lo now), Uninitialised (Z.of_nat (length written))).
Proof.
  intros Hp Hd Hn Hc He Hlen written.
  pose proof (split_drive_names_join fields Hn Hc Hlen) as Hs. fold written in Hs.
  pose proof (filter_some nonempty fields He) as Hlt. fold written in Hlt.
  split; [exact Hs|]. split; [exact Hlt|].
  unfold fancontrol. rewrite Hp, Hd.
  change (default [] (Some (join fields))) with (join fields). rewrite Hs.
  destruct (Z.eqb_spec (Z.of_nat (length fields)) 0) as [E|E]; [lia|].
  rewrite first_unwritten_spec.
  destruct (Z.ltb_spec 0 (Z.of_nat (length fields - length written))); [|lia].
  reflexivity.
Qed.

Lemma empty_field_reads_unwritten_pointer_witness :
  let args := [cstr "--drive_list=sda,,sdc"] in
  let o := {| cfg := default_config;
              drive_list := Some (cstr "sda,,sdc");
              graphite_server := None;
              graphite_port := 0 |} in
  let fields := [cstr "sda"; []; cstr "sdc"] in
  let now := {| tv_sec := 0; tv_nsec := 0 |} in
  parse_args example_atoi example_atof args = Ok (Some o) /\
  drive_list o = Some (join fields) /\
  nonempty fields = true /\ forallb no_comma fields = true /\
  forallb nonempty fields = false /\
  Z.of_nat (length (join fields)) < int_max /\
  split_drive_names (join fields)
  = Ok (3, [Some (cstr "sda"); Some (cstr "sdc"); None]) /\
  (2 < 3)%nat /\
  fancontrol example_atoi example_atof args 0x0a 0x30 now [scenario_1_inputs]
  = (snd (startup default_config 0x0a 0x30 now), Uninitialised 2).
Proof.
  intros args o fields now.
  assert (H : Z.of_nat (length (join fields)) < int_max) by (vm_compute; reflexivity).
  split; [reflexivity|]. split; [reflexivity|]. split; [reflexivity|].
  split; [reflexivity|]. split; [reflexivity|]. split; [exact H|].
  exact (empty_field_reads_unwritten_pointer example_atoi example_atof args o fields
           0x0a 0x30 now scenario_1_inputs [] eq_refl eq_refl eq_refl eq_refl eq_refl H).
Defined.

(** *** The options *)

(** X6.  When the command line is accepted, every variable an option sets
    has the value of the last argument that gives this option, whatever
    the order of the arguments and whatever stands between them, and keeps
    its default (lines 39-55) when no argument gives the option: [atoi] of
    the text after the prefix for the integers, its being other than 0 for
    [debug], [atof] for the gains and [imax], [atof] converted to [int]
    for the window of the CPU average, the text before the first colon and
    [atoi] of the text after it for the Graphite server and port. *)
Theorem options_last_wins (atoi : cstring -> Z) (atof : cstring -> double)
    (args : list cstring) (o : options) :
  parse_args atoi atof args = Ok (Some o) ->
  last_wins atoi atof initial_options args o.
Proof.
  rewrite parse_args_cases.
  destruct (parse_loop atoi atof initial_options args) as [[o'|]|f] eqn:Hl;
    try discriminate.
  destruct (accepted args); [|discriminate].
  intros H. injection H as <-. now apply parse_loop_last_wins.
Qed.

Lemma options_last_wins_witness :
  let args := [cstr "--setpoint=40"; cstr "--drive_list=sda"; cstr "--kp=2";
               cstr "--setpoint=35"; cstr "--drive_list=sdb,sdc"] in
  let o := {| cfg := with_kp 2 (with_setpoint 35 default_config);
              drive_list := Some (cstr "sdb,sdc");
              graphite_server := None;
              graphite_port := 0 |} in
  parse_args example_atoi example_atof args = Ok (Some o) /\
  last_wins example_atoi example_atof initial_options args o.
Proof.
  intros args o.
  assert (H : parse_args example_atoi example_atof args = Ok (Some o))
    by (vm_compute; reflexivity).
  split; [exact H|].
  exact (options_last_wins example_atoi example_atof args o H).
Defined.

(** X7.  When every value of [--cpu_avg=] has a conversion to [int] (the
    conversion of line 202 is undefined otherwise, and such command lines
    are left out), the program goes on to line 229 exactly when there is
    an argument, every argument starts with one of the thirteen prefixes
    (and has a colon after [--graphite_server=]), and one argument at least
    gives the drive list.  In all other cases it returns 1 and no port is
    written. *)
Theorem options_accepted (atoi : cstring -> Z) (atof : cstring -> double)
    (args : list cstring) (bar_hi bar_lo : Z) (now : timespec) (inps : list inputs) :
  cpu_avg_converts atof args = true ->
  parsed (parse_args atoi atof args) = accepted args /\
  (accepted args = false ->
   fancontrol atoi atof args bar_hi bar_lo now inps = ([], Returned 1)).
Proof.
  intros Hc.
  pose proof (parse_args_cases atoi atof args) as Hpa.
  pose proof (parse_loop_parsed atoi atof args initial_options) as Hp.
  pose proof (parse_loop_converts atoi atof args initial_options Hc) as Hok.
  rewrite Hc, andb_true_r in Hp.
  destruct (parse_loop atoi atof initial_options args) as [[o'|]|f];
    cbn [parsed is_ok] in *; [| |discriminate].
  - destruct (accepted args); rewrite Hpa; split; try reflexivity; try discriminate.
    intros _. unfold fancontrol. rewrite Hpa. reflexivity.
  - assert (Ha : accepted args = false).
    { unfold accepted. rewrite <- Hp. now rewrite andb_false_r. }
    rewrite Ha, Hpa. split; [reflexivity|].
    intros _. unfold fancontrol. rewrite Hpa. reflexivity.
Qed.

Lemma options_accepted_witness :
  let good := [cstr "--drive_list=sda,sdb"; cstr "--cpu_avg=5"] in
  let bad := [cstr "--cpu_avg=5"; cstr "--verbose"] in
  let now := {| tv_sec := 0; tv_nsec := 0 |} in
  cpu_avg_converts example_atof good = true /\
  cpu_avg_converts example_atof bad = true /\
  parsed (parse_args example_atoi example_atof good) = true /\
  fancontrol example_atoi example_atof bad 0x0a 0x30 now [scenario_1_inputs]
  = ([], Returned 1).
Proof.
  intros good bad now.
  assert (Hg : cpu_avg_converts example_atof good = true) by (vm_compute; reflexivity).
  assert (Hb : cpu_avg_converts example_atof bad = true) by (vm_compute; reflexivity).
  split; [exact Hg|]. split; [exact Hb|]. split.
  - destruct (options_accepted example_atoi example_atof good 0x0a 0x30 now [] Hg)
      as [H _].
    rewrite H. vm_compute. reflexivity.
  - destruct (options_accepted example_atoi example_atof bad 0x0a 0x30 now
                [scenario_1_inputs] Hb) as [_ H].
    apply H. vm_compute. reflexivity.
Defined.

(** X8.  An argument [--overheat=...] can be added to a command line, at
    any place, or removed from it: the program returns in the same cases,
    and otherwise writes the same bytes to the same ports, sleeps as long
    and reaches the same state.  (The option is read and its value stored;
    nothing reads the value.) *)
Theorem overheat_option_has_no_effect (atoi : cstring -> Z)
    (atof : cstring -> double) (before after : list cstring) (arg : cstring)
    (bar_hi bar_lo : Z) (now : timespec) (inps : list inputs) :
  strncmp_eq arg (cstr "--overheat=") 11 = true ->
  fancontrol atoi atof (before ++ arg :: after) bar_hi bar_lo now inps
  = fancontrol atoi atof (before ++ after) bar_hi bar_lo now inps.
Proof.
  intros Ht.
  assert (Hk : kind_of arg = Some KOverheat).
  { pose proof (kind_of_test arg KOverheat) as H.
    change (strncmp_eq arg (cstr "--overheat=") 11
            = bool_decide (kind_of arg = Some KOverheat)) in H.
    rewrite Ht in H. symmetry in H. now apply bool_decide_eq_true in H. }
  apply fancontrol_same. now apply parse_args_skip.
Qed.

Lemma overheat_option_has_no_effect_witness :
  let now := {| tv_sec := 0; tv_nsec := 0 |} in
  strncmp_eq (cstr "--overheat=30") (cstr "--overheat=") 11 = true /\
  fancontrol example_atoi example_atof
    ([cstr "--drive_list=sda"] ++ cstr "--overheat=30" :: [cstr "--kp=2"])
    0x0a 0x30 now [scenario_1_inputs]
  = fancontrol example_atoi example_atof
      ([cstr "--drive_list=sda"] ++ [cstr "--kp=2"])
      0x0a 0x30 now [scenario_1_inputs].
Proof.
  intros now. split; [reflexivity|].
  exact (overheat_option_has_no_effect example_atoi example_atof
           [cstr "--drive_list=sda"] [cstr "--kp=2"] (cstr "--overheat=30")
           0x0a 0x30 now [scenario_1_inputs] eq_refl).
Defined.

(** *** The loop *)

(** X9.  With [0 <= pwmmin <= 255], in a run that stands after its
    iterations (no conversion of line 149 was undefined: every run of a
    sane configuration is one), every byte an iteration writes to the two
    PWM registers is within [[pwmmin, 255]], whatever the loop reads: the
    conversion to [uint8_t] of line 417 changes no value the PID step
    returns.  (The byte written at the start is [pwminit] reduced to 8
    bits, which no limit applies to.) *)
Theorem pwm_bytes_within_limits (c : config) (bar_hi bar_lo : Z)
    (now : timespec) (inps : list inputs) :
  0 <= pwmmin c <= pwmmax ->
  is_ok (snd (main c bar_hi bar_lo now inps)) = true ->
  exists tr,
    fst (main c bar_hi bar_lo now inps) = snd (startup c bar_hi bar_lo now) ++ tr /\
    iterations_within (ecbar (fst (startup c bar_hi bar_lo now))) (interval c)
                      (pwmmin c) pwmmax tr /\
    length (sleeps tr) = length inps.
Proof.
  intros Hm Hok. unfold main in *.
  pose proof (loop_within c inps (fst (startup c bar_hi bar_lo now)) Hm) as Hl.
  destruct (loop_sleeps c inps (fst (startup c bar_hi bar_lo now)))
    as (k & Hs & _ & Hk).
  destruct (startup c bar_hi bar_lo now) as [st0 tr0]. cbn [fst snd] in *.
  destruct (loop c st0 inps) as [tr r]. cbn [fst snd] in *.
  exists tr. split; [reflexivity|]. split; [exact Hl|].
  rewrite Hs, length_replicate. exact (Hk Hok).
Qed.

Lemma pwm_bytes_within_limits_witness :
  let now := {| tv_sec := 0; tv_nsec := 0 |} in
  let inps := [scenario_1_inputs; hot_cpu_inputs; no_cpu_pipe_inputs] in
  0 <= pwmmin default_config <= pwmmax /\
  is_ok (snd (main default_config 0x0a 0x30 now inps)) = true /\
  exists tr,
    fst (main default_config 0x0a 0x30 now inps)
    = snd (startup default_config 0x0a 0x30 now) ++ tr /\
    iterations_within (ecbar (fst (startup default_config 0x0a 0x30 now)))
                      (interval default_config) (pwmmin default_config) pwmmax tr /\
    length (sleeps tr) = length inps.
Proof.
  intros now inps.
  assert (H : 0 <= pwmmin default_config <= pwmmax) by (simpl; unfold pwmmax; lia).
  assert (Hok : is_ok (snd (main default_config 0x0a 0x30 now inps)) = true)
    by (vm_compute; reflexivity).
  split; [exact H|]. split; [exact Hok|].
  exact (pwm_bytes_within_limits default_config 0x0a 0x30 now inps H Hok).
Defined.

(** X10.  With a window of one element at least for the CPU average, no
    run reads or writes [cputemp_values] outside its allocation, and none
    divides or takes a remainder by zero, whatever the loop reads and
    however long it runs: a run can only end at the conversion to [int] of
    the PWM value. *)
Theorem run_is_memory_safe (c : config) (bar_hi bar_lo : Z) (now : timespec)
    (inps : list inputs) :
  1 <= cputemp_max_values c <= int_max ->
  memory_safe (snd (main c bar_hi bar_lo now inps)) = true.
Proof.
  intros HN. unfold main.
  pose proof (loop_memory_safe c inps (fst (startup c bar_hi bar_lo now)) HN
                (rolling_ok_init c (proj1 HN))) as H.
  destruct (startup c bar_hi bar_lo now) as [st0 tr0]. cbn [fst] in H.
  destruct (loop c st0 inps). exact H.
Qed.

Lemma run_is_memory_safe_witness :
  let now := {| tv_sec := 0; tv_nsec := 0 |} in
  1 <= cputemp_max_values overflowing_gains <= int_max /\
  snd (main overflowing_gains 0x0a 0x30 now [scenario_1_inputs]) = Fault CastUndefined /\
  memory_safe (snd (main overflowing_gains 0x0a 0x30 now [scenario_1_inputs])) = true.
Proof.
  intros now.
  assert (H : 1 <= cputemp_max_values overflowing_gains <= int_max)
    by (simpl; unfold int_max; lia).
  split; [exact H|]. split; [vm_compute; reflexivity|].
  exact (run_is_memory_safe overflowing_gains 0x0a 0x30 now _ H).
Defined.

(** X11.  The rolling average is never outside the readings it is taken
    from: when the last N readings (all of them while there are fewer than
    N) are within [[lo, hi]], so is the average, for a window N of one
    element at least and as long as the [int] sum does not overflow. *)
Theorem rolling_average_within (c : config) (B lo hi : Z) (samples : list Z) :
  let N := cputemp_max_values c in
  1 <= N <= int_max -> 0 <= B -> N * B <= int_max ->
  Forall (fun x => - B <= x <= B) samples ->
  samples <> [] ->
  Forall (fun x => lo <= x <= hi) (drop (length samples - Z.to_nat N) samples) ->
  exists r avg,
    rolling_inserts c (rolling_init c) 0 samples = Ok (r, avg) /\
    lo <= avg <= hi.
Proof.
  intros N HN HB HNB Hs Hne Hw.
  destruct (rolling_inserts_inv c B samples [] (rolling_init c) 0 HB HN HNB
              (rolling_inv_init c B HB (proj1 HN)) Hs)
    as (r & avg & Hrun & Hinv & Havg).
  simpl in Hinv. exists r, avg. split; [exact Hrun|].
  rewrite (Havg Hne).
  pose proof Hinv as (Hlen & Hcnt & Hidx & Hrot & Hsum & Hall).
  fold N in Hlen, Hcnt, Hidx, Hrot.
  set (k := Z.of_nat (length samples)) in *.
  assert (Hk : 1 <= k) by (destruct samples; [congruence|simpl in *; lia]).
  destruct (Z.le_gt_cases k N) as [Hle|Hgt].
  - destruct (rolling_inv_filling c B samples r (proj1 HN) Hinv Hle) as [Ht Hd].
    replace (length samples - Z.to_nat N)%nat with 0%nat in Hw by lia.
    rewrite drop_0 in Hw.
    assert (Hsum' : cputemp_sum r = sumZ samples).
    { rewrite Hsum. rewrite <- (take_drop (length samples) (cputemp_values r)).
      rewrite sumZ_app, Hd, Ht. lia. }
    rewrite Hsum', Hcnt, Z.min_l by lia.
    apply quot_between; [lia|]. apply (sumZ_between lo hi samples Hw).
  - assert (Hsum' : cputemp_sum r
                    = sumZ (drop (length samples - Z.to_nat N) samples)).
    { rewrite Hsum, <- (sumZ_rotate (Z.to_nat (cputemp_index r))), Hrot.
      rewrite drop_app_ge by (rewrite length_replicate; lia).
      now rewrite length_replicate. }
    rewrite Hsum', Hcnt, Z.min_r by lia.
    apply quot_between; [lia|].
    pose proof (sumZ_between lo hi _ Hw) as Hb.
    rewrite length_drop in Hb.
    replace (Z.of_nat (length samples - (length samples - Z.to_nat N))) with N in Hb by lia.
    exact Hb.
Qed.

Lemma rolling_average_within_witness :
  let c := default_config in
  let samples := [90; 30; 52; 50; 51; 50; 52; 50; 51; 52; 50; 51] in
  1 <= cputemp_max_values c <= int_max /\ 0 <= 100 /\
  cputemp_max_values c * 100 <= int_max /\
  Forall (fun x => - 100 <= x <= 100) samples /\
  drop (length samples - Z.to_nat (cputemp_max_values c)) samples
  = [52; 50; 51; 50; 52; 50; 51; 52; 50; 51] /\
  exists r avg,
    rolling_inserts c (rolling_init c) 0 samples = Ok (r, avg) /\
    50 <= avg <= 52.
Proof.
  intros c samples.
  assert (H1 : 1 <= cputemp_max_values c <= int_max) by (simpl; unfold int_max; lia).
  assert (H2 : cputemp_max_values c * 100 <= int_max) by (simpl; unfold int_max; lia).
  assert (H3 : Forall (fun x => - 100 <= x <= 100) samples)
    by (repeat (constructor; [lia|]); constructor).
  split; [exact H1|]. split; [lia|]. split; [exact H2|]. split; [exact H3|].
  split; [reflexivity|].
  apply (rolling_average_within c 100 50 52 samples H1 ltac:(lia) H2 H3).
  - discriminate.
  - repeat (constructor; [lia|]). constructor.
Defined.

(** X12.  Whatever [tempstring] holds when the loop over the drives starts
    and whichever drives fail, the device maximum of an iteration is not
    below any reading a drive reported in this iteration, nor below 0, and
    is not above the greatest of these readings and of what [tempstring]
    held: a buffer left from an earlier reading can raise the maximum, and
    never hides a reading. *)
Theorem device_maximum_between (tempstring : Z) (pipes : list pipe) :
  max_of (reported pipes) <= poll_drives tempstring pipes
  /\ poll_drives tempstring pipes <= Z.max tempstring (max_of (reported pipes))
  /\ Forall (fun t => t <= poll_drives tempstring pipes) (reported pipes)
  /\ 0 <= poll_drives tempstring pipes.
Proof.
  rewrite poll_drives_max.
  pose proof (max_of_reported_le pipes tempstring) as Hl.
  pose proof (drive_temps_reported pipes tempstring) as Hu.
  pose proof (max_of_nonneg (drive_temps tempstring pipes)) as H0.
  split; [exact Hl|]. split; [lia|]. split; [|exact H0].
  eapply Forall_impl; [apply max_of_upper|]. simpl. intros; lia.
Qed.

(** X13.  The base address of the embedded controller is the 16-bit number
    whose high byte is read from register 0x60 and whose low byte is read
    from register 0x61: neither the arithmetic in [int] of line 261 nor the
    conversion to [uint16_t] changes it. *)
Theorem ecbar_of_two_bytes (c : config) (bar_hi bar_lo : Z) (now : timespec) :
  let base := ecbar (fst (startup c bar_hi bar_lo now)) in
  base = 256 * (bar_hi mod 256) + bar_lo mod 256 /\
  0 <= base < 65536 /\
  base / 256 = bar_hi mod 256 /\ base mod 256 = bar_lo mod 256.
Proof.
  unfold startup. cbn [ioread fst ecbar]. unfold wrap_u8.
  pose proof (Z.mod_pos_bound bar_hi 256 ltac:(lia)) as Hh.
  pose proof (Z.mod_pos_bound bar_lo 256 ltac:(lia)) as Hl.
  set (h := bar_hi mod 256) in *. set (l := bar_lo mod 256) in *.
  rewrite Z.shiftl_mul_pow2 by lia. change (2 ^ 8) with 256.
  rewrite wrap_int_id by (unfold is_int, int_min, int_max; lia).
  unfold wrap_u16. rewrite Z.mod_small by lia.
  cbv zeta. split; [lia|]. split; [lia|]. split.
  - symmetry. apply Z.div_unique with l; lia.
  - symmetry. apply Z.mod_unique with h; lia.
Qed.

(** X14.  The time difference of lines 393-394 is a finite number,
    whatever the two readings hold.  For two readings of the monotonic
    clock it is 0 exactly when the two readings are the same instant, and
    it is positive exactly when the clock has advanced: the iteration is
    skipped (line 396) only when the clock has not moved at all since the
    last PID step, and the PID step never divides by a zero [timediff]. *)
Theorem timediff_zero_at_same_instant (curtime lasttime : timespec) :
  isfinite (time_diff curtime lasttime) = true /\
  (valid_time curtime = true -> valid_time lasttime = true ->
   (time_diff curtime lasttime =? 0)%float
   = (nanoseconds curtime =? nanoseconds lasttime) /\
   (0 <? time_diff curtime lasttime)%float
   = (nanoseconds lasttime <? nanoseconds curtime) /\
   (nanoseconds curtime = nanoseconds lasttime -> curtime = lasttime)).
Proof.
  split; [apply time_diff_finite|].
  intros Hc Hl.
  pose proof (elapsed_nanoseconds curtime lasttime Hc Hl) as He.
  split; [|split].
  - rewrite time_diff_zero, He.
    destruct (Z.eqb_spec (nanoseconds curtime - nanoseconds lasttime) 0),
             (Z.eqb_spec (nanoseconds curtime) (nanoseconds lasttime)); lia || reflexivity.
  - rewrite time_diff_positive, He.
    destruct (Z.ltb_spec 0 (nanoseconds curtime - nanoseconds lasttime)),
             (Z.ltb_spec (nanoseconds lasttime) (nanoseconds curtime)); lia || reflexivity.
  - unfold valid_time, nanoseconds in *.
    rewrite !andb_true_iff, !Z.leb_le, !Z.ltb_lt in Hc, Hl.
    destruct curtime as [s1 n1], lasttime as [s2 n2]. cbn [tv_sec tv_nsec] in *.
    intros H. assert (s1 = s2) by lia. assert (n1 = n2) by lia. now subst.
Qed.

Lemma timediff_zero_at_same_instant_witness :
  let curtime := {| tv_sec := 10; tv_nsec := 500 |} in
  let lasttime := {| tv_sec := 9; tv_nsec := 999999999 |} in
  valid_time curtime = true /\ valid_time lasttime = true /\
  nanoseconds curtime - nanoseconds lasttime = 501 /\
  isfinite (time_diff curtime lasttime) = true /\
  (time_diff curtime lasttime =? 0)%float
  = (nanoseconds curtime =? nanoseconds lasttime) /\
  (0 <? time_diff curtime lasttime)%float
  = (nanoseconds lasttime <? nanoseconds curtime) /\
  (nanoseconds curtime = nanoseconds lasttime -> curtime = lasttime).
Proof.
  intros curtime lasttime.
  split; [reflexivity|]. split; [reflexivity|]. split; [reflexivity|].
  destruct (timediff_zero_at_same_instant curtime lasttime) as [Hf H].
  split; [exact Hf|]. exact (H eq_refl eq_refl).
Defined.

(** X15.  In the loop the integral term stays within [[-imax, +imax]]:
    with [imax] a finite number that is not negative, the integral of
    every state a run of [main] reaches is within the two bounds, whatever
    the temperatures and the clock readings are.  (The error of line 406
    is the conversion of an [int] and the time difference is finite, so
    that the sum of line 135 is never NaN.) *)
Theorem integral_within_imax_in_loop (c : config) (bar_hi bar_lo : Z)
    (now : timespec) (inps : list inputs) (st : state) :
  isfinite (imax c) = true -> (0 <=? imax c)%float = true ->
  snd (main c bar_hi bar_lo now inps) = Ok st ->
  within_imax c (pid st) = true.
Proof.
  intros Hf H0. unfold main.
  pose proof (loop_integral c inps (fst (startup c bar_hi bar_lo now)) st Hf H0
                (within_imax_init c H0)) as H.
  destruct (startup c bar_hi bar_lo now) as [st0 tr0]. cbn [fst] in H.
  destruct (loop c st0 inps). exact H.
Qed.

Lemma integral_within_imax_in_loop_witness :
  let now := {| tv_sec := 0; tv_nsec := 0 |} in
  let inps := [scenario_1_inputs; hot_cpu_inputs; no_cpu_pipe_inputs] in
  isfinite (imax default_config) = true /\
  (0 <=? imax default_config)%float = true /\
  exists st,
    snd (main default_config 0x0a 0x30 now inps) = Ok st /\
    within_imax default_config (pid st) = true.
Proof.
  intros now inps.
  assert (H : exists st, snd (main default_config 0x0a 0x30 now inps) = Ok st)
    by (eexists; vm_compute; reflexivity).
  split; [reflexivity|]. split; [reflexivity|].
  destruct H as [st H]. exists st. split; [exact H|].
  exact (integral_within_imax_in_loop default_config 0x0a 0x30 now inps st
           eq_refl eq_refl H).
Defined.

(** X16.  A run touches four ports and no other: the index and data ports
    0x2e and 0x2f of the Super I/O chip, at the start only, and the ports
    [ecbar + 5] and [ecbar + 6] of the embedded controller; every value
    written is a byte. *)
Theorem ports_of_a_run (c : config) (bar_hi bar_lo : Z) (now : timespec)
    (inps : list inputs) :
  let base := ecbar (fst (startup c bar_hi bar_lo now)) in
  let ec := [wrap_u16 (base + 5); wrap_u16 (base + 6)] in
  Forall (on_ports (0x2e :: 0x2f :: ec)) (fst (main c bar_hi bar_lo now inps)) /\
  exists tr,
    fst (main c bar_hi bar_lo now inps) = snd (startup c bar_hi bar_lo now) ++ tr /\
    Forall (on_ports ec) tr.
Proof.
  intros base ec.
  assert (H5 : wrap_u16 (base + 5) ∈ ec) by (unfold ec; constructor).
  assert (H6 : wrap_u16 (base + 6) ∈ ec) by (unfold ec; do 2 constructor).
  assert (Hsub : forall ev, on_ports ec ev -> on_ports (0x2e :: 0x2f :: ec) ev).
  { intros [v p|p v|s]; simpl; auto; intros [Hp Hv]; (split; [|exact Hv]);
      now do 2 apply list_elem_of_further. }
  assert (Hex : exists tr,
            fst (main c bar_hi bar_lo now inps) = snd (startup c bar_hi bar_lo now) ++ tr /\
            Forall (on_ports ec) tr).
  { unfold main. pose proof (loop_events c inps (fst (startup c bar_hi bar_lo now))) as Hl.
    fold base in Hl.
    destruct (startup c bar_hi bar_lo now) as [st0 tr0]. cbn [fst snd] in *.
    destruct (loop c st0 inps) as [tr r]. cbn [fst] in *.
    exists tr. split; [reflexivity|].
    now apply (iterations_on_ports ec base (interval c)). }
  split; [|exact Hex].
  destruct Hex as (tr & -> & Htr).
  apply Forall_app. split; [|eapply Forall_impl; [exact Htr|exact Hsub]].
  unfold startup. cbn [ioread snd]. fold base.
  assert (P0 : wrap_u16 port ∈ 0x2e :: 0x2f :: ec) by constructor.
  assert (P1 : wrap_u16 (port + 1) ∈ 0x2e :: 0x2f :: ec) by (do 2 constructor).
  assert (E5 : wrap_u16 (base + 5) ∈ 0x2e :: 0x2f :: ec)
    by (now do 2 apply list_elem_of_further).
  assert (E6 : wrap_u16 (base + 6) ∈ 0x2e :: 0x2f :: ec)
    by (now do 2 apply list_elem_of_further).
  unfold iowrite.
  repeat (apply Forall_app; split);
    try (apply outb_on_ports; assumption);
    try (apply ecwrite_on_ports; assumption);
    (constructor; [|constructor]); (split; [assumption|apply wrap_u8_range]).
Qed.

(** X17.  With an interval that is not negative (the [int] that line 398
    or 437 passes to [sleep] is then the number of seconds slept: [sleep]
    takes an [unsigned int]), a run sleeps once in every iteration it
    completes, each time for [interval] seconds, and not at all before the
    loop: after n iterations that did not end the run, there were n
    sleeps. *)
Theorem one_sleep_per_iteration (c : config) (bar_hi bar_lo : Z) (now : timespec)
    (inps : list inputs) :
  0 <= interval c <= int_max ->
  exists k,
    sleeps (fst (main c bar_hi bar_lo now inps)) = replicate k (interval c) /\
    Forall (fun s => 0 <= s < 2 ^ 32) (sleeps (fst (main c bar_hi bar_lo now inps))) /\
    (k <= length inps)%nat /\
    (is_ok (snd (main c bar_hi bar_lo now inps)) = true -> k = length inps).
Proof.
  intros Hi. unfold main.
  assert (Hs : sleeps (snd (startup c bar_hi bar_lo now)) = []) by reflexivity.
  destruct (startup c bar_hi bar_lo now) as [st0 tr0]. cbn [snd] in Hs.
  destruct (loop_sleeps c inps st0) as (k & Hk & Hle & Hok).
  destruct (loop c st0 inps) as [tr r]. cbn [fst snd] in *.
  exists k. rewrite sleeps_app, Hs, Hk. cbn [app].
  split; [reflexivity|]. split; [|split; assumption].
  apply Forall_replicate. unfold int_max in Hi. lia.
Qed.

Lemma one_sleep_per_iteration_witness :
  let now := {| tv_sec := 0; tv_nsec := 0 |} in
  let inps := [scenario_1_inputs; hot_cpu_inputs; no_cpu_pipe_inputs] in
  0 <= interval default_config <= int_max /\
  sleeps (fst (main default_config 0x0a 0x30 now inps)) = [10; 10; 10] /\
  exists k,
    sleeps (fst (main default_config 0x0a 0x30 now inps))
    = replicate k (interval default_config) /\
    Forall (fun s => 0 <= s < 2 ^ 32)
           (sleeps (fst (main default_config 0x0a 0x30 now inps))) /\
    (k <= length inps)%nat /\
    (is_ok (snd (main default_config 0x0a 0x30 now inps)) = true -> k = length inps).
Proof.
  intros now inps.
  assert (H : 0 <= interval default_config <= int_max)
    by (simpl; unfold int_max; lia).
  split; [exact H|]. split; [vm_compute; reflexivity|].
  exact (one_sleep_per_iteration default_config 0x0a 0x30 now inps H).
Defined.

(** X18.  With a sane configuration (ints for [pwminit] and [pwmmin],
    [pwmmin <= 255], a window of one element at least, gains and [imax]
    finite and below [2 ^ 64] in absolute value, [imax >= 0]; the default
    configuration is one) no run ends with a fault, whatever the
    temperatures read and whatever the clock returns: every sum of line
    144 is a finite number, every conversion of line 149 is defined, every
    access to [cputemp_values] is within the array and no divisor is
    zero. *)
Theorem run_never_faults (c : config) (bar_hi bar_lo : Z) (now : timespec)
    (inps : list inputs) :
  sane_config c = true ->
  exists st, snd (main c bar_hi bar_lo now inps) = Ok st /\ loop_invariant c st.
Proof.
  intros Hc. unfold main.
  pose proof (loop_returns c inps (fst (startup c bar_hi bar_lo now)) Hc
                (loop_invariant_init c bar_hi bar_lo now Hc)) as H.
  destruct (startup c bar_hi bar_lo now) as [st0 tr0]. cbn [fst] in H.
  destruct (loop c st0 inps) as [tr r]. exact H.
Qed.

Lemma run_never_faults_witness :
  let now := {| tv_sec := 0; tv_nsec := 0 |} in
  let inps := [scenario_1_inputs; hot_cpu_inputs; no_cpu_pipe_inputs] in
  sane_config default_config = true /\
  exists st,
    snd (main default_config 0x0a 0x30 now inps) = Ok st /\
    loop_invariant default_config st.
Proof.
  intros now inps.
  assert (H : sane_config default_config = true) by (vm_compute; reflexivity).
  split; [exact H|].
  exact (run_never_faults default_config 0x0a 0x30 now inps H).
Defined.

(** X19.  A command line that is accepted, with a sane configuration and a
    drive list of names that are not empty, separated by single commas,
    starts a program that neither returns nor faults: after any number of
    iterations, whatever they read, the loop goes on. *)
Theorem accepted_command_line_runs (atoi : cstring -> Z) (atof : cstring -> double)
    (args : list cstring) (o : options) (names : list cstring)
    (bar_hi bar_lo : Z) (now : timespec) (inps : list inputs) :
  parse_args atoi atof args = Ok (Some o) ->
  sane_config (cfg o) = true ->
  drive_list o = Some (join names) ->
  nonempty names = true ->
  forallb (fun name => nonempty name && no_comma name) names = true ->
  Z.of_nat (length (join names)) < int_max ->
  exists st,
    fancontrol atoi atof args bar_hi bar_lo now inps
    = (fst (main (cfg o) bar_hi bar_lo now inps), Looping st).
Proof.
  intros Hp Hc Hd Hn Hall Hlen.
  destruct (run_is_total (cfg o) bar_hi bar_lo now inps Hc) as (st & Hst).
  exists st. unfold fancontrol. rewrite Hp, Hd.
  change (default [] (Some (join names))) with (join names).
  rewrite (split_drive_names_names names Hn Hall Hlen).
  destruct (Z.eqb_spec (Z.of_nat (length names)) 0) as [E|E].
  { destruct names; [discriminate|simpl in E; lia]. }
  pose proof (first_unwritten_spec names 0 0) as Hf.
  simpl replicate in Hf. rewrite app_nil_r in Hf. rewrite Hf.
  change (0 <? Z.of_nat 0) with false. cbv iota.
  destruct (main (cfg o) bar_hi bar_lo now inps) as [tr r]. cbn [fst snd] in *.
  rewrite Hst. destruct inps; reflexivity.
Qed.

Lemma accepted_command_line_runs_witness :
  let args := [cstr "--drive_list=sda,sdc"; cstr "--setpoint=40"; cstr "--kp=20"] in
  let o := {| cfg := with_kp 20 (with_setpoint 40 default_config);
              drive_list := Some (cstr "sda,sdc");
              graphite_server := None;
              graphite_port := 0 |} in
  let names := [cstr "sda"; cstr "sdc"] in
  let now := {| tv_sec := 0; tv_nsec := 0 |} in
  let inps := [scenario_1_inputs; hot_cpu_inputs] in
  parse_args example_atoi example_atof args = Ok (Some o) /\
  sane_config (cfg o) = true /\
  drive_list o = Some (join names) /\
  nonempty names = true /\
  forallb (fun name => nonempty name && no_comma name) names = true /\
  Z.of_nat (length (join names)) < int_max /\
  exists st,
    fancontrol example_atoi example_atof args 0x0a 0x30 now inps
    = (fst (main (cfg o) 0x0a 0x30 now inps), Looping st).
Proof.
  intros args o names now inps.
  assert (H1 : parse_args example_atoi example_atof args = Ok (Some o))
    by (vm_compute; reflexivity).
  assert (H2 : sane_config (cfg o) = true) by (vm_compute; reflexivity).
  assert (H3 : Z.of_nat (length (join names)) < int_max) by (vm_compute; reflexivity).
  split; [exact H1|]. split; [exact H2|]. split; [reflexivity|].
  split; [reflexivity|]. split; [reflexivity|]. split; [exact H3|].
  exact (accepted_command_line_runs example_atoi example_atof args o names
           0x0a 0x30 now inps H1 H2 eq_refl eq_refl eq_refl H3).
Defined.

(** X20.  With the gains, the integral limit and the initial PWM value of
    the globals (kp = 50, ki = 0.5, kd = 0, imax = 255, pwminit = 128) in a
    sane configuration, an iteration that finds the effective temperature
    8 degrees or more above the setpoint, after the clock has moved, writes
    255 to both PWM registers and keeps 255 as the PWM value, whatever the
    integral and the last error are: the initial value and the
    proportional term are 528 at least, and the integral term is 256 at
    most in absolute value.  With the setpoint of 37 that is every
    effective temperature from 45 degrees on. *)
Theorem hot_iteration_writes_full_speed (c : config) (st st1 : state) (inp : inputs) :
  sane_config c = true -> default_gains c = true -> loop_invariant c st ->
  poll c st inp = Ok st1 ->
  8 <= maxtemp st1 - setpoint c <= int_max ->
  (elapsed (curtime inp) (lasttime st) =? 0) = false ->
  exists st',
    iteration c st inp
    = Ok (st', pwm_writes (ecbar st) pwmmax ++ [Sleep (interval c)])
    /\ pwm st' = pwmmax.
Proof.
  intros Hc Hg (Hr & Hw & Hp) Hpoll Hhot Hz.
  destruct (sane_config_facts c Hc) as (_ & _ & _ & HN & _).
  destruct (poll_returns c st inp HN Hr) as (st2 & Hpoll2 & Hr1 & Hpid).
  rewrite Hpoll in Hpoll2. injection Hpoll2 as <-.
  destruct (poll_frame c st inp st1 Hpoll) as (_ & _ & Hlast & Hbar).
  unfold iteration. rewrite Hpoll. cbn [mbind result_bind].
  rewrite <- Hbar. apply control_hot; try assumption.
  - unfold loop_invariant. rewrite Hpid. exact (conj Hr1 (conj Hw Hp)).
  - rewrite Hlast. exact Hz.
Qed.

Lemma hot_iteration_writes_full_speed_witness :
  let inp := {| tempstring0 := 0;
                drive_pipes := [Line 38; Line 45];
                cputempstring0 := 0;
                cpu_pipe := Line 50;
                curtime := {| tv_sec := 10; tv_nsec := 0 |} |} in
  sane_config default_config = true /\ default_gains default_config = true /\
  exists st1,
    poll default_config scenario_1_start inp = Ok st1 /\ maxtemp st1 = 45 /\
    exists st',
      iteration default_config scenario_1_start inp
      = Ok (st', pwm_writes (ecbar scenario_1_start) pwmmax ++ [Sleep 10])
      /\ pwm st' = pwmmax.
Proof.
  intros inp.
  assert (Hc : sane_config default_config = true) by (vm_compute; reflexivity).
  assert (Hg : default_gains default_config = true) by (vm_compute; reflexivity).
  split; [exact Hc|]. split; [exact Hg|].
  eexists. split; [vm_compute; reflexivity|]. split; [reflexivity|].
  eapply (hot_iteration_writes_full_speed default_config scenario_1_start _ inp Hc Hg).
  - apply loop_invariant_init. exact Hc.
  - vm_compute. reflexivity.
  - cbn [maxtemp setpoint default_config]. unfold int_max. lia.
  - vm_compute. reflexivity.
Defined.
